(** * tag2cloud: the occupancy engine of the tag cloud and its orchestrator

    A shallow embedding of [src/tag2cloud.ts] (class [Tag2Cloud]): the packed
    bit grid ([generatePixels], [getPixelsFromImgData]), the collision test
    and merge ([tryPlaceTag]), the spiral search ([placeTag]) and the batch
    orchestrator ([handleTag], [performDraw], [draw], [clear]); then
    [shape], the display ([layout], [layoutByCanvas], [layoutByDom]) with
    the deadline of [performDraw], the click listeners ([onClick],
    [offClick], [click]), the cell size of the constructor and the
    debugging helpers ([binaryStrIfy], [printPixels]).

    Conventions.
    - A grid word is a JavaScript number holding a 32-bit signed integer; it
      is a [Z], and every bit operator applies the conversions of the
      language ([toInt32], [toUint32], shift counts modulo 32) explicitly.
    - Arrays are lists; a read outside the array gives [undefined], which is
      [None] here.
    - Weights, font sizes and angles are JavaScript numbers; they are exact
      rationals ([Q]) here, so the rounding error of double arithmetic is not
      part of the model.
    - The canvas (text measurement and rasterisation), the random number
      generator and the one double-precision product of the spiral search are
      parameters of the development.
    - A call that does not return, because the canvas throws or a loop has
      no end, has the result [None]. *)

From Stdlib Require Import ZArith QArith Qround Lia String.
From stdpp Require Import base list gmap strings sorting.
From Stdlib Require Import Ascii DecimalString.

Local Open Scope Z_scope.

(** ** 32-bit integer operators of the language *)

Module Int32.

Definition toUint32 (z : Z) : Z := z mod 2 ^ 32.

Definition toInt32 (z : Z) : Z := (z + 2 ^ 31) mod 2 ^ 32 - 2 ^ 31.

(** A shift uses the low five bits of its right operand. *)
Definition shiftCount (n : Z) : Z := n mod 32.

(** [a & b] *)
Definition and (a b : Z) : Z := Z.land (toInt32 a) (toInt32 b).

(** [a | b] *)
Definition or (a b : Z) : Z := Z.lor (toInt32 a) (toInt32 b).

(** [~a] *)
Definition not (a : Z) : Z := Z.lnot (toInt32 a).

(** [a << n] *)
Definition shl (a n : Z) : Z := toInt32 (Z.shiftl (toInt32 a) (shiftCount n)).

(** [a >>> n] *)
Definition shru (a n : Z) : Z := Z.shiftr (toUint32 a) (shiftCount n).

(** [a >> 0] on an integer: the conversion to a signed 32-bit integer. *)
Definition sar0 (a : Z) : Z := toInt32 a.

(** Truthiness of a number in a condition. *)
Definition truthy (a : Z) : bool := negb (a =? 0).

End Int32.

(** ** Data model *)

Record Options := mkOptions {
  width : Z;
  height : Z;
  pixelRatio : Z;
  lightThreshold : Z;
  opacityThreshold : Z;
  minFontSize : Q;
  maxFontSize : Q;
  angleFrom : Q;
  angleTo : Q;
  angleCount : Z;
  family : string;
  cut : bool;
  padding : Q
}.

(** [interface Pixels]; the fields carry a prefix because [Options] has a
    [width] and a [height] too. *)
Record Pixels := mkPixels {
  pixels_width : Z;
  pixels_height : Z;
  pixels_data : list (list Z)
}.

(** [a[i]] for a number [i]: [None] is [undefined]. *)
Definition getZ {A} (l : list A) (i : Z) : option A :=
  if i <? 0 then None else l !! Z.to_nat i.

(** [a[i] = v] for an index at which [a] holds a value. *)
Definition setZ {A} (l : list A) (i : Z) (v : A) : list A :=
  if i <? 0 then l else <[Z.to_nat i := v]> l.

(** ** The collision test and merge: [tryPlaceTag] *)

Section TryPlace.

Variable o : Options.

(** The body of the inner loop of the first pass: [true] when the mask word
    [target] at word column [j] meets an occupied cell. *)
Definition collidesWord (out offset fix_ xx : Z) (yData : list Z)
    (j target : Z) : bool :=
  let current := default out (getZ yData (xx + j)) in
  let next := Int32.and (default out (getZ yData (xx + j + 1))) fix_ in
  Int32.truthy
    (Int32.and
       (Int32.or (Int32.shl current offset) (Int32.shru next (32 - offset)))
       target).

(** [for (let j = 0, len = data[i].length; j < len; j++)] of the first
    pass, from column [j] on. *)
Fixpoint collidesRow (out offset fix_ xx : Z) (yData : list Z) (j : Z)
    (row : list Z) : bool :=
  match row with
  | [] => false
  | target :: rest =>
      if collidesWord out offset fix_ xx yData j target then true
      else collidesRow out offset fix_ xx yData (j + 1) rest
  end.

(** [for (let i = 0, len = data.length; i < len; i++)] of the first pass,
    from row [i] on. *)
Fixpoint collides (out offset fix_ xx pixelsY : Z) (thisData : list (list Z))
    (i : Z) (data : list (list Z)) : bool :=
  match data with
  | [] => false
  | row :: rest =>
      let yData := default [] (getZ thisData (pixelsY + i)) in
      if collidesRow out offset fix_ xx yData 0 row then true
      else collides out offset fix_ xx pixelsY thisData (i + 1) rest
  end.

(** The body of the inner loop of the second pass. *)
Definition mergeWord (offset xx : Z) (yData : list Z) (j target : Z)
    : list Z :=
  let yData1 :=
    match getZ yData (xx + j) with
    | Some w => setZ yData (xx + j) (Int32.or w (Int32.shru target offset))
    | None => yData
    end in
  match getZ yData1 (xx + j + 1) with
  | Some w =>
      if Int32.truthy offset
      then setZ yData1 (xx + j + 1)
             (Int32.or w (Int32.shl target (32 - offset)))
      else yData1
  | None => yData1
  end.

Fixpoint mergeRow (offset xx : Z) (yData : list Z) (j : Z) (row : list Z)
    : list Z :=
  match row with
  | [] => yData
  | target :: rest => mergeRow offset xx (mergeWord offset xx yData j target) (j + 1) rest
  end.

(** The second pass. [yData] aliases row [pixelsY + i] of the grid, so the
    writes of [mergeRow] land in the grid; when that row is [undefined],
    [yData] is a fresh empty array, every read of it is [undefined] and
    nothing is written. *)
Fixpoint merge (offset xx pixelsY : Z) (thisData : list (list Z)) (i : Z)
    (data : list (list Z)) : list (list Z) :=
  match data with
  | [] => thisData
  | row :: rest =>
      let thisData1 :=
        match getZ thisData (pixelsY + i) with
        | Some yData =>
            setZ thisData (pixelsY + i) (mergeRow offset xx yData 0 row)
        | None => thisData
        end in
      merge offset xx pixelsY thisData1 (i + 1) rest
  end.

(** [tryPlaceTag(pixels, x, y)] on the grid [this.pixels]: the result and
    the grid after the call. [pixelRatio] is at least 1 (the constructor
    rounds it up), so [Math.floor(x / pixelRatio)] is the floor division;
    [%] is the truncating remainder. *)
Definition tryPlaceTag (grid pixels : Pixels) (x y : Z) : bool * Pixels :=
  let data := pixels_data pixels in
  let thisData := pixels_data grid in
  let pixelsX := x / pixelRatio o in
  let pixelsY := y / pixelRatio o in
  let offset := Z.rem pixelsX 32 in
  let fix_ := if Int32.truthy offset then -1 else 0 in
  let xx := pixelsX / 32 in
  let out := if cut o then 0 else -1 in
  if collides out offset fix_ xx pixelsY thisData 0 data then (false, grid)
  else
    (true,
     mkPixels (pixels_width grid) (pixels_height grid)
       (merge offset xx pixelsY thisData 0 data)).

End TryPlace.

(** ** Cells of a packed grid *)

(** The word at row [r] and word column [w], when the grid stores one. *)
Definition wordAt (d : list (list Z)) (r w : Z) : option Z :=
  match getZ d r with
  | Some row => getZ row w
  | None => None
  end.

(** Cell [(r, c)]: bit [31 - c mod 32] of word [c / 32] of row [r] (the
    leftmost cell of a word is its most significant bit). *)
Definition inkAt (d : list (list Z)) (r c : Z) : bool :=
  match wordAt d r (c / 32) with
  | Some w => Z.testbit w (31 - c mod 32)
  | None => false
  end.

(** The grid stores a word for cell [(r, c)]. *)
Definition stored (d : list (list Z)) (r c : Z) : Prop :=
  is_Some (wordAt d r (c / 32)).

(** Cell [(r, c)] as the first pass sees it: a cell that the grid does not
    store has the bit of [out]. *)
Definition cellOr (out : Z) (d : list (list Z)) (r c : Z) : bool :=
  match wordAt d r (c / 32) with
  | Some w => Z.testbit w (31 - c mod 32)
  | None => Z.testbit out (31 - c mod 32)
  end.

(** ** The order "has at least the bits of" on words, rows and grids *)

Definition leBits (v v' : Z) : Prop :=
  forall k, 0 <= k < 32 -> Z.testbit v k = true -> Z.testbit v' k = true.

Definition optLe (a b : option Z) : Prop :=
  match a, b with
  | Some v, Some v' => leBits v v'
  | None, None => True
  | _, _ => False
  end.

Definition rowLe (l l' : list Z) : Prop :=
  forall i, optLe (getZ l i) (getZ l' i).

Definition gridLe (d d' : list (list Z)) : Prop :=
  forall r w, optLe (wordAt d r w) (wordAt d' r w).

(** ** Creating a grid: [generatePixels] *)

(** [Math.ceil(a / b)] for integers [a] and [b > 0]. *)
Definition ceilDiv (a b : Z) : Z := - ((- a) / b).

(** [ImageData]: [img_data] holds four bytes (red, green, blue, alpha) per
    pixel, row after row. *)
Record ImageData := mkImageData {
  img_data : list Z;
  img_width : Z;
  img_height : Z
}.

Section Grid.

Variable o : Options.

(** [tailFill] of [generatePixels]: the last word of a row. *)
Definition tailFill (pixelXLength fill : Z) (forTag : bool) : Z :=
  let tailOffset := Z.rem pixelXLength 32 in
  if forTag || (tailOffset =? 0) then fill
  else if cut o then Int32.and fill (Int32.shl (-1) (32 - tailOffset))
  else Int32.or fill (Int32.shru (-1) tailOffset).

(** [generatePixels(width, height, fill, forTag)], for [width >= 1]. When
    [width] is 0, [len] is 0 and the assignment [xData[len - 1] = tailFill]
    of the source creates a property named -1 on the empty row, which
    [tryPlaceTag] finds when it reads word -1 of that row; a list has no
    such entry, and the row of the model is empty. So the model is that of
    the source for grids of at least one column; on a canvas without
    columns no tag gets a mask (lemma [getTagPixels_no_columns]), so no
    search reads the grid of such a canvas. *)
Definition generatePixels (w h fill : Z) (forTag : bool) : Pixels :=
  let pixelXLength := ceilDiv w (pixelRatio o) in
  let pixelYLength := ceilDiv h (pixelRatio o) in
  let len := ceilDiv pixelXLength 32 in
  let xData :=
    setZ (replicate (Z.to_nat len) fill) (len - 1)
      (tailFill pixelXLength fill forTag) in
  mkPixels w h (replicate (Z.to_nat pixelYLength) xData).

(** The test of the inner scan on the pixel whose bytes start at [pos]:
    neither [opacity < opacityThreshold] nor [light > lightThreshold].
    A byte read outside the buffer is [undefined], and a comparison with
    [undefined] (or with the sum it spoils) is false. *)
Definition isInk (data : list Z) (opacityT lightT pos : Z) : bool :=
  let opacity := getZ data (pos + 3) in
  let tooClear :=
    match opacity with Some a => a <? opacityT | None => false end in
  let light :=
    match getZ data pos, getZ data (pos + 1), getZ data (pos + 2) with
    | Some r, Some g, Some b => Some (r + g + b)
    | _, _, _ => None
    end in
  let tooLight :=
    match light with Some l => lightT <? l | None => false end in
  negb tooClear && negb tooLight.

(** [while (x < xLength)] with [n] columns left. *)
Fixpoint scanX (data : list Z) (opacityT lightT offset : Z) (n : nat)
    (x : Z) : bool :=
  match n with
  | O => false
  | S n' =>
      if isInk data opacityT lightT (offset + Int32.shl x 2) then true
      else scanX data opacityT lightT offset n' (x + 1)
  end.

(** [outer: while (y < yLength)] with [n] rows left: [true] when the scan
    reaches [break outer]. *)
Fixpoint scanY (data : list Z) (opacityT lightT outerOffset dataXLength
    xLength : Z) (n : nat) (y : Z) : bool :=
  match n with
  | O => false
  | S n' =>
      if scanX data opacityT lightT (outerOffset + y * dataXLength)
           (Z.to_nat xLength) 0
      then true
      else scanY data opacityT lightT outerOffset dataXLength xLength n'
             (y + 1)
  end.

(** [pixelsData[pixelY][xIndex] = f(pixelsData[pixelY][xIndex])]. The loop
    of [getPixelsFromImgData] only addresses cells of the grid that
    [generatePixels] has just created, and that grid stores them all (lemma
    [generatePixels_stored]); for any other index the grid is left as it
    is. *)
Definition updateWord (pixelsData : list (list Z)) (pixelY xIndex : Z)
    (f : Z -> Z) : list (list Z) :=
  match getZ pixelsData pixelY with
  | Some row =>
      match getZ row xIndex with
      | Some w => setZ pixelsData pixelY (setZ row xIndex (f w))
      | None => pixelsData
      end
  | None => pixelsData
  end.

(** The scan of the source pixels of cell [(pixelX, pixelY)]: whether the
    body of [while (pixelCount--)] reaches the assignment before
    [break outer]. *)
Definition cellInk (img : ImageData) (opacityT lightT pixelX pixelY : Z)
    : bool :=
  let w := img_width img in
  let h := img_height img in
  let dataXLength := Int32.shl w 2 in
  let pixelXLength := ceilDiv w (pixelRatio o) in
  let pixelYLength := ceilDiv h (pixelRatio o) in
  let edgeXLength :=
    if Z.rem w (pixelRatio o) =? 0 then pixelRatio o
    else Z.rem w (pixelRatio o) in
  let edgeYLength :=
    if Z.rem h (pixelRatio o) =? 0 then pixelRatio o
    else Z.rem h (pixelRatio o) in
  let outerOffset :=
    pixelY * pixelRatio o * dataXLength
    + Int32.shl (pixelX * pixelRatio o) 2 in
  let xLength :=
    if pixelX =? pixelXLength - 1 then edgeXLength else pixelRatio o in
  let yLength :=
    if pixelY =? pixelYLength - 1 then edgeYLength else pixelRatio o in
  scanY (img_data img) opacityT lightT outerOffset dataXLength xLength
    (Z.to_nat yLength) 0.

(** The assignment itself: the bit of the cell is cleared in a grid that
    starts full and set in a grid that starts empty. *)
Definition markCell (fill : Z) (pixelsData : list (list Z))
    (pixelX pixelY : Z) : list (list Z) :=
  let xIndex := Int32.sar0 (Z.quot pixelX 32) in
  let bit := Int32.shl 1 (- (pixelX + 1)) in
  if Int32.truthy fill
  then updateWord pixelsData pixelY xIndex
         (fun w => Int32.and w (Int32.not bit))
  else updateWord pixelsData pixelY xIndex (fun w => Int32.or w bit).

(** [while (pixelCount--)] of [getPixelsFromImgData]. *)
Fixpoint downsample (img : ImageData) (opacityT lightT fill : Z)
    (pixelCount : nat) (pixelX pixelY : Z) (pixelsData : list (list Z))
    : list (list Z) :=
  match pixelCount with
  | O => pixelsData
  | S pixelCount' =>
      let pixelXLength := ceilDiv (img_width img) (pixelRatio o) in
      let pixelsData1 :=
        if cellInk img opacityT lightT pixelX pixelY
        then markCell fill pixelsData pixelX pixelY
        else pixelsData in
      let pixelX1 := pixelX + 1 in
      if pixelX1 =? pixelXLength
      then downsample img opacityT lightT fill pixelCount' 0 (pixelY + 1)
             pixelsData1
      else downsample img opacityT lightT fill pixelCount' pixelX1 pixelY
             pixelsData1
  end.

(** [getPixelsFromImgData(imgData, opacityThreshold, lightThreshold, fill,
    forTag)]. An [ImageData] has no negative extent, so [pixelCount] is not
    negative and [while (pixelCount--)] runs [pixelCount] times. *)
Definition getPixelsFromImgData (img : ImageData) (opacityT lightT fill : Z)
    (forTag : bool) : Pixels :=
  let w := img_width img in
  let h := img_height img in
  let pixels := generatePixels w h fill forTag in
  let pixelXLength := ceilDiv w (pixelRatio o) in
  let pixelYLength := ceilDiv h (pixelRatio o) in
  let pixelCount := pixelXLength * pixelYLength in
  mkPixels w h
    (downsample img opacityT lightT fill (Z.to_nat pixelCount) 0 0
       (pixels_data pixels)).

(** [loadMaskImage($maskImage)]: [img] is what [getImageData] returns once
    the image is drawn on the canvas. *)
Definition loadMaskImage (img : ImageData) : Pixels :=
  getPixelsFromImgData img (opacityThreshold o) (lightThreshold o) (-1)
    false.

(** [initPixels()], once the mask image (if any) is loaded. *)
Definition initPixels (maskImage : option ImageData) : Pixels :=
  match maskImage with
  | Some img => loadMaskImage img
  | None => generatePixels (width o) (height o) 0 false
  end.

End Grid.

(** The ink predicate on the pixel in column [px] of row [py] of an image. *)
Definition inkPixel (img : ImageData) (opacityT lightT px py : Z) : bool :=
  isInk (img_data img) opacityT lightT (4 * (py * img_width img + px)).

(** A grid of the canvas in which no tag may pass the right edge: one row
    per cell row, and the cells of the last word beyond the canvas width
    occupied. *)
Definition canvasGrid (o : Options) (d : list (list Z)) : Prop :=
  length d = Z.to_nat (ceilDiv (height o) (pixelRatio o))
  /\ forall r c,
       ceilDiv (width o) (pixelRatio o) <= c -> stored d r c ->
       inkAt d r c = true.

(** ** The spiral search: [placeTag] *)

Section Search.

Variable o : Options.

(** [(step * whRate) >> 0], where [whRate = height / width] is a double:
    the quotient and the product are rounded before the truncation, so the
    value is left to this parameter. For a canvas with [0 < width] and
    [0 <= height] it is the truncation of [step * height / width], up to
    that rounding, and it is not negative. *)
Variable whScale : Z -> Z.

(** The outcome of a leg of the spiral: a position that [tryPlaceTag]
    accepted, or the coordinate at which the leg ended. *)
Inductive Leg :=
| Placed (x y : Z) (grid : Pixels)
| Moved (at_ : Z) (grid : Pixels).

(** [while (rest--)] of the horizontal leg, for [rest >= 0]. *)
Fixpoint legX (grid pixels : Pixels) (xDir y : Z) (rest : nat) (x : Z)
    : Leg :=
  match rest with
  | O => Moved x grid
  | S rest' =>
      let x1 := x + xDir * pixelRatio o in
      if (x1 <? - pixels_width pixels) || (width o <? x1)
      then legX grid pixels xDir y rest' x1
      else
        match tryPlaceTag o grid pixels x1 y with
        | (true, grid1) => Placed x1 y grid1
        | (false, grid1) => legX grid1 pixels xDir y rest' x1
        end
  end.

(** [while (rest--)] of the vertical leg, for [rest >= 0]. *)
Fixpoint legY (grid pixels : Pixels) (yDir x : Z) (rest : nat) (y : Z)
    : Leg :=
  match rest with
  | O => Moved y grid
  | S rest' =>
      let y1 := y + yDir * pixelRatio o in
      if (y1 <? - pixels_height pixels) || (height o <? y1)
      then legY grid pixels yDir x rest' y1
      else
        match tryPlaceTag o grid pixels x y1 with
        | (true, grid1) => Placed x y1 grid1
        | (false, grid1) => legY grid1 pixels yDir x rest' y1
        end
  end.

(** [while (step >> 1 < endLen)], one unit of [fuel] per ring. The result
    is [None] when the fuel runs out, and when [rest] is negative at a
    [while (rest--)], which then counts down without end. Both legs end
    [rest] steps further, whether they test the places or skip them. *)
Fixpoint spiral (fuel : nat) (grid pixels : Pixels) (endLen step x y xDir
    yDir : Z) : option (option (Z * Z) * Pixels) :=
  if Z.shiftr (Int32.toInt32 step) 1 <? endLen then
    match fuel with
    | O => None
    | S fuel' =>
        let rest := step in
        let afterX :=
          if (y <? - pixels_height pixels) || (height o <? y)
          then Some (Moved (x + xDir * pixelRatio o * rest) grid)
          else if rest <? 0 then None
          else Some (legX grid pixels xDir y (Z.to_nat rest) x) in
        match afterX with
        | None => None
        | Some (Placed px py grid1) => Some (Some (px, py), grid1)
        | Some (Moved x1 grid1) =>
            let xDir1 := - xDir in
            let rest := whScale step in
            let afterY :=
              if (x1 <? - pixels_width pixels) || (width o <? x1)
              then Some (Moved (y + yDir * pixelRatio o * rest) grid1)
              else if rest <? 0 then None
              else Some (legY grid1 pixels yDir x1 (Z.to_nat rest) y) in
            match afterY with
            | None => None
            | Some (Placed px py grid2) => Some (Some (px, py), grid2)
            | Some (Moved y1 grid2) =>
                spiral fuel' grid2 pixels endLen (step + 1) x1 y1 xDir1
                  (- yDir)
            end
        end
    end
  else Some (None, grid).

(** [Math.max(startX, width - startX, startY, height - startY)] of
    [placeTag]. *)
Definition searchExtent (pixels : Pixels) : Z :=
  let startX := Int32.sar0 (Z.quot (width o - pixels_width pixels) 2) in
  let startY := Int32.sar0 (Z.quot (height o - pixels_height pixels) 2) in
  Z.max (Z.max startX (width o - startX)) (Z.max startY (height o - startY)).

(** [endLen] of [placeTag]: the quotient of that by [pixelRatio], plus one,
    truncated. *)
Definition searchBound (pixels : Pixels) : Z :=
  Int32.sar0
    (Z.quot (searchExtent pixels + pixelRatio o) (pixelRatio o)).

(** [placeTag(pixels)]: [Some (x, y)] for [[x, y]], [None] for
    [[NaN, NaN]]. [xDir] and [yDir] are the two random signs. *)
Definition placeTag (fuel : nat) (xDir yDir : Z) (grid pixels : Pixels)
    : option (option (Z * Z) * Pixels) :=
  let startX := Int32.sar0 (Z.quot (width o - pixels_width pixels) 2) in
  let startY := Int32.sar0 (Z.quot (height o - pixels_height pixels) 2) in
  let endLen := searchBound pixels in
  match tryPlaceTag o grid pixels startX startY with
  | (true, grid1) => Some (Some (startX, startY), grid1)
  | (false, grid1) =>
      spiral fuel grid1 pixels endLen 1 startX startY xDir yDir
  end.

End Search.

(** What the search has found, in terms of the grid it started from: a
    position that [tryPlaceTag] accepts, with the grid that [tryPlaceTag]
    leaves, or nothing, with the grid untouched. *)
Definition searchResult (o : Options) (grid mask : Pixels)
    (r : option (Z * Z)) (grid' : Pixels) : Prop :=
  match r with
  | Some (x, y) => tryPlaceTag o grid mask x y = (true, grid')
  | None => grid' = grid
  end.

(** ** The order of the spiral *)

Section Probes.

Variable o : Options.
Variable whScale : Z -> Z.

(** The places at which a horizontal leg of [rest] steps from [x] calls
    [tryPlaceTag], in order, as long as none is accepted. *)
Fixpoint legXProbes (pixels : Pixels) (xDir y : Z) (rest : nat) (x : Z)
    : list (Z * Z) :=
  match rest with
  | O => []
  | S rest' =>
      let x1 := x + xDir * pixelRatio o in
      if (x1 <? - pixels_width pixels) || (width o <? x1)
      then legXProbes pixels xDir y rest' x1
      else (x1, y) :: legXProbes pixels xDir y rest' x1
  end.

Fixpoint legYProbes (pixels : Pixels) (yDir x : Z) (rest : nat) (y : Z)
    : list (Z * Z) :=
  match rest with
  | O => []
  | S rest' =>
      let y1 := y + yDir * pixelRatio o in
      if (y1 <? - pixels_height pixels) || (height o <? y1)
      then legYProbes pixels yDir x rest' y1
      else (x, y1) :: legYProbes pixels yDir x rest' y1
  end.

(** The places that the rings try from ring [step] on: a leg of [step]
    steps along x, then a leg of [whScale step] steps along y, each skipped
    when the other coordinate is off the canvas, then the next ring with
    both directions reversed. *)
Fixpoint spiralProbes (fuel : nat) (pixels : Pixels) (endLen step x y xDir
    yDir : Z) : list (Z * Z) :=
  if Z.shiftr (Int32.toInt32 step) 1 <? endLen then
    match fuel with
    | O => []
    | S fuel' =>
        let x1 := x + xDir * pixelRatio o * step in
        let y1 := y + yDir * pixelRatio o * whScale step in
        (if (y <? - pixels_height pixels) || (height o <? y) then []
         else legXProbes pixels xDir y (Z.to_nat step) x)
        ++ (if (x1 <? - pixels_width pixels) || (width o <? x1) then []
            else legYProbes pixels yDir x1 (Z.to_nat (whScale step)) y)
        ++ spiralProbes fuel' pixels endLen (step + 1) x1 y1 (- xDir) (- yDir)
    end
  else [].

(** The same places for [n] rings in a row, the first of them ring [step]
    from [(x, y)], with no test of [step] against [endLen]. *)
Fixpoint ringsProbes (n : nat) (pixels : Pixels) (step x y xDir yDir : Z)
    : list (Z * Z) :=
  match n with
  | O => []
  | S n' =>
      let x1 := x + xDir * pixelRatio o * step in
      let y1 := y + yDir * pixelRatio o * whScale step in
      (if (y <? - pixels_height pixels) || (height o <? y) then []
       else legXProbes pixels xDir y (Z.to_nat step) x)
      ++ (if (x1 <? - pixels_width pixels) || (width o <? x1) then []
          else legYProbes pixels yDir x1 (Z.to_nat (whScale step)) y)
      ++ ringsProbes n' pixels (step + 1) x1 y1 (- xDir) (- yDir)
  end.

(** The places that [placeTag] tries: the centre, then the rings. *)
Definition placeProbes (fuel : nat) (xDir yDir : Z) (pixels : Pixels)
    : list (Z * Z) :=
  let startX := Int32.sar0 (Z.quot (width o - pixels_width pixels) 2) in
  let startY := Int32.sar0 (Z.quot (height o - pixels_height pixels) 2) in
  (startX, startY)
  :: spiralProbes fuel pixels (searchBound o pixels) 1 startX startY xDir yDir.

(** The first place of a list that [tryPlaceTag] accepts, with the grid it
    leaves. *)
Fixpoint firstAccepted (grid pixels : Pixels) (places : list (Z * Z))
    : option (Z * Z) * Pixels :=
  match places with
  | [] => (None, grid)
  | (x, y) :: rest =>
      match tryPlaceTag o grid pixels x y with
      | (true, grid1) => (Some (x, y), grid1)
      | (false, _) => firstAccepted grid pixels rest
      end
  end.

End Probes.

(** ** The orchestrator: [handleTag], [performDraw], [draw], [clear] *)

Record Tag := mkTag {
  text : string;
  weight : Q;
  angle : option Q;
  color : option string
}.

(** [interface TagData]; [None] in [td_x] and [td_y] is [NaN]. *)
Record TagData := mkTagData {
  td_text : string;
  td_weight : Q;
  td_fontSize : Z;
  td_angle : Q;
  td_color : string;
  td_x : option Z;
  td_y : option Z;
  td_rendered : bool
}.

(** The argument of [getTagPixels]. *)
Record TagSpec := mkTagSpec {
  spec_text : string;
  spec_angle : Q;
  spec_fontSize : Z;
  spec_color : string;
  spec_padding : Q
}.

(** A number that may be [Infinity], for [minTagWeight]. *)
Inductive Bound :=
| Finite (q : Q)
| Infinity.

(** The fields of a [Tag2Cloud] that the layout reads and writes. *)
Record Cloud := mkCloud {
  pixels : Pixels;
  maxTagWeight : Q;
  minTagWeight : Bound
}.

(** What one call of [handleTag] takes from [Math.random()]:
    [(Math.random() * angleCount) >> 0], the colour string built from the
    second number, and the two signs of [placeTag]. *)
Record Draws := mkDraws {
  randomNum : Z;
  randomColor : string;
  xDirDraw : Z;
  yDirDraw : Z
}.

(** [Math.round]: halves go up. *)
Definition round (q : Q) : Z := Qfloor (q + (1 # 2)).

(** [Array.prototype.sort] with the comparator
    [(a, b) => b.weight - a.weight]: [a] may stay before [b] when the
    comparator is not positive. *)
Definition byWeight (a b : Tag) : Prop := (weight b <= weight a)%Q.

(** One step of the sort: [tag] goes behind the tags that are strictly
    heavier and before the first tag that is not, so it stays ahead of a
    tag of its own weight that came after it. *)
Fixpoint insertTag (tag : Tag) (sorted : list Tag) : list Tag :=
  match sorted with
  | [] => [tag]
  | t :: rest =>
      if Qlt_le_dec (weight tag) (weight t) then t :: insertTag tag rest
      else tag :: sorted
  end.

(** The sort itself. [Array.prototype.sort] is stable: tags of equal
    weight keep the order they had in the array, and with that the result
    is determined; it is computed here by insertion from the right. *)
Definition sortTags (tags : list Tag) : list Tag := foldr insertTag [] tags.

(** [q >> 0] for a finite double [q], which is a rational number: the
    fraction is dropped, towards zero, and the integer is taken to 32
    bits. *)
Definition truncate (q : Q) : Z :=
  Int32.sar0 (Z.quot (Qnum q) (Z.pos (Qden q))).

(** [pixelWidth] and [pixelHeight] of [getTagPixels], from the two sums
    [|h sin| + |w cos|] and [|h cos| + |w sin|] that the canvas measures for
    the rotated and padded text ([textBox]). *)
Definition truncBox (textBox : TagSpec -> Q * Q) (s : TagSpec) : Z * Z :=
  (truncate (fst (textBox s)), truncate (snd (textBox s))).

Section Orchestrator.

Variable o : Options.
Variable whScale : Z -> Z.

(** The canvas, as [getTagPixels] uses it: [measureBox] is
    [(pixelWidth, pixelHeight)], the extent of the rotated and padded text
    after [>> 0] ([truncBox] of what the canvas measures), and [rasterize]
    is the [ImageData] read back after the text is drawn in a box of that
    extent. *)
Variable measureBox : TagSpec -> Z * Z.
Variable rasterize : TagSpec -> Z -> Z -> ImageData.

(** The image of [options.maskImage] on the canvas, when there is one. *)
Variable maskImage : option ImageData.

(** [getTagPixels(...)]: [Some None] is [null]. The result is [None] when
    the call does not return: [getImageData] throws when the width or the
    height it is given is 0, and nothing in the class catches that. *)
Definition getTagPixels (s : TagSpec) : option (option Pixels) :=
  let '(pixelWidth, pixelHeight) := measureBox s in
  if (height o <? pixelHeight) || (width o <? pixelWidth) then Some None
  else if (pixelWidth =? 0) || (pixelHeight =? 0) then None
  else
    Some (Some (getPixelsFromImgData o (rasterize s pixelWidth pixelHeight) 2
                  (255 * 3) 0 true)).

(** The font size that [handleTag] computes, in exact arithmetic: the
    source rounds the quotient, the product and the sum to doubles before
    [Math.round], which can move a value across a half. *)
Definition fontSizeOf (minW : Bound) (maxW w : Q) : Z :=
  match minW with
  | Finite minTagWeight =>
      let diffWeight := (maxW - minTagWeight)%Q in
      if Qlt_le_dec 0 diffWeight
      then round (minFontSize o
                  + (maxFontSize o - minFontSize o)
                    * ((w - minTagWeight) / diffWeight))%Q
      else round ((maxFontSize o + minFontSize o) / 2)%Q
  | Infinity => round ((maxFontSize o + minFontSize o) / 2)%Q
  end.

(** [angle] and [color] of [handleTag]: the ones of the tag, or random
    ones. The angle is in exact arithmetic too. *)
Definition tagAngle (rnd : Draws) (tag : Tag) : Q :=
  match angle tag with
  | None =>
      if angleCount o =? 1 then angleFrom o
      else (angleFrom o
            + (inject_Z (randomNum rnd) / inject_Z (angleCount o - 1))
              * (angleTo o - angleFrom o))%Q
  | Some a => a
  end.

Definition tagColor (rnd : Draws) (tag : Tag) : string :=
  match color tag with
  | None => randomColor rnd
  | Some s => s
  end.

(** What [handleTag] passes to [getTagPixels]. *)
Definition tagSpec (rnd : Draws) (c : Cloud) (tag : Tag) : TagSpec :=
  mkTagSpec (text tag) (tagAngle rnd tag)
    (fontSizeOf (minTagWeight c) (maxTagWeight c) (weight tag))
    (tagColor rnd tag) (padding o).

(** [handleTag(tag)]: the result and the cloud after the call; [None] when
    the call does not return, because [getTagPixels] throws or the search
    does not finish. *)
Definition handleTag (fuel : nat) (rnd : Draws) (c : Cloud) (tag : Tag)
    : option (TagData * Cloud) :=
  let fontSize := fontSizeOf (minTagWeight c) (maxTagWeight c) (weight tag) in
  let result x y rendered :=
    mkTagData (text tag) (weight tag) fontSize (tagAngle rnd tag)
      (tagColor rnd tag) x y rendered in
  match getTagPixels (tagSpec rnd c tag) with
  | None => None
  | Some None => Some (result None None false, c)
  | Some (Some mask) =>
      match placeTag o whScale fuel (xDirDraw rnd) (yDirDraw rnd) (pixels c)
              mask with
      | None => None
      | Some (Some (x, y), grid1) =>
          Some (result
                  (Some (Int32.sar0 (Z.quot (2 * x + pixels_width mask) 2)))
                  (Some (Int32.sar0 (Z.quot (2 * y + pixels_height mask) 2)))
                  true,
                mkCloud grid1 (maxTagWeight c) (minTagWeight c))
      | Some (None, grid1) =>
          Some (result None None false,
                mkCloud grid1 (maxTagWeight c) (minTagWeight c))
      end
  end.

(** The loop of [performDraw] from index [i] on: an exception in
    [handleTag] ends it, and the batch with it. The deadline, the yields to
    the host and [layout] only concern the display and are left out. *)
Fixpoint handleTags (fuel : nat) (rnd : nat -> Draws) (i : nat) (c : Cloud)
    (sorted : list Tag) : option (list TagData * Cloud) :=
  match sorted with
  | [] => Some ([], c)
  | tag :: rest =>
      match handleTag fuel (rnd i) c tag with
      | None => None
      | Some (tagData, c1) =>
          match handleTags fuel rnd (S i) c1 rest with
          | None => None
          | Some (result, c2) => Some (tagData :: result, c2)
          end
      end
  end.

(** [performDraw(tags)]. [heap] holds the arrays of the caller and [tags]
    is a reference to one of them: the array is sorted in place, and
    [sortTags] of the source is that same array. *)
Definition performDraw (fuel : nat) (rnd : nat -> Draws) (c : Cloud)
    (heap : gmap positive (list Tag)) (tags : positive)
    : option (list TagData * Cloud * gmap positive (list Tag)) :=
  match heap !! tags with
  | None => None
  | Some contents =>
      let heap1 := <[tags := sortTags contents]> heap in
      match heap1 !! tags with
      | None => None
      | Some sorted =>
          match handleTags fuel rnd 0 c sorted with
          | None => None
          | Some (result, c1) => Some (result, c1, heap1)
          end
      end
  end.

(** The loop of [draw] over the weights of the batch. *)
Definition observe (c : Cloud) (w : Q) : Cloud :=
  let c1 :=
    if Qlt_le_dec (maxTagWeight c) w
    then mkCloud (pixels c) w (minTagWeight c)
    else c in
  match minTagWeight c1 with
  | Finite m =>
      if Qlt_le_dec w m
      then mkCloud (pixels c1) (maxTagWeight c1) (Finite w)
      else c1
  | Infinity => mkCloud (pixels c1) (maxTagWeight c1) (Finite w)
  end.

Definition observeAll (c : Cloud) (tags : list Tag) : Cloud :=
  fold_left (fun c tag => observe c (weight tag)) tags c.

(** [draw(tags)], for a call that no other call interleaves with. *)
Definition draw (fuel : nat) (rnd : nat -> Draws) (c : Cloud)
    (heap : gmap positive (list Tag)) (tags : positive)
    : option (list TagData * Cloud * gmap positive (list Tag)) :=
  match heap !! tags with
  | None => None
  | Some contents =>
      if (length contents =? 0)%nat then Some ([], c, heap)
      else performDraw fuel rnd (observeAll c contents) heap tags
  end.

(** [clear()]. *)
Definition clear (c : Cloud) : Cloud :=
  mkCloud (initPixels o maskImage) (maxTagWeight c) (minTagWeight c).

(** A [Tag2Cloud] as the constructor leaves it. *)
Definition newCloud : Cloud :=
  mkCloud (initPixels o maskImage) 0 Infinity.

End Orchestrator.

(** A result that belongs to a tag. *)
Definition resultOf (tag : Tag) (td : TagData) : Prop :=
  td_text td = text tag /\ td_weight td = weight tag.


(** A call of the public interface: [draw] on a fresh array that holds
    [contents], or [clear]. *)
Inductive Call :=
| CallDraw (contents : list Tag)
| CallClear.

(** The weights that a sequence of calls submits, in order. *)
Definition submitted (calls : list Call) : list Q :=
  flat_map (fun call =>
              match call with
              | CallDraw contents => map weight contents
              | CallClear => []
              end) calls.

Section Session.

Variables (o : Options) (whScale : Z -> Z).
Variables (measureBox : TagSpec -> Z * Z).
Variables (rasterize : TagSpec -> Z -> Z -> ImageData).
Variable maskImage : option ImageData.

(** The cloud after a sequence of calls, each run to its end. *)
Fixpoint session (fuel : nat) (rnd : nat -> Draws) (c : Cloud)
    (calls : list Call) : option Cloud :=
  match calls with
  | [] => Some c
  | CallDraw contents :: rest =>
      match draw o whScale measureBox rasterize fuel rnd c
              {[ 1%positive := contents ]} 1%positive with
      | Some (_, c1, _) => session fuel rnd c1 rest
      | None => None
      end
  | CallClear :: rest => session fuel rnd (clear o maskImage c) rest
  end.

End Session.

(** [b <= w] for a bound that may be [Infinity]. *)
Definition boundLe (b : Bound) (w : Q) : Prop :=
  match b with
  | Finite m => (m <= w)%Q
  | Infinity => False
  end.

(** The range of a cloud that has seen the weights [ws] since it was
    created. *)
Definition rangeOf (ws : list Q) (c : Cloud) : Prop :=
  (0 <= maxTagWeight c)%Q
  /\ (forall w, In w ws -> (w <= maxTagWeight c)%Q)
  /\ (maxTagWeight c = 0%Q \/ In (maxTagWeight c) ws)
  /\ match minTagWeight c with
     | Finite m => In m ws /\ forall w, In w ws -> (m <= w)%Q
     | Infinity => ws = []
     end.

(** ** Cells, grids and places: notions for the statements *)

(** Cell [c] of a row, when the row stores its word, and cell [(r, c)] of a
    grid, when the grid stores it. *)
Definition rowBit (row : list Z) (c : Z) : option bool :=
  (fun w => Z.testbit w (31 - c mod 32)) <$> getZ row (c / 32).

Definition cellAt (d : list (list Z)) (r c : Z) : option bool :=
  match getZ d r with
  | Some row => rowBit row c
  | None => None
  end.

(** A grid that comes after another: no cell freed, no word added or
    removed, same extent, and the right edge still closed if it was. *)
Definition gridAfter (o : Options) (g g' : Pixels) : Prop :=
  gridLe (pixels_data g) (pixels_data g')
  /\ pixels_width g' = pixels_width g
  /\ pixels_height g' = pixels_height g
  /\ (canvasGrid o (pixels_data g) -> canvasGrid o (pixels_data g')).

(** A place that the rings of the search may try from [(x0, y0)]: the tag
    touches the canvas or lies on it, and the place is a whole number of
    cells away from [(x0, y0)]. *)
Definition ringPlace (o : Options) (pixels : Pixels) (x0 y0 : Z)
    (p : Z * Z) : Prop :=
  (- pixels_width pixels <= fst p <= width o)
  /\ (- pixels_height pixels <= snd p <= height o)
  /\ (exists k, fst p = x0 + k * pixelRatio o)
  /\ (exists k, snd p = y0 + k * pixelRatio o).

(** The ink of a mask placed at [(x, y)] lies on cells of the canvas. *)
Definition inkInside (o : Options) (mask : Pixels) (x y : Z) : Prop :=
  forall i c,
    inkAt (pixels_data mask) i c = true ->
    0 <= y / pixelRatio o + i < ceilDiv (height o) (pixelRatio o)
    /\ 0 <= x / pixelRatio o + c < ceilDiv (width o) (pixelRatio o).

(** A result shows [mask] on the canvas: between the grids [before] and
    [after], [tryPlaceTag] accepted the mask at a place whose centre is the
    [x] and [y] of the result, and the ink of the mask at that place lies
    on cells of the canvas. *)
Definition shownInside (o : Options) (before after mask : Pixels)
    (td : TagData) : Prop :=
  exists x y g g',
    gridAfter o before g
    /\ tryPlaceTag o g mask x y = (true, g')
    /\ gridAfter o g' after
    /\ td_x td = Some (Int32.sar0 (Z.quot (2 * x + pixels_width mask) 2))
    /\ td_y td = Some (Int32.sar0 (Z.quot (2 * y + pixels_height mask) 2))
    /\ inkInside o mask x y.

(** [tryPlaceTag] refuses a place. *)
Definition refused (o : Options) (grid mask : Pixels) (p : Z * Z) : Prop :=
  fst (tryPlaceTag o grid mask (fst p) (snd p)) = false.

(** ** The rest of the class: [shape], the display, the listeners, the
    constructor and the debugging helpers *)

(** [shape(cb)]: [img] is what [getImageData(0, 0, width, width)] returns
    once the callback has drawn on the cleared canvas. The source passes
    [width] for both extents, so the image is as high as the canvas is
    wide. *)
Definition shape (o : Options) (img : ImageData) : Pixels :=
  getPixelsFromImgData o img 2 (255 * 3) (-1) false.

(** An [ImageData] of the canvas: four bytes for each of its pixels. *)
Definition wellFormed (img : ImageData) : Prop :=
  length (img_data img) = Z.to_nat (4 * img_width img * img_height img)
  /\ Forall (fun b => 0 <= b <= 255) (img_data img).

(** The alpha byte of the pixel in column [px] of row [py]. *)
Definition alphaAt (img : ImageData) (px py : Z) : option Z :=
  getZ (img_data img) (4 * (py * img_width img + px) + 3).

(** ** The display: [layout], [layoutByCanvas], [layoutByDom] *)

(** What the page shows. A span of [$wrapper] and a text painted on the
    display canvas are both made from one result and [options.family], so
    each is recorded as the result it shows, in the order of appending or
    painting. *)
Record Display := mkDisplay {
  wrapper : list TagData;
  painted : list TagData
}.

(** The loop of [layoutByCanvas] and of [layoutByDom]: a result that is not
    rendered is skipped ([continue]). *)
Fixpoint shownOf (data : list TagData) : list TagData :=
  match data with
  | [] => []
  | current :: rest =>
      if negb (td_rendered current) then shownOf rest
      else current :: shownOf rest
  end.

Definition layoutByCanvas (d : Display) (data : list TagData) : Display :=
  mkDisplay (wrapper d) (painted d ++ shownOf data).

Definition layoutByDom (d : Display) (data : list TagData) : Display :=
  mkDisplay (wrapper d ++ shownOf data) (painted d).

(** [layout(data)]; [canvas] is [options.canvas]. *)
Definition layout (canvas : bool) (d : Display) (data : list TagData)
    : Display :=
  if canvas then layoutByCanvas d data else layoutByDom d data.

(** [TIMEOUT_MS] *)
Definition TIMEOUT_MS : Q := 100.

Section Timed.

Variables (o : Options) (whScale : Z -> Z).
Variables (measureBox : TagSpec -> Z * Z).
Variables (rasterize : TagSpec -> Z -> Z -> ImageData).

(** The loop of [performDraw] with its deadline and its display, from index
    [i] on: [clock i] is what [performance.now()] returns after tag [i] is
    handled. When the deadline has passed, the results gathered since the
    last layout are laid out and the loop yields to the host; no other call
    of the cloud runs in between. *)
Fixpoint performDrawLoop (fuel : nat) (rnd : nat -> Draws) (clock : nat -> Q)
    (canvas : bool) (i : nat) (c : Cloud) (expired : Q)
    (result partial : list TagData) (d : Display) (sorted : list Tag)
    : option (list TagData * Cloud * Display) :=
  match sorted with
  | [] => Some (result, c, layout canvas d partial)
  | tag :: rest =>
      match handleTag o whScale measureBox rasterize fuel (rnd i) c tag with
      | None => None
      | Some (tagData, c1) =>
          let now := clock i in
          let result1 := result ++ [tagData] in
          let partial1 := partial ++ [tagData] in
          if Qlt_le_dec expired now
          then performDrawLoop fuel rnd clock canvas (S i) c1
                 (now + TIMEOUT_MS)%Q result1 [] (layout canvas d partial1) rest
          else performDrawLoop fuel rnd clock canvas (S i) c1 expired result1
                 partial1 d rest
      end
  end.

(** [performDraw] on the sorted array, started when the clock shows
    [start]. *)
Definition performDrawTimed (fuel : nat) (rnd : nat -> Draws) (start : Q)
    (clock : nat -> Q) (canvas : bool) (c : Cloud) (d : Display)
    (sorted : list Tag) : option (list TagData * Cloud * Display) :=
  performDrawLoop fuel rnd clock canvas 0 c (start + TIMEOUT_MS)%Q [] [] d
    sorted.

End Timed.

(** ** Click listeners: [onClick], [offClick], [click] *)

Section Listeners.

(** [L] names the function objects: two listeners are the same when they
    are the same object. *)
Context {L : Type} `{EqDecision L}.

(** An argument of [onClick]: a function, or anything else. *)
Inductive Listener :=
| Fn (f : L)
| NotFn.

(** [listeners.indexOf(listener)]: [None] is -1. *)
Fixpoint indexOf (listeners : list L) (listener : L) : option nat :=
  match listeners with
  | [] => None
  | f :: rest =>
      if decide (f = listener) then Some 0%nat
      else S <$> indexOf rest listener
  end.

(** [offClick(listener)] *)
Definition offClick (listeners : list L) (listener : L) : list L :=
  match indexOf listeners listener with
  | Some index => delete index listeners
  | None => listeners
  end.

(** [onClick(listener)]: the listeners after the call, and the function
    that the call returns, as the listener it removes when there is one. *)
Definition onClick (listeners : list L) (listener : Listener)
    : list L * option L :=
  match listener with
  | Fn f => (listeners ++ [f], Some f)
  | NotFn => (listeners, None)
  end.

(** A call of the function that [onClick] returned. *)
Definition unsubscribe (listeners : list L) (returned : option L) : list L :=
  match returned with
  | Some f => offClick listeners f
  | None => listeners
  end.

(** [click(tagData)]: the calls it makes, in order, when no listener
    changes the list. *)
Definition click {T} (listeners : list L) (tagData : T) : list (L * T) :=
  map (fun fn => (fn, tagData)) listeners.

End Listeners.

(** ** The constructor and the debugging helpers *)

(** [Math.round(Math.max(pixelRatio, 1))] of the constructor, for an option
    that is a number. *)
Definition normalizeRatio (ratio : Q) : Z :=
  round (if Qlt_le_dec ratio 1 then 1 else ratio).

(** [ZERO_STR] *)
Definition ZERO_STR : string := "00000000000000000000000000000000".

(** [n.toString(2)] for a whole number [n]: the binary digits, most
    significant first, after a minus sign when [n] is negative. *)
Fixpoint posDigits (p : positive) : string :=
  match p with
  | xH => "1"
  | xO p' => posDigits p' ++ "0"
  | xI p' => posDigits p' ++ "1"
  end.

Definition toString2 (n : Z) : string :=
  match n with
  | Z0 => "0"
  | Zpos p => posDigits p
  | Zneg p => "-" ++ posDigits p
  end.

(** [s.slice(0, e)]: a negative [e] counts from the end of [s]. *)
Definition slice0 (s : string) (e : Z) : string :=
  let len := Z.of_nat (String.length s) in
  let e' := if e <? 0 then Z.max (len + e) 0 else Z.min e len in
  substring 0 (Z.to_nat e') s.

(** [binaryStrIfy(num)] for a whole number [num]. *)
Definition binaryStrIfy (num : Z) : string :=
  if 0 <=? num then
    let numStr := toString2 num in
    slice0 ZERO_STR (32 - Z.of_nat (String.length numStr)) ++ numStr
  else toString2 (2 ^ 32 + num).

(** [pixels.data[i].map(this.binaryStrIfy).join("")] *)
Definition printRow (row : list Z) : string :=
  String.concat "" (map binaryStrIfy row).

(** The lines that [printPixels] writes to the console from row [i] on: the
    words of the row, an underscore and the number of the row. *)
Fixpoint printLines (i : nat) (data : list (list Z)) : list string :=
  match data with
  | [] => []
  | row :: rest =>
      (printRow row ++ "_" ++ NilZero.string_of_uint (Nat.to_uint i))%string
      :: printLines (S i) rest
  end.

(** [printPixels(pixels)]: [None] is [null]. *)
Definition printPixels (pixels : option Pixels) : list string :=
  match pixels with
  | Some p => printLines 0 (pixels_data p)
  | None => []
  end.

(** The words of a grid are 32-bit integers. *)
Definition int32Grid (d : list (list Z)) : Prop :=
  Forall (Forall (fun w => - 2 ^ 31 <= w < 2 ^ 31)) d.

(** The character of a bit. *)
Definition digit (b : bool) : ascii := if b then "1"%char else "0"%char.

(** ** Examples *)

(** A canvas of 128 by 8 pixels with cells of 4 pixels: one word per row,
    two rows. *)
Definition exOptions (cutv : bool) : Options :=
  mkOptions 128 8 4 382 255 10 100 (-60) 60 3 "sans-serif" cutv 5.

Definition exGrid (cutv : bool) : Pixels :=
  generatePixels (exOptions cutv) 128 8 0 false.

(** A mask of one row whose 32 cells are all ink. *)
Definition exMask : Pixels := mkPixels 128 4 [[-1]].

(** A mask without ink. *)
Definition exBlank : Pixels := mkPixels 128 4 [[0]].

(** A mask image of four pixels in a row: black, white, transparent, black;
    one cell per pixel. *)
Definition exImage : ImageData :=
  mkImageData
    [0; 0; 0; 255;  255; 255; 255; 255;  0; 0; 0; 0;  0; 0; 0; 255] 4 1.

Definition exImageOptions : Options :=
  mkOptions 4 1 1 382 255 10 100 (-60) 60 3 "sans-serif" false 5.

(** [(step * whRate) >> 0] on the canvas of [exOptions]. *)
Definition exScale (step : Z) : Z := step * 8 / 128.

(** A canvas on which a text of [n] characters measures [16 n] by 4 pixels
    and is all ink. *)
Definition exMeasure (s : TagSpec) : Z * Z :=
  (16 * Z.of_nat (String.length (spec_text s)), 4).

Definition exRaster (s : TagSpec) (pw ph : Z) : ImageData :=
  mkImageData (concat (replicate (Z.to_nat (pw * ph)) [0; 0; 0; 255])) pw ph.

Definition exDraws (i : nat) : Draws := mkDraws 0 "#123456" 1 1.

Definition exCloud : Cloud := newCloud (exOptions false) None.

Definition exTags : list Tag :=
  [ mkTag "ab" 1 None None;
    mkTag "cd" 3 (Some 0%Q) (Some "red");
    mkTag "0123456789" 2 None None ].

Definition exDraw (c : Cloud) (contents : list Tag) :=
  draw (exOptions false) exScale exMeasure exRaster 66 exDraws c
    {[ 1%positive := contents ]} 1%positive.

(** A canvas of 8 by 6 pixels, two cells by two, with [whRate = 0.75]; a
    mask of one pixel, all ink; a grid in which only the cell to the right
    of the first one is free, and one in which only the last cell is. *)
Definition exSmall : Options :=
  mkOptions 8 6 4 382 255 10 100 (-60) 60 3 "sans-serif" false 0.

Definition exSmallScale (step : Z) : Z := step * 6 / 8.

Definition exDot : Pixels := mkPixels 1 1 [[-2147483648]].

Definition exSecondFree : Pixels := mkPixels 8 6 [[-1073741825]; [-1]].

Definition exLastFree : Pixels := mkPixels 8 6 [[-1]; [-1073741825]].

(** A canvas that measures the same box for every text, 128.9 pixels by 4,
    and one on which a text of [n] characters that is not rotated measures
    [16 n] by 4 pixels, to which the padding is added each way. *)
Definition exWideBox (s : TagSpec) : Q * Q := (1289 # 10, 4)%Q.

Definition exTextBox (s : TagSpec) : Q * Q :=
  (inject_Z (16 * Z.of_nat (String.length (spec_text s))) + spec_padding s,
   4 + spec_padding s)%Q.

(** The canvas of [exOptions] without padding. *)
Definition exBare : Options :=
  mkOptions 128 8 4 382 255 10 100 (-60) 60 3 "sans-serif" false 0.


(** A session: a batch, a [clear], and a batch of negative weights. *)
Definition exCalls : list Call :=
  [ CallDraw exTags; CallClear; CallDraw [mkTag "ef" (-2) None None] ].

(** A batch of two tags of weight -1. *)
Definition exNegative : list Tag :=
  [ mkTag "a" (-1) None None; mkTag "b" (-1) None None ].

(** * Properties *)

(** ** Bits of the 32-bit operators *)

Module Int32Facts.
Import Int32.

Lemma shiftCount_range n : 0 <= shiftCount n < 32.
Proof. unfold shiftCount. apply Z.mod_pos_bound. lia. Qed.

Lemma toInt32_mod z : toInt32 z mod 2 ^ 32 = z mod 2 ^ 32.
Proof.
  unfold toInt32.
  rewrite (Z.mod_eq (z + 2 ^ 31) (2 ^ 32)) by lia.
  replace (z + 2 ^ 31 - 2 ^ 32 * ((z + 2 ^ 31) / 2 ^ 32) - 2 ^ 31)
    with (z + - ((z + 2 ^ 31) / 2 ^ 32) * 2 ^ 32) by lia.
  apply Z.mod_add. lia.
Qed.

Lemma toInt32_range z : - 2 ^ 31 <= toInt32 z < 2 ^ 31.
Proof.
  unfold toInt32.
  pose proof (Z.mod_pos_bound (z + 2 ^ 31) (2 ^ 32)). lia.
Qed.

Lemma toInt32_small z : - 2 ^ 31 <= z < 2 ^ 31 -> toInt32 z = z.
Proof.
  intros Hz. unfold toInt32. rewrite Z.mod_small; lia.
Qed.

Lemma testbit_toInt32 z k :
  0 <= k < 32 -> Z.testbit (toInt32 z) k = Z.testbit z k.
Proof.
  intros Hk.
  rewrite <- (Z.mod_pow2_bits_low (toInt32 z) 32 k) by lia.
  rewrite toInt32_mod. apply Z.mod_pow2_bits_low. lia.
Qed.

Lemma testbit_toUint32 z k :
  0 <= k -> Z.testbit (toUint32 z) k = (k <? 32) && Z.testbit z k.
Proof.
  intros Hk. unfold toUint32.
  destruct (Z.ltb_spec k 32).
  - rewrite Z.mod_pow2_bits_low by lia. reflexivity.
  - rewrite Z.mod_pow2_bits_high by lia. reflexivity.
Qed.

Lemma testbit_and a b k :
  0 <= k < 32 ->
  Z.testbit (and a b) k = Z.testbit a k && Z.testbit b k.
Proof.
  intros Hk. unfold and.
  rewrite Z.land_spec, !testbit_toInt32 by lia. reflexivity.
Qed.

Lemma testbit_or a b k :
  0 <= k < 32 ->
  Z.testbit (or a b) k = Z.testbit a k || Z.testbit b k.
Proof.
  intros Hk. unfold or.
  rewrite Z.lor_spec, !testbit_toInt32 by lia. reflexivity.
Qed.

Lemma testbit_not a k :
  0 <= k < 32 -> Z.testbit (not a) k = negb (Z.testbit a k).
Proof.
  intros Hk. unfold not.
  rewrite Z.lnot_spec, testbit_toInt32 by lia. reflexivity.
Qed.

Lemma testbit_shl a n k :
  0 <= k < 32 ->
  Z.testbit (shl a n) k
  = (shiftCount n <=? k) && Z.testbit a (k - shiftCount n).
Proof.
  intros Hk. unfold shl.
  pose proof (shiftCount_range n) as Hn.
  rewrite testbit_toInt32, Z.shiftl_spec by lia.
  destruct (Z.leb_spec (shiftCount n) k).
  - rewrite testbit_toInt32 by lia. reflexivity.
  - apply Z.testbit_neg_r. lia.
Qed.

Lemma testbit_shru a n k :
  0 <= k ->
  Z.testbit (shru a n) k
  = (k + shiftCount n <? 32) && Z.testbit a (k + shiftCount n).
Proof.
  intros Hk. unfold shru.
  pose proof (shiftCount_range n) as Hn.
  rewrite Z.shiftr_spec, testbit_toUint32 by lia. reflexivity.
Qed.

(** Two words with a common bit meet. *)
Lemma and_truthy a b k :
  0 <= k < 32 -> Z.testbit a k = true -> Z.testbit b k = true ->
  truthy (and a b) = true.
Proof.
  intros Hk Ha Hb. unfold truthy.
  destruct (Z.eqb_spec (and a b) 0) as [H0 | ]; [| reflexivity].
  pose proof (testbit_and a b k Hk) as Hand.
  rewrite H0, Z.bits_0, Ha, Hb in Hand. discriminate.
Qed.

(** Two words that do not meet have no common bit. *)
Lemma and_falsy a b k :
  0 <= k < 32 -> truthy (and a b) = false ->
  Z.testbit a k = true -> Z.testbit b k = false.
Proof.
  intros Hk Hf Ha. unfold truthy in Hf.
  destruct (Z.eqb_spec (and a b) 0) as [H0 | ]; [| discriminate].
  pose proof (testbit_and a b k Hk) as Hand.
  rewrite H0, Z.bits_0, Ha in Hand. simpl in Hand. congruence.
Qed.

Lemma shiftCount_rem p : shiftCount (Z.rem p 32) = p mod 32.
Proof.
  unfold shiftCount.
  rewrite (Z.rem_eq p 32) by lia.
  rewrite Z.mul_comm, <- Z.add_opp_r, <- Z.mul_opp_l, Z.mod_add by lia.
  reflexivity.
Qed.

Lemma rem_truthy p : truthy (Z.rem p 32) = negb (p mod 32 =? 0).
Proof.
  unfold truthy. f_equal.
  pose proof (shiftCount_rem p) as H. unfold shiftCount in H.
  pose proof (Z.rem_bound_abs p 32 ltac:(lia)) as Hb.
  pose proof (Z.mod_pos_bound p 32 ltac:(lia)) as Hm.
  destruct (Z.eqb_spec (Z.rem p 32) 0) as [E | E];
    destruct (Z.eqb_spec (p mod 32) 0) as [E' | E']; try reflexivity.
  - rewrite E in H. rewrite Z.mod_0_l in H by lia. lia.
  - exfalso. apply E.
    assert (Hr : Z.rem p 32 mod 32 = 0) by lia.
    apply Z.mod_divide in Hr; [| lia].
    destruct Hr as [q Hq]. lia.
Qed.

Lemma shiftCount_back p :
  p mod 32 <> 0 -> shiftCount (32 - Z.rem p 32) = 32 - p mod 32.
Proof.
  intros Hne. unfold shiftCount.
  pose proof (Z.mod_pos_bound p 32 ltac:(lia)) as Hm.
  rewrite <- Zminus_mod_idemp_r.
  pose proof (shiftCount_rem p) as H. unfold shiftCount in H. rewrite H.
  rewrite <- (Z.mod_small (32 - p mod 32) 32) at 2 by lia.
  reflexivity.
Qed.

End Int32Facts.

(** ** Reading and writing arrays *)

Section Arrays.

Context {A : Type}.
Implicit Types (l : list A) (i j : Z) (v : A).

Lemma getZ_neg l i : i < 0 -> getZ l i = None.
Proof. intros H. unfold getZ. destruct (Z.ltb_spec i 0); [reflexivity | lia]. Qed.

Lemma getZ_nat l (n : nat) : getZ l (Z.of_nat n) = l !! n.
Proof.
  unfold getZ. destruct (Z.ltb_spec (Z.of_nat n) 0); [lia |].
  rewrite Nat2Z.id. reflexivity.
Qed.

Lemma getZ_Some l i v :
  getZ l i = Some v -> 0 <= i /\ l !! Z.to_nat i = Some v.
Proof.
  unfold getZ. destruct (Z.ltb_spec i 0); [discriminate |]. auto.
Qed.

Lemma getZ_setZ_eq l i v :
  is_Some (getZ l i) -> getZ (setZ l i v) i = Some v.
Proof.
  unfold getZ, setZ. destruct (Z.ltb_spec i 0).
  - intros [x Hx]. discriminate.
  - intros Hs. apply list_lookup_insert_eq, lookup_lt_is_Some, Hs.
Qed.

Lemma getZ_setZ_ne l i j v : i <> j -> getZ (setZ l i v) j = getZ l j.
Proof.
  intros Hne. unfold getZ, setZ.
  destruct (Z.ltb_spec j 0); [reflexivity |].
  destruct (Z.ltb_spec i 0); [reflexivity |].
  apply list_lookup_insert_ne. lia.
Qed.

Lemma getZ_setZ_is_Some l i j v :
  is_Some (getZ (setZ l i v) j) <-> is_Some (getZ l j).
Proof.
  unfold getZ, setZ.
  destruct (Z.ltb_spec j 0); [reflexivity |].
  destruct (Z.ltb_spec i 0); [reflexivity |].
  rewrite !lookup_lt_is_Some, length_insert. reflexivity.
Qed.

End Arrays.

Lemma leBits_refl v : leBits v v.
Proof. intros k _ H. exact H. Qed.

Lemma leBits_or_l v x : leBits v (Int32.or v x).
Proof.
  intros k Hk H. rewrite Int32Facts.testbit_or, H by lia. reflexivity.
Qed.

Lemma optLe_refl a : optLe a a.
Proof. destruct a; simpl; [apply leBits_refl | exact I]. Qed.

Lemma optLe_trans a b c : optLe a b -> optLe b c -> optLe a c.
Proof.
  destruct a, b, c; simpl; try tauto.
  intros H1 H2 k Hk H. apply H2, H1; assumption.
Qed.

Lemma rowLe_refl l : rowLe l l.
Proof. intros i. apply optLe_refl. Qed.

Lemma rowLe_trans l1 l2 l3 : rowLe l1 l2 -> rowLe l2 l3 -> rowLe l1 l3.
Proof. intros H1 H2 i. eapply optLe_trans; [apply H1 | apply H2]. Qed.

Lemma gridLe_refl d : gridLe d d.
Proof. intros r w. apply optLe_refl. Qed.

Lemma gridLe_trans d1 d2 d3 : gridLe d1 d2 -> gridLe d2 d3 -> gridLe d1 d3.
Proof. intros H1 H2 r w. eapply optLe_trans; [apply H1 | apply H2]. Qed.

Lemma rowLe_setZ l i w v :
  getZ l i = Some w -> leBits w v -> rowLe l (setZ l i v).
Proof.
  intros Hg Hle j. destruct (Z.eq_dec i j) as [<- | Hne].
  - rewrite getZ_setZ_eq, Hg by (rewrite Hg; eauto). exact Hle.
  - rewrite getZ_setZ_ne by assumption. apply optLe_refl.
Qed.

Lemma gridLe_setZ d r row row' :
  getZ d r = Some row -> rowLe row row' -> gridLe d (setZ d r row').
Proof.
  intros Hg Hle r' w. unfold wordAt.
  destruct (Z.eq_dec r r') as [<- | Hne].
  - rewrite getZ_setZ_eq, Hg by (rewrite Hg; eauto). apply Hle.
  - rewrite getZ_setZ_ne by assumption. apply optLe_refl.
Qed.

(** ** The second pass only adds bits *)

Lemma mergeWord_le offset xx yData j target :
  rowLe yData (mergeWord offset xx yData j target).
Proof.
  unfold mergeWord.
  set (yData1 := match getZ yData (xx + j) with
                 | Some w => _ | None => yData end).
  assert (H1 : rowLe yData yData1).
  { subst yData1. destruct (getZ yData (xx + j)) as [w |] eqn:Hg.
    - eapply rowLe_setZ; [exact Hg | apply leBits_or_l].
    - apply rowLe_refl. }
  eapply rowLe_trans; [exact H1 |].
  destruct (getZ yData1 (xx + j + 1)) as [w |] eqn:Hg; [| apply rowLe_refl].
  destruct (Int32.truthy offset); [| apply rowLe_refl].
  eapply rowLe_setZ; [exact Hg | apply leBits_or_l].
Qed.

Lemma mergeRow_le offset xx row : forall yData j,
  rowLe yData (mergeRow offset xx yData j row).
Proof.
  induction row as [| target rest IH]; intros yData j; simpl.
  - apply rowLe_refl.
  - eapply rowLe_trans; [apply mergeWord_le | apply IH].
Qed.

Lemma merge_le offset xx pixelsY data : forall thisData i,
  gridLe thisData (merge offset xx pixelsY thisData i data).
Proof.
  induction data as [| row rest IH]; intros thisData i; simpl.
  - apply gridLe_refl.
  - eapply gridLe_trans; [| apply IH].
    destruct (getZ thisData (pixelsY + i)) as [yData |] eqn:Hg.
    + eapply gridLe_setZ; [exact Hg | apply mergeRow_le].
    + apply gridLe_refl.
Qed.

(** ** From words to cells *)

Lemma wordAt_default d r w : getZ (default [] (getZ d r)) w = wordAt d r w.
Proof.
  unfold wordAt. destruct (getZ d r) as [row |]; simpl; [reflexivity |].
  unfold getZ. destruct (w <? 0); [reflexivity | apply lookup_nil].
Qed.

(** Bit [k] of mask word [j] lies over cell [p + 32 j + 31 - k] of the
    grid, where [p] is the cell column of the mask's left edge: that cell is
    in word [p / 32 + j] or in the next one. *)
Lemma cell_word p j k :
  0 <= k < 32 ->
  let c := p + 32 * j + 31 - k in
  if p mod 32 <=? k
  then c / 32 = p / 32 + j /\ 31 - c mod 32 = k - p mod 32
  else c / 32 = p / 32 + j + 1 /\ 31 - c mod 32 = k + 32 - p mod 32.
Proof.
  intros Hk c.
  pose proof (Z.mod_pos_bound p 32 ltac:(lia)) as Hm.
  pose proof (Z.div_mod p 32 ltac:(lia)) as Hp.
  destruct (Z.leb_spec (p mod 32) k).
  - assert (Hq : c / 32 = p / 32 + j).
    { symmetry. apply (Z.div_unique c 32 _ (p mod 32 + 31 - k)); subst c; lia. }
    split; [exact Hq |].
    pose proof (Z.div_mod c 32 ltac:(lia)) as Hc. rewrite Hq in Hc.
    subst c. lia.
  - assert (Hq : c / 32 = p / 32 + j + 1).
    { symmetry. apply (Z.div_unique c 32 _ (p mod 32 - 1 - k)); subst c; lia. }
    split; [exact Hq |].
    pose proof (Z.div_mod c 32 ltac:(lia)) as Hc. rewrite Hq in Hc.
    subst c. lia.
Qed.

(** The window that the first pass rebuilds, bit by bit. *)
Lemma window_bit p current next k :
  0 <= k < 32 ->
  let offset := Z.rem p 32 in
  let fix_ := if Int32.truthy offset then -1 else 0 in
  Z.testbit
    (Int32.or (Int32.shl current offset)
       (Int32.shru (Int32.and next fix_) (32 - offset))) k
  = if p mod 32 <=? k then Z.testbit current (k - p mod 32)
    else Z.testbit next (k + 32 - p mod 32).
Proof.
  intros Hk offset fix_.
  pose proof (Z.mod_pos_bound p 32 ltac:(lia)) as Hm.
  rewrite Int32Facts.testbit_or, Int32Facts.testbit_shl by lia.
  rewrite Int32Facts.testbit_shru by lia.
  subst offset fix_. rewrite Int32Facts.shiftCount_rem, Int32Facts.rem_truthy.
  destruct (Z.eqb_spec (p mod 32) 0) as [E0 | Hne]; simpl.
  - rewrite E0.
    destruct (Z.leb_spec 0 k); [| lia]. simpl.
    replace (Int32.and next 0) with 0
      by (unfold Int32.and; rewrite Z.land_0_r; reflexivity).
    unfold Int32.toUint32. rewrite Z.bits_0, Bool.andb_false_r, Bool.orb_false_r.
    reflexivity.
  - rewrite Int32Facts.shiftCount_back by assumption.
    destruct (Z.leb_spec (p mod 32) k); simpl.
    + destruct (Z.ltb_spec (k + (32 - p mod 32)) 32); [lia |]. simpl.
      apply Bool.orb_false_r.
    + destruct (Z.ltb_spec (k + (32 - p mod 32)) 32); [| lia]. simpl.
      rewrite Int32Facts.testbit_and by lia.
      rewrite Z.bits_m1, Bool.andb_true_r by lia.
      f_equal. lia.
Qed.

Section Passes.

Variables (out p pixelsY : Z) (thisData : list (list Z)).

Let offset := Z.rem p 32.
Let fix_ := if Int32.truthy offset then -1 else 0.
Let xx := p / 32.

(** The window of mask word [j] of mask row [i] holds the cells of the
    grid under that word. *)
Lemma window_cell i j k :
  0 <= k < 32 ->
  let yData := default [] (getZ thisData (pixelsY + i)) in
  Z.testbit
    (Int32.or
       (Int32.shl (default out (getZ yData (xx + j))) offset)
       (Int32.shru
          (Int32.and (default out (getZ yData (xx + j + 1))) fix_)
          (32 - offset))) k
  = cellOr out thisData (pixelsY + i) (p + 32 * j + 31 - k).
Proof.
  intros Hk yData. subst offset fix_. rewrite window_bit by assumption.
  subst yData. rewrite !wordAt_default. unfold cellOr.
  pose proof (cell_word p j k Hk) as Hc. simpl in Hc. fold xx in Hc.
  destruct (p mod 32 <=? k); destruct Hc as [-> ->];
    match goal with
    | |- context [wordAt ?d ?r ?w] => destruct (wordAt d r w)
    end; reflexivity.
Qed.

Lemma collidesWord_true i j target k :
  0 <= k < 32 ->
  Z.testbit target k = true ->
  cellOr out thisData (pixelsY + i) (p + 32 * j + 31 - k) = true ->
  collidesWord out offset fix_ xx
    (default [] (getZ thisData (pixelsY + i))) j target = true.
Proof.
  intros Hk Ht Hc. unfold collidesWord.
  eapply Int32Facts.and_truthy; [exact Hk | | exact Ht].
  rewrite window_cell by assumption. exact Hc.
Qed.

Lemma collidesWord_false i j target k :
  0 <= k < 32 ->
  collidesWord out offset fix_ xx
    (default [] (getZ thisData (pixelsY + i))) j target = false ->
  Z.testbit target k = true ->
  cellOr out thisData (pixelsY + i) (p + 32 * j + 31 - k) = false.
Proof.
  intros Hk Hf Ht. unfold collidesWord in Hf.
  destruct (cellOr out thisData (pixelsY + i) (p + 32 * j + 31 - k)) eqn:Hc;
    [| reflexivity].
  rewrite <- window_cell in Hc by assumption.
  pose proof (Int32Facts.and_falsy _ _ k Hk Hf Hc). congruence.
Qed.

Lemma collidesRow_true yData row : forall j0 (n : nat) target,
  row !! n = Some target ->
  collidesWord out offset fix_ xx yData (j0 + Z.of_nat n) target = true ->
  collidesRow out offset fix_ xx yData j0 row = true.
Proof.
  induction row as [| t rest IH]; intros j0 n target Hn Hw; [discriminate |].
  simpl. destruct n as [| n'].
  - simpl in Hn. injection Hn as ->.
    rewrite Z.add_0_r in Hw. rewrite Hw. reflexivity.
  - destruct (collidesWord out offset fix_ xx yData j0 t); [reflexivity |].
    apply (IH (j0 + 1) n' target Hn).
    replace (j0 + 1 + Z.of_nat n') with (j0 + Z.of_nat (S n')) by lia.
    exact Hw.
Qed.

Lemma collidesRow_false yData row : forall j0 (n : nat) target,
  collidesRow out offset fix_ xx yData j0 row = false ->
  row !! n = Some target ->
  collidesWord out offset fix_ xx yData (j0 + Z.of_nat n) target = false.
Proof.
  induction row as [| t rest IH]; intros j0 n target Hf Hn; [discriminate |].
  simpl in Hf.
  destruct (collidesWord out offset fix_ xx yData j0 t) eqn:Hw;
    [discriminate |].
  destruct n as [| n'].
  - simpl in Hn. injection Hn as <-. rewrite Z.add_0_r. exact Hw.
  - replace (j0 + Z.of_nat (S n')) with (j0 + 1 + Z.of_nat n') by lia.
    apply IH; assumption.
Qed.

Lemma collides_true data : forall i0 (n : nat) row,
  data !! n = Some row ->
  collidesRow out offset fix_ xx
    (default [] (getZ thisData (pixelsY + (i0 + Z.of_nat n)))) 0 row = true ->
  collides out offset fix_ xx pixelsY thisData i0 data = true.
Proof.
  induction data as [| r rest IH]; intros i0 n row Hn Hr; [discriminate |].
  simpl. destruct n as [| n'].
  - simpl in Hn. injection Hn as ->.
    rewrite Z.add_0_r in Hr. rewrite Hr. reflexivity.
  - destruct (collidesRow out offset fix_ xx _ 0 r); [reflexivity |].
    apply (IH (i0 + 1) n' row Hn).
    replace (i0 + 1 + Z.of_nat n') with (i0 + Z.of_nat (S n')) by lia.
    exact Hr.
Qed.

Lemma collides_false data : forall i0 (n : nat) row,
  collides out offset fix_ xx pixelsY thisData i0 data = false ->
  data !! n = Some row ->
  collidesRow out offset fix_ xx
    (default [] (getZ thisData (pixelsY + (i0 + Z.of_nat n)))) 0 row = false.
Proof.
  induction data as [| r rest IH]; intros i0 n row Hf Hn; [discriminate |].
  simpl in Hf.
  destruct (collidesRow out offset fix_ xx _ 0 r) eqn:Hr; [discriminate |].
  destruct n as [| n'].
  - simpl in Hn. injection Hn as <-. rewrite Z.add_0_r. exact Hr.
  - replace (i0 + Z.of_nat (S n')) with (i0 + 1 + Z.of_nat n') by lia.
    apply IH; assumption.
Qed.

End Passes.

(** An ink cell of a mask, as the word and the bit that hold it. *)
Lemma inkAt_word data i c :
  inkAt data i c = true ->
  exists (n m : nat) row target,
    i = Z.of_nat n /\ c / 32 = Z.of_nat m /\
    data !! n = Some row /\ row !! m = Some target /\
    Z.testbit target (31 - c mod 32) = true.
Proof.
  unfold inkAt, wordAt. intros H.
  destruct (getZ data i) as [row |] eqn:Hrow; [| discriminate].
  destruct (getZ row (c / 32)) as [target |] eqn:Hw; [| discriminate].
  apply getZ_Some in Hrow as [Hi Hrow], Hw as [Hc Hw].
  exists (Z.to_nat i), (Z.to_nat (c / 32)), row, target.
  rewrite !Z2Nat.id by assumption. auto.
Qed.

Section FirstPass.

Variables (out p pixelsY : Z) (thisData data : list (list Z)).

(** The first pass reports a collision as soon as an ink cell of the mask
    lies over an occupied cell. *)
Lemma firstPass_hit i c :
  inkAt data i c = true ->
  cellOr out thisData (pixelsY + i) (p + c) = true ->
  collides out (Z.rem p 32) (if Int32.truthy (Z.rem p 32) then -1 else 0)
    (p / 32) pixelsY thisData 0 data = true.
Proof.
  intros Hink Hcell.
  destruct (inkAt_word _ _ _ Hink) as (n & m & row & target & -> & Hm & Hn & Hr & Hb).
  pose proof (Z.mod_pos_bound c 32 ltac:(lia)) as Hc.
  pose proof (Z.div_mod c 32 ltac:(lia)) as Hdm.
  apply (collides_true out p pixelsY thisData data 0 n row Hn).
  apply (collidesRow_true out p _ row 0 m target Hr).
  apply (collidesWord_true out p pixelsY thisData _ _ target (31 - c mod 32));
    [lia | exact Hb |].
  rewrite !Z.add_0_l.
  replace (p + 32 * Z.of_nat m + 31 - (31 - c mod 32)) with (p + c) by lia.
  exact Hcell.
Qed.

(** When the first pass reports none, every ink cell of the mask lies over
    a free cell. *)
Lemma firstPass_clear i c :
  collides out (Z.rem p 32) (if Int32.truthy (Z.rem p 32) then -1 else 0)
    (p / 32) pixelsY thisData 0 data = false ->
  inkAt data i c = true ->
  cellOr out thisData (pixelsY + i) (p + c) = false.
Proof.
  intros Hf Hink.
  destruct (inkAt_word _ _ _ Hink) as (n & m & row & target & -> & Hm & Hn & Hr & Hb).
  pose proof (Z.mod_pos_bound c 32 ltac:(lia)) as Hc.
  pose proof (Z.div_mod c 32 ltac:(lia)) as Hdm.
  pose proof (collides_false out p pixelsY thisData data 0 n row Hf Hn) as H1.
  pose proof (collidesRow_false out p _ row 0 m target H1 Hr) as H2.
  rewrite !Z.add_0_l in H2.
  pose proof (collidesWord_false out p pixelsY thisData _ _ target
                (31 - c mod 32) ltac:(lia) H2 Hb) as H3.
  replace (p + 32 * Z.of_nat m + 31 - (31 - c mod 32)) with (p + c) in H3 by lia.
  exact H3.
Qed.

End FirstPass.

(** ** The second pass writes every ink cell that the grid stores *)

Lemma optLe_bit a b k :
  optLe a b -> 0 <= k < 32 ->
  (exists v, a = Some v /\ Z.testbit v k = true) ->
  exists v', b = Some v' /\ Z.testbit v' k = true.
Proof.
  intros Hle Hk (v & -> & Hv). destruct b as [v' |]; [| contradiction].
  exists v'. split; [reflexivity | apply Hle; assumption].
Qed.

Lemma optLe_is_Some a b : optLe a b -> is_Some a -> is_Some b.
Proof. intros Hle [v ->]. destruct b; [eauto | contradiction]. Qed.

Section SecondPass.

Variables (p pixelsY : Z).

Let offset := Z.rem p 32.
Let xx := p / 32.

(** The word and the bit of the grid that receive bit [k] of mask word
    [j]. *)
Let W (j k : Z) : Z := if p mod 32 <=? k then xx + j else xx + j + 1.
Let B (k : Z) : Z := if p mod 32 <=? k then k - p mod 32 else k + 32 - p mod 32.

Lemma B_range k : 0 <= k < 32 -> 0 <= B k < 32.
Proof.
  intros Hk. subst B. simpl.
  pose proof (Z.mod_pos_bound p 32 ltac:(lia)).
  destruct (Z.leb_spec (p mod 32) k); lia.
Qed.

Lemma mergeWord_sets yData j target k :
  0 <= k < 32 ->
  Z.testbit target k = true ->
  is_Some (getZ yData (W j k)) ->
  exists v, getZ (mergeWord offset xx yData j target) (W j k) = Some v
            /\ Z.testbit v (B k) = true.
Proof.
  intros Hk Ht Hs. subst W B. simpl in *.
  pose proof (Z.mod_pos_bound p 32 ltac:(lia)) as Hm.
  unfold mergeWord.
  set (yData1 := match getZ yData (xx + j) with
                 | Some w => _ | None => yData end).
  assert (H1 : rowLe yData yData1).
  { subst yData1. destruct (getZ yData (xx + j)) as [w |] eqn:Hg.
    - eapply rowLe_setZ; [exact Hg | apply leBits_or_l].
    - apply rowLe_refl. }
  destruct (Z.leb_spec (p mod 32) k) as [Hle | Hlt].
  - (* the bit goes to word [xx + j] *)
    assert (H2 : exists v, getZ yData1 (xx + j) = Some v
                           /\ Z.testbit v (k - p mod 32) = true).
    { subst yData1. destruct Hs as [w Hw]. rewrite Hw.
      rewrite getZ_setZ_eq by (rewrite Hw; eauto).
      eexists; split; [reflexivity |].
      rewrite Int32Facts.testbit_or by lia.
      rewrite Int32Facts.testbit_shru by lia.
      subst offset. rewrite Int32Facts.shiftCount_rem.
      replace (k - p mod 32 + p mod 32) with k by lia. rewrite Ht.
      destruct (Z.ltb_spec k 32); [| lia]. apply Bool.orb_true_r. }
    destruct (getZ yData1 (xx + j + 1)) as [w |]; [| exact H2].
    destruct (Int32.truthy offset); [| exact H2].
    rewrite getZ_setZ_ne by lia. exact H2.
  - (* the bit goes to word [xx + j + 1] *)
    assert (Hs1 : is_Some (getZ yData1 (xx + j + 1))).
    { eapply optLe_is_Some; [apply H1 | exact Hs]. }
    destruct Hs1 as [w Hw]. rewrite Hw.
    subst offset. rewrite Int32Facts.rem_truthy.
    destruct (Z.eqb_spec (p mod 32) 0) as [E | Hne]; [lia |]. simpl.
    rewrite getZ_setZ_eq by (rewrite Hw; eauto).
    eexists; split; [reflexivity |].
    rewrite Int32Facts.testbit_or by lia.
    rewrite Int32Facts.testbit_shl by lia.
    rewrite Int32Facts.shiftCount_back by assumption.
    replace (k + 32 - p mod 32 - (32 - p mod 32)) with k by lia. rewrite Ht.
    destruct (Z.leb_spec (32 - p mod 32) (k + 32 - p mod 32)); [| lia].
    apply Bool.orb_true_r.
Qed.

Lemma mergeRow_sets row k : forall yData j0 (n : nat) target,
  0 <= k < 32 ->
  row !! n = Some target ->
  Z.testbit target k = true ->
  is_Some (getZ yData (W (j0 + Z.of_nat n) k)) ->
  exists v, getZ (mergeRow offset xx yData j0 row) (W (j0 + Z.of_nat n) k)
            = Some v
            /\ Z.testbit v (B k) = true.
Proof.
  induction row as [| t rest IH]; intros yData j0 n target Hk Hn Ht Hs;
    [discriminate |].
  simpl. destruct n as [| n'].
  - simpl in Hn. injection Hn as ->. rewrite Z.add_0_r in *.
    eapply optLe_bit;
      [apply mergeRow_le | apply B_range; exact Hk
      | apply mergeWord_sets; assumption].
  - replace (j0 + Z.of_nat (S n')) with (j0 + 1 + Z.of_nat n') in * by lia.
    apply (IH _ (j0 + 1) n' target Hk Hn Ht).
    eapply optLe_is_Some; [apply mergeWord_le | exact Hs].
Qed.

Lemma merge_sets data k : forall thisData i0 (n m : nat) row target,
  0 <= k < 32 ->
  data !! n = Some row ->
  row !! m = Some target ->
  Z.testbit target k = true ->
  is_Some (wordAt thisData (pixelsY + (i0 + Z.of_nat n)) (W (Z.of_nat m) k)) ->
  exists v,
    wordAt (merge offset xx pixelsY thisData i0 data)
      (pixelsY + (i0 + Z.of_nat n)) (W (Z.of_nat m) k) = Some v
    /\ Z.testbit v (B k) = true.
Proof.
  induction data as [| r rest IH];
    intros thisData i0 n m row target Hk Hn Hm Ht Hs; [discriminate |].
  simpl. destruct n as [| n'].
  - simpl in Hn. injection Hn as ->. rewrite Z.add_0_r in *.
    eapply optLe_bit; [apply merge_le | apply B_range; exact Hk |].
    unfold wordAt in Hs |- *.
    destruct (getZ thisData (pixelsY + i0)) as [yData |] eqn:Hg;
      [| destruct Hs; discriminate].
    rewrite getZ_setZ_eq by (rewrite Hg; eauto).
    pose proof (mergeRow_sets row k yData 0 m target Hk Hm Ht) as Hrow.
    rewrite Z.add_0_l in Hrow. apply Hrow. exact Hs.
  - replace (i0 + Z.of_nat (S n')) with (i0 + 1 + Z.of_nat n') in * by lia.
    apply (IH _ (i0 + 1) n' m row target Hk Hn Hm Ht).
    eapply optLe_is_Some; [| exact Hs].
    destruct (getZ thisData (pixelsY + i0)) as [yData |] eqn:Hg.
    + apply (gridLe_setZ _ _ _ _ Hg), mergeRow_le.
    + apply optLe_refl.
Qed.

(** After the second pass, every ink cell of the mask that lies over a
    stored cell of the grid is occupied. *)
Lemma merge_cell thisData data i c :
  inkAt data i c = true ->
  stored thisData (pixelsY + i) (p + c) ->
  inkAt (merge offset xx pixelsY thisData 0 data) (pixelsY + i) (p + c) = true.
Proof.
  intros Hink Hst.
  destruct (inkAt_word _ _ _ Hink) as (n & m & row & target & -> & Hm & Hn & Hr & Hb).
  pose proof (Z.mod_pos_bound c 32 ltac:(lia)) as Hc.
  pose proof (Z.div_mod c 32 ltac:(lia)) as Hdm.
  pose proof (cell_word p (Z.of_nat m) (31 - c mod 32) ltac:(lia)) as Hcw.
  simpl in Hcw.
  replace (p + 32 * Z.of_nat m + 31 - (31 - c mod 32)) with (p + c) in Hcw by lia.
  pose proof (merge_sets data (31 - c mod 32) thisData 0 n m row target
                ltac:(lia) Hn Hr Hb) as Hset.
  rewrite Z.add_0_l in Hset. unfold stored in Hst. unfold inkAt.
  subst W B. simpl in Hset. fold xx in Hcw.
  destruct (p mod 32 <=? 31 - c mod 32); destruct Hcw as [Hw Hbit];
    rewrite Hw in Hst |- *; rewrite Hbit;
    destruct (Hset Hst) as (v & -> & Hv); exact Hv.
Qed.

(** The second pass keeps the words of the grid where they are. *)
Lemma merge_stored thisData data r c :
  stored thisData r c ->
  stored (merge offset xx pixelsY thisData 0 data) r c.
Proof.
  unfold stored. apply optLe_is_Some, merge_le.
Qed.

End SecondPass.

(** ** The model on small inputs *)

(** One cell to the right of the left edge, the all-ink mask of 32 cells
    covers 31 cells of the only word of the row. *)
Example tryPlaceTag_shifted :
  tryPlaceTag (exOptions true) (exGrid true) exMask 4 0
  = (true, mkPixels 128 8 [[2147483647]; [0]]).
Proof. reflexivity. Qed.

(** One cell to the left of the left edge ([x = -4]): the remainder is -1,
    the shifts use 31 and 1, and the second cell of the mask lands on the
    first cell of the grid. *)
Example tryPlaceTag_left_of_edge :
  tryPlaceTag (exOptions true) (exGrid true)
    (mkPixels 8 4 [[Int32.shl 1 30]]) (-4) 0
  = (true, mkPixels 128 8 [[-2147483648]; [0]]).
Proof. reflexivity. Qed.

(** A canvas of 100 pixels has 25 cells in a row; the 7 cells that are left
    in the word start occupied when [cut] is [false] and free when it is
    [true]. *)
Example generatePixels_tail :
  pixels_data (generatePixels (exOptions false) 100 8 0 false) = [[127]; [127]]
  /\ pixels_data (generatePixels (exOptions true) 100 8 0 false) = [[0]; [0]].
Proof. split; reflexivity. Qed.

(** The grid of [exImage]: full, but for the cells of the two black
    pixels. *)
Example loadMaskImage_exImage :
  loadMaskImage exImageOptions exImage = mkPixels 4 1 [[1879048191]].
Proof. reflexivity. Qed.

(** On a full grid the search tries every ring and reports failure. *)
Example placeTag_full_grid :
  placeTag (exOptions false) exScale 66 1 1 (mkPixels 128 8 [[-1]; [-1]])
    exMask
  = Some (None, mkPixels 128 8 [[-1]; [-1]]).
Proof. vm_compute. reflexivity. Qed.

(** A batch of three tags: sorted by weight, the second too wide for the
    canvas. *)
Example draw_exTags :
  (fun r => map (fun td => (td_text td, td_fontSize td, td_x td, td_rendered td))
              (fst (fst r)))
    <$> exDraw exCloud exTags
  = Some [ ("cd", 100, Some 64, true);
           ("0123456789", 55, None, false);
           ("ab", 10, Some 96, true) ].
Proof. vm_compute. reflexivity. Qed.

(** ** The collision engine *)

(** C1. When [tryPlaceTag] returns [false], the grid after the call is the
    grid before the call, word for word. *)
Theorem tryPlaceTag_false_keeps_grid o grid pixels x y grid' :
  tryPlaceTag o grid pixels x y = (false, grid') -> grid' = grid.
Proof.
  unfold tryPlaceTag.
  destruct (collides _ _ _ _ _ _ 0 _); intros H.
  - injection H as <-. reflexivity.
  - discriminate.
Qed.

Lemma tryPlaceTag_false_keeps_grid_witness :
  snd (tryPlaceTag (exOptions false) (exGrid false) exMask 4 0)
  = exGrid false.
Proof.
  apply (tryPlaceTag_false_keeps_grid (exOptions false) (exGrid false) exMask
           4 0).
  reflexivity.
Defined.

(** Cells of a grid that [cellOr] and [inkAt] agree on. *)
Lemma cellOr_stored out d r c : stored d r c -> cellOr out d r c = inkAt d r c.
Proof.
  unfold stored, cellOr, inkAt. intros [w ->]. reflexivity.
Qed.

Lemma stored_row d r c : stored d r c -> 0 <= r < Z.of_nat (length d) /\ 0 <= c.
Proof.
  unfold stored, wordAt. intros [w Hw].
  destruct (getZ d r) as [row |] eqn:Hr; [| discriminate].
  apply getZ_Some in Hr as [Hr0 Hr], Hw as [Hc0 Hw].
  apply lookup_lt_Some in Hr.
  split; [lia |].
  destruct (Z.lt_ge_cases c 0) as [Hneg | ]; [| assumption].
  pose proof (Z.div_lt_upper_bound c 32 0 ltac:(lia) ltac:(lia)). lia.
Qed.

(** With [cut = false] a cell that the grid does not store counts as
    occupied, so an accepted mask has all its ink over stored cells. *)
Lemma placed_on_stored o grid mask x y grid' i c :
  cut o = false ->
  tryPlaceTag o grid mask x y = (true, grid') ->
  inkAt (pixels_data mask) i c = true ->
  stored (pixels_data grid) (y / pixelRatio o + i) (x / pixelRatio o + c)
  /\ inkAt (pixels_data grid) (y / pixelRatio o + i) (x / pixelRatio o + c)
     = false.
Proof.
  intros Hcut Htry Hink. unfold tryPlaceTag in Htry. rewrite Hcut in Htry.
  destruct (collides _ _ _ _ _ _ 0 _) eqn:Hcol; [discriminate |].
  pose proof (firstPass_clear _ _ _ _ _ i c Hcol Hink) as Hfree.
  unfold cellOr in Hfree. unfold stored, inkAt.
  destruct (wordAt _ _ _) as [w |].
  - split; [eauto | exact Hfree].
  - pose proof (Z.mod_pos_bound (x / pixelRatio o + c) 32 ltac:(lia)).
    rewrite Z.bits_m1 in Hfree by lia. discriminate.
Qed.

(** C2, as the code has it: with [cut = false], on a grid whose cells
    beyond the canvas width are occupied, every ink cell of an accepted mask
    lies inside the cells of the canvas. *)
Theorem tryPlaceTag_contained o grid mask x y grid' i c :
  cut o = false ->
  canvasGrid o (pixels_data grid) ->
  tryPlaceTag o grid mask x y = (true, grid') ->
  inkAt (pixels_data mask) i c = true ->
  0 <= y / pixelRatio o + i < ceilDiv (height o) (pixelRatio o)
  /\ 0 <= x / pixelRatio o + c < ceilDiv (width o) (pixelRatio o).
Proof.
  intros Hcut [Hrows Htail] Htry Hink.
  destruct (placed_on_stored _ _ _ _ _ _ _ _ Hcut Htry Hink) as [Hst Hfree].
  destruct (stored_row _ _ _ Hst) as [Hr Hc].
  split.
  - rewrite Hrows in Hr. lia.
  - split; [exact Hc |].
    destruct (Z.lt_ge_cases (x / pixelRatio o + c)
                (ceilDiv (width o) (pixelRatio o))) as [Hlt | Hge];
      [exact Hlt |].
    rewrite (Htail _ _ Hge Hst) in Hfree. discriminate.
Qed.

(** C2, as stated, fails: with [cut = true] the all-ink mask is accepted one
    cell to the right of the left edge, and its last cell is off the grid. *)
Lemma cut_true_not_contained :
  ~ (forall o grid mask x y grid' i c,
       cut o = true ->
       canvasGrid o (pixels_data grid) ->
       tryPlaceTag o grid mask x y = (true, grid') ->
       inkAt (pixels_data mask) i c = true ->
       0 <= y / pixelRatio o + i < ceilDiv (height o) (pixelRatio o)
       /\ 0 <= x / pixelRatio o + c < ceilDiv (width o) (pixelRatio o)).
Proof.
  intros H.
  specialize (H (exOptions true) (exGrid true) exMask 4 0
                (mkPixels 128 8 [[2147483647]; [0]]) 0 31).
  assert (Hgrid : canvasGrid (exOptions true) (pixels_data (exGrid true))).
  { split; [reflexivity |]. intros r c Hc Hst.
    apply stored_row in Hst as Hr.
    unfold stored, wordAt in Hst. simpl in Hr.
    assert (r = 0 \/ r = 1) as [-> | ->] by lia; simpl in Hst;
      destruct Hst as [w Hw]; apply getZ_Some in Hw as [Hc0 Hw];
      apply lookup_lt_Some in Hw; simpl in Hw;
      change (ceilDiv (width (exOptions true)) (pixelRatio (exOptions true)))
        with 32 in Hc;
      pose proof (Z.div_le_lower_bound c 32 1 ltac:(lia) ltac:(lia)); lia. }
  specialize (H eq_refl Hgrid eq_refl eq_refl).
  vm_compute in H. destruct H as [_ [_ H]]. discriminate.
Qed.

(** C3, as the code has it: once a mask is accepted with an ink cell over a
    stored cell of the grid, the same mask at the same place is refused. *)
Theorem tryPlaceTag_twice o grid mask x y grid' i c :
  tryPlaceTag o grid mask x y = (true, grid') ->
  inkAt (pixels_data mask) i c = true ->
  stored (pixels_data grid) (y / pixelRatio o + i) (x / pixelRatio o + c) ->
  fst (tryPlaceTag o grid' mask x y) = false.
Proof.
  intros Htry Hink Hst. unfold tryPlaceTag in Htry.
  destruct (collides _ _ _ _ _ _ 0 _); [discriminate |].
  injection Htry as <-. unfold tryPlaceTag. simpl pixels_data.
  rewrite (firstPass_hit _ _ _ _ _ i c Hink); [reflexivity |].
  rewrite cellOr_stored by (apply merge_stored; exact Hst).
  apply merge_cell; assumption.
Qed.

Lemma tryPlaceTag_twice_witness :
  fst (tryPlaceTag (exOptions false)
         (snd (tryPlaceTag (exOptions false) (exGrid false) exMask 0 0))
         exMask 0 0) = false.
Proof.
  apply (tryPlaceTag_twice (exOptions false) (exGrid false) exMask 0 0 _ 0 0).
  - reflexivity.
  - reflexivity.
  - vm_compute. eauto.
Defined.

(** With [cut = false] every ink cell of an accepted mask is over a stored
    cell, so any mask with ink is refused the second time. *)
Lemma tryPlaceTag_twice_strict o grid mask x y grid' i c :
  cut o = false ->
  tryPlaceTag o grid mask x y = (true, grid') ->
  inkAt (pixels_data mask) i c = true ->
  fst (tryPlaceTag o grid' mask x y) = false.
Proof.
  intros Hcut Htry Hink.
  destruct (placed_on_stored o grid mask x y grid' i c Hcut Htry Hink)
    as [Hst _].
  unfold tryPlaceTag in Htry.
  destruct (collides _ _ _ _ _ _ 0 _); [discriminate |].
  injection Htry as <-. unfold tryPlaceTag. simpl pixels_data.
  rewrite (firstPass_hit _ _ _ _ _ i c Hink); [reflexivity |].
  rewrite cellOr_stored by (apply merge_stored; exact Hst).
  apply merge_cell; assumption.
Qed.

(** C3, as stated, fails: a mask without ink is accepted again and again,
    and so is, with [cut = true], a mask that lies off the grid. *)
Lemma tryPlaceTag_twice_counterexample :
  ~ (forall o grid mask x y grid',
       tryPlaceTag o grid mask x y = (true, grid') ->
       fst (tryPlaceTag o grid' mask x y) = false).
Proof.
  intros H.
  specialize (H (exOptions false) (exGrid false) exBlank 0 0 (exGrid false)
                eq_refl).
  vm_compute in H. discriminate.
Qed.

(** ** The grid that [generatePixels] creates *)

Lemma ceilDiv_bounds a b :
  0 < b -> b * (ceilDiv a b - 1) < a <= b * ceilDiv a b.
Proof.
  intros Hb. unfold ceilDiv.
  pose proof (Z.div_mod (- a) b ltac:(lia)) as Hdm.
  pose proof (Z.mod_pos_bound (- a) b Hb) as Hm.
  lia.
Qed.

Lemma ceilDiv_nonneg a b : 0 < b -> 0 <= a -> 0 <= ceilDiv a b.
Proof.
  intros Hb Ha. pose proof (ceilDiv_bounds a b Hb). nia.
Qed.

Lemma getZ_replicate {A} (n : nat) (x : A) i :
  getZ (replicate n x) i
  = if (0 <=? i) && (i <? Z.of_nat n) then Some x else None.
Proof.
  unfold getZ.
  destruct (Z.ltb_spec i 0), (Z.leb_spec 0 i); try lia; [reflexivity |].
  destruct (Z.ltb_spec i (Z.of_nat n)); simpl.
  - apply lookup_replicate_2. lia.
  - apply lookup_replicate_None. lia.
Qed.

Lemma getZ_is_Some {A} (l : list A) i :
  is_Some (getZ l i) <-> 0 <= i < Z.of_nat (length l).
Proof.
  unfold getZ. destruct (Z.ltb_spec i 0).
  - split; [intros [x Hx]; discriminate | lia].
  - rewrite lookup_lt_is_Some. lia.
Qed.

Lemma getZ_setZ {A} (l : list A) i j v :
  getZ (setZ l i v) j
  = if i =? j then match getZ l i with Some _ => Some v | None => None end
    else getZ l j.
Proof.
  destruct (Z.eqb_spec i j) as [<- | Hne].
  - destruct (getZ l i) as [x |] eqn:Hx.
    + apply getZ_setZ_eq. rewrite Hx. eauto.
    + destruct (getZ (setZ l i v) i) eqn:Hy; [| reflexivity].
      assert (Hs : is_Some (getZ l i))
        by (apply (getZ_setZ_is_Some l i i v); rewrite Hy; eauto).
      rewrite Hx in Hs. destruct Hs; discriminate.
  - apply getZ_setZ_ne. exact Hne.
Qed.

Lemma length_setZ {A} (l : list A) i v : length (setZ l i v) = length l.
Proof.
  unfold setZ. destruct (i <? 0); [reflexivity | apply length_insert].
Qed.

Section Generate.

Variables (o : Options) (w h fill : Z) (forTag : bool).

Let pixelXLength := ceilDiv w (pixelRatio o).
Let pixelYLength := ceilDiv h (pixelRatio o).
Let len := ceilDiv pixelXLength 32.

Lemma generatePixels_length :
  length (pixels_data (generatePixels o w h fill forTag))
  = Z.to_nat pixelYLength.
Proof. simpl. apply length_replicate. Qed.

(** The words of a fresh grid: [len] words in each of [pixelYLength] rows,
    all [fill] but the last of a row. *)
Lemma generatePixels_wordAt r wd :
  wordAt (pixels_data (generatePixels o w h fill forTag)) r wd
  = if (0 <=? r) && (r <? pixelYLength) && (0 <=? wd) && (wd <? len)
    then Some (if wd =? len - 1 then tailFill o pixelXLength fill forTag
               else fill)
    else None.
Proof.
  unfold wordAt, generatePixels. simpl pixels_data.
  fold pixelXLength pixelYLength len.
  rewrite getZ_replicate.
  destruct (Z.leb_spec 0 r), (Z.ltb_spec r pixelYLength),
    (Z.ltb_spec r (Z.of_nat (Z.to_nat pixelYLength)));
    simpl; try reflexivity; try lia.
  rewrite getZ_setZ, !getZ_replicate.
  destruct (Z.leb_spec 0 wd), (Z.ltb_spec wd len),
    (Z.ltb_spec wd (Z.of_nat (Z.to_nat len))),
    (Z.eqb_spec (len - 1) wd), (Z.eqb_spec wd (len - 1)),
    (Z.leb_spec 0 (len - 1)),
    (Z.ltb_spec (len - 1) (Z.of_nat (Z.to_nat len)));
    simpl; try reflexivity; lia.
Qed.

End Generate.

(** A fresh grid stores every cell of its [pixelXLength] columns and
    [pixelYLength] rows. *)
Lemma generatePixels_stored o w h fill forTag cx cy :
  0 <= cx < ceilDiv w (pixelRatio o) ->
  0 <= cy < ceilDiv h (pixelRatio o) ->
  stored (pixels_data (generatePixels o w h fill forTag)) cy cx.
Proof.
  intros Hcx Hcy. unfold stored. rewrite generatePixels_wordAt.
  set (XL := ceilDiv w (pixelRatio o)) in *.
  set (YL := ceilDiv h (pixelRatio o)) in *.
  pose proof (ceilDiv_bounds XL 32 ltac:(lia)) as Hlen.
  pose proof (Z.div_mod cx 32 ltac:(lia)) as Hdc.
  pose proof (Z.mod_pos_bound cx 32 ltac:(lia)) as Hmc.
  assert (0 <= cx / 32) by (apply Z.div_pos; lia).
  destruct (Z.leb_spec 0 cy), (Z.ltb_spec cy YL), (Z.leb_spec 0 (cx / 32)),
    (Z.ltb_spec (cx / 32) (ceilDiv XL 32)); simpl; eauto; lia.
Qed.

(** The grid of a canvas without mask image, when [cut] is [false]. *)
Lemma canvasGrid_generatePixels o :
  cut o = false -> 0 < pixelRatio o -> 0 <= width o ->
  canvasGrid o (pixels_data (generatePixels o (width o) (height o) 0 false)).
Proof.
  intros Hcut Hpr Hw. split; [apply generatePixels_length |].
  intros r c Hc Hst. unfold stored in Hst. unfold inkAt.
  rewrite generatePixels_wordAt in Hst |- *.
  set (XL := ceilDiv (width o) (pixelRatio o)) in *.
  set (len := ceilDiv XL 32) in *.
  destruct ((0 <=? r) && (r <? _) && (0 <=? c / 32) && (c / 32 <? len)) eqn:Hin;
    [| destruct Hst; discriminate].
  apply andb_prop in Hin as [_ Hlt]. apply Z.ltb_lt in Hlt.
  pose proof (ceilDiv_nonneg (width o) (pixelRatio o) Hpr Hw) as HXL.
  fold XL in HXL.
  pose proof (ceilDiv_bounds XL 32 ltac:(lia)) as Hlen. fold len in Hlen.
  pose proof (Z.div_mod c 32 ltac:(lia)) as Hdm.
  pose proof (Z.mod_pos_bound c 32 ltac:(lia)) as Hm.
  pose proof (Z.div_mod XL 32 ltac:(lia)) as HdmX.
  pose proof (Z.mod_pos_bound XL 32 ltac:(lia)) as HmX.
  assert (Hlast : c / 32 = len - 1) by lia.
  rewrite Hlast, Z.eqb_refl.
  unfold tailFill. rewrite Hcut. simpl orb.
  rewrite Z.rem_mod_nonneg by lia.
  destruct (Z.eqb_spec (XL mod 32) 0) as [E | Hne]; [lia |].
  rewrite Int32Facts.testbit_or by lia.
  rewrite Int32Facts.testbit_shru by lia.
  unfold Int32.shiftCount. rewrite Z.mod_mod by lia.
  rewrite Z.bits_m1 by lia.
  assert (HX : XL / 32 = len - 1) by lia.
  destruct (Z.ltb_spec (31 - c mod 32 + XL mod 32) 32); [| lia].
  apply Bool.orb_true_r.
Qed.

Lemma merge_length offset xx pixelsY data : forall thisData i,
  length (merge offset xx pixelsY thisData i data) = length thisData.
Proof.
  induction data as [| row rest IH]; intros thisData i; simpl; [reflexivity |].
  rewrite IH. destruct (getZ thisData (pixelsY + i)); [| reflexivity].
  apply length_setZ.
Qed.

Lemma optLe_is_Some_rev a b : optLe a b -> is_Some b -> is_Some a.
Proof. intros Hle [v ->]. destruct a; [eauto | contradiction]. Qed.

(** [tryPlaceTag] keeps such a grid one. *)
Lemma canvasGrid_tryPlaceTag o grid mask x y b grid' :
  canvasGrid o (pixels_data grid) ->
  tryPlaceTag o grid mask x y = (b, grid') ->
  canvasGrid o (pixels_data grid').
Proof.
  intros [Hrows Htail] Htry. unfold tryPlaceTag in Htry.
  destruct (collides _ _ _ _ _ _ 0 _); injection Htry as <- <-;
    [split; assumption |].
  simpl. split; [rewrite merge_length; exact Hrows |].
  intros r c Hc Hst.
  set (m := merge _ _ _ _ _ _) in *.
  assert (Hle : gridLe (pixels_data grid) m) by apply merge_le.
  assert (Hst0 : stored (pixels_data grid) r c).
  { eapply optLe_is_Some_rev; [apply Hle | exact Hst]. }
  specialize (Htail r c Hc Hst0). unfold inkAt in Htail |- *.
  specialize (Hle r (c / 32)).
  pose proof (Z.mod_pos_bound c 32 ltac:(lia)).
  destruct (wordAt (pixels_data grid) r (c / 32)) as [v |]; [| discriminate].
  destruct (wordAt m r (c / 32)) as [v' |]; [| contradiction].
  apply Hle; [lia | exact Htail].
Qed.

Lemma tryPlaceTag_contained_witness :
  0 <= 0 / pixelRatio (exOptions false) + 0
     < ceilDiv (height (exOptions false)) (pixelRatio (exOptions false))
  /\ 0 <= 0 / pixelRatio (exOptions false) + 31
        < ceilDiv (width (exOptions false)) (pixelRatio (exOptions false)).
Proof.
  apply (tryPlaceTag_contained (exOptions false) (exGrid false) exMask 0 0
           (snd (tryPlaceTag (exOptions false) (exGrid false) exMask 0 0))).
  - reflexivity.
  - apply canvasGrid_generatePixels; [reflexivity | reflexivity | discriminate].
  - reflexivity.
  - reflexivity.
Defined.

(** ** Downsampling an image: [getPixelsFromImgData] *)

Lemma rowLe_setZ_l l i w v :
  getZ l i = Some w -> leBits v w -> rowLe (setZ l i v) l.
Proof.
  intros Hg Hle j. destruct (Z.eq_dec i j) as [<- | Hne].
  - rewrite getZ_setZ_eq, Hg by (rewrite Hg; eauto). exact Hle.
  - rewrite getZ_setZ_ne by assumption. apply optLe_refl.
Qed.

Lemma gridLe_setZ_l d r row row' :
  getZ d r = Some row -> rowLe row' row -> gridLe (setZ d r row') d.
Proof.
  intros Hg Hle r' w. unfold wordAt.
  destruct (Z.eq_dec r r') as [<- | Hne].
  - rewrite getZ_setZ_eq, Hg by (rewrite Hg; eauto). apply Hle.
  - rewrite getZ_setZ_ne by assumption. apply optLe_refl.
Qed.

Lemma leBits_and_l v x : leBits (Int32.and v x) v.
Proof.
  intros k Hk H. rewrite Int32Facts.testbit_and in H by lia.
  apply andb_prop in H. tauto.
Qed.

(** Rewriting a word with fewer bits gives a grid with fewer bits. *)
Lemma updateWord_le d r x f :
  (forall w, leBits (f w) w) -> gridLe (updateWord d r x f) d.
Proof.
  intros Hf. unfold updateWord.
  destruct (getZ d r) as [row |] eqn:Hrow; [| apply gridLe_refl].
  destruct (getZ row x) as [w |] eqn:Hw; [| apply gridLe_refl].
  eapply gridLe_setZ_l; [exact Hrow |].
  eapply rowLe_setZ_l; [exact Hw | apply Hf].
Qed.

Lemma updateWord_wordAt d r x f w :
  wordAt d r x = Some w -> wordAt (updateWord d r x f) r x = Some (f w).
Proof.
  unfold wordAt, updateWord. intros H.
  destruct (getZ d r) as [row |] eqn:Hrow; [| discriminate].
  rewrite H. rewrite getZ_setZ_eq by (rewrite Hrow; eauto).
  apply getZ_setZ_eq. rewrite H. eauto.
Qed.

(** The bit of column [pixelX] in its word. *)
Lemma cell_bit pixelX k :
  0 <= k < 32 ->
  Z.testbit (Int32.shl 1 (- (pixelX + 1))) k = (k =? 31 - pixelX mod 32).
Proof.
  intros Hk. rewrite Int32Facts.testbit_shl by assumption.
  assert (Hs : Int32.shiftCount (- (pixelX + 1)) = 31 - pixelX mod 32).
  { unfold Int32.shiftCount.
    pose proof (Z.mod_pos_bound pixelX 32 ltac:(lia)) as Hm.
    pose proof (Z.div_mod pixelX 32 ltac:(lia)) as Hdm.
    symmetry. apply (Z.mod_unique _ _ (- (pixelX / 32) - 1)); lia. }
  rewrite Hs.
  destruct (Z.leb_spec (31 - pixelX mod 32) k), (Z.eqb_spec k (31 - pixelX mod 32));
    simpl; try lia.
  - replace (k - (31 - pixelX mod 32)) with 0 by lia. reflexivity.
  - apply Z.bits_above_log2; simpl; lia.
Qed.

Section Downsample.

Variables (o : Options) (img : ImageData) (opacityT lightT fill : Z).

Hypothesis ratio_pos : 0 < pixelRatio o.
Hypothesis width_small : 0 <= 4 * img_width img < 2 ^ 31.
Hypothesis fill_full : Int32.truthy fill = true.

Let w := img_width img.
Let h := img_height img.
Let pixelXLength := ceilDiv w (pixelRatio o).
Let pixelYLength := ceilDiv h (pixelRatio o).

(** In a grid that starts full, marking a cell only clears bits. *)
Lemma markCell_le d pixelX pixelY :
  gridLe (markCell fill d pixelX pixelY) d.
Proof.
  unfold markCell. rewrite fill_full.
  apply updateWord_le. intros x. apply leBits_and_l.
Qed.

Lemma downsample_le n : forall pixelX pixelY d,
  gridLe (downsample o img opacityT lightT fill n pixelX pixelY d) d.
Proof.
  induction n as [| n IH]; intros pixelX pixelY d; simpl;
    [apply gridLe_refl |].
  set (d1 := if cellInk _ _ _ _ _ _ then _ else d).
  assert (H1 : gridLe d1 d).
  { subst d1. destruct (cellInk o img opacityT lightT pixelX pixelY);
      [apply markCell_le | apply gridLe_refl]. }
  destruct (pixelX + 1 =? _); (eapply gridLe_trans; [apply IH | exact H1]).
Qed.




End Downsample.

(** On a pixel that the buffer holds, [isInk] is the predicate "opaque
    enough and dark enough". *)
Lemma isInk_spec data opacityT lightT pos r g b a :
  getZ data pos = Some r -> getZ data (pos + 1) = Some g ->
  getZ data (pos + 2) = Some b -> getZ data (pos + 3) = Some a ->
  isInk data opacityT lightT pos = (opacityT <=? a) && (r + g + b <=? lightT).
Proof.
  intros Hr Hg Hb Ha. unfold isInk. rewrite Hr, Hg, Hb, Ha.
  destruct (Z.ltb_spec a opacityT), (Z.leb_spec opacityT a); try lia;
    destruct (Z.ltb_spec lightT (r + g + b)), (Z.leb_spec (r + g + b) lightT);
    try lia; reflexivity.
Qed.

Lemma shl_2 v : 0 <= 4 * v < 2 ^ 31 -> Int32.shl v 2 = 4 * v.
Proof.
  intros Hv. unfold Int32.shl, Int32.shiftCount.
  rewrite (Int32Facts.toInt32_small v) by lia.
  change (2 mod 32) with 2. rewrite Z.shiftl_mul_pow2 by lia.
  change (2 ^ 2) with 4. rewrite Int32Facts.toInt32_small; lia.
Qed.

Lemma scanX_hit data opacityT lightT offset n : forall x0 (m : nat),
  (m < n)%nat ->
  isInk data opacityT lightT (offset + Int32.shl (x0 + Z.of_nat m) 2) = true ->
  scanX data opacityT lightT offset n x0 = true.
Proof.
  induction n as [| n IH]; intros x0 m Hm Hink; [lia |]. simpl.
  destruct m as [| m'].
  - rewrite Z.add_0_r in Hink. rewrite Hink. reflexivity.
  - destruct (isInk data opacityT lightT (offset + Int32.shl x0 2));
      [reflexivity |].
    apply (IH (x0 + 1) m'); [lia |].
    replace (x0 + 1 + Z.of_nat m') with (x0 + Z.of_nat (S m')) by lia.
    exact Hink.
Qed.

Lemma scanY_hit data opacityT lightT outerOffset dataXLength xLength n :
  forall y0 (m : nat),
  (m < n)%nat ->
  scanX data opacityT lightT (outerOffset + (y0 + Z.of_nat m) * dataXLength)
    (Z.to_nat xLength) 0 = true ->
  scanY data opacityT lightT outerOffset dataXLength xLength n y0 = true.
Proof.
  induction n as [| n IH]; intros y0 m Hm Hrow; [lia |]. simpl.
  destruct m as [| m'].
  - rewrite Z.add_0_r in Hrow. rewrite Hrow. reflexivity.
  - destruct (scanX data opacityT lightT (outerOffset + y0 * dataXLength)
                (Z.to_nat xLength) 0); [reflexivity |].
    apply (IH (y0 + 1) m'); [lia |].
    replace (y0 + 1 + Z.of_nat m') with (y0 + Z.of_nat (S m')) by lia.
    exact Hrow.
Qed.

(** The extent of the last cell of a row or a column. *)
Lemma edge_length n b c :
  0 < b -> 0 <= c < n ->
  c mod b
  < (if c / b =? ceilDiv n b - 1
     then if Z.rem n b =? 0 then b else Z.rem n b
     else b).
Proof.
  intros Hb Hc.
  pose proof (Z.mod_pos_bound c b Hb) as Hm.
  pose proof (Z.div_mod c b ltac:(lia)) as Hdm.
  pose proof (Z.mod_pos_bound n b Hb) as Hmn.
  pose proof (Z.div_mod n b ltac:(lia)) as Hdmn.
  pose proof (ceilDiv_bounds n b Hb) as Hcd.
  rewrite Z.rem_mod_nonneg by lia.
  destruct (Z.eqb_spec (c / b) (ceilDiv n b - 1)) as [E | Hne]; [| lia].
  destruct (Z.eqb_spec (n mod b) 0) as [E0 | Hne0]; [lia |].
  assert (ceilDiv n b = n / b + 1) by nia.
  nia.
Qed.

(** The scan of a cell finds the ink pixels that the cell covers. *)
Lemma cellInk_hit o img opacityT lightT px py :
  0 < pixelRatio o ->
  0 <= 4 * img_width img < 2 ^ 31 ->
  0 <= px < img_width img ->
  0 <= py < img_height img ->
  inkPixel img opacityT lightT px py = true ->
  cellInk o img opacityT lightT (px / pixelRatio o) (py / pixelRatio o) = true.
Proof.
  intros Hpr Hw Hpx Hpy Hink. unfold cellInk.
  set (pr := pixelRatio o) in *. set (w := img_width img) in *.
  set (h := img_height img) in *.
  pose proof (Z.mod_pos_bound px pr Hpr) as Hmx.
  pose proof (Z.div_mod px pr ltac:(lia)) as Hdx.
  pose proof (Z.mod_pos_bound py pr Hpr) as Hmy.
  pose proof (Z.div_mod py pr ltac:(lia)) as Hdy.
  pose proof (edge_length w pr px Hpr Hpx) as Hex.
  pose proof (edge_length h pr py Hpr Hpy) as Hey.
  assert (Hcx : 0 <= px / pr) by (apply Z.div_pos; lia).
  assert (Hcy : 0 <= py / pr) by (apply Z.div_pos; lia).
  apply (scanY_hit _ _ _ _ _ _ _ 0 (Z.to_nat (py mod pr))); [lia |].
  apply (scanX_hit _ _ _ _ _ 0 (Z.to_nat (px mod pr))); [lia |].
  rewrite !Z.add_0_l, !Z2Nat.id by lia.
  rewrite !shl_2 by nia.
  unfold inkPixel in Hink. fold w in Hink.
  replace (py / pr * pr * (4 * w) + 4 * (px / pr * pr) + py mod pr * (4 * w)
           + 4 * (px mod pr))
    with (4 * (py * w + px)) by nia.
  exact Hink.
Qed.




(** ** The grid of a canvas with a mask image *)

Lemma updateWord_other d r x f r' x' :
  (r', x') <> (r, x) -> wordAt (updateWord d r x f) r' x' = wordAt d r' x'.
Proof.
  intros Hne. unfold updateWord, wordAt.
  destruct (getZ d r) as [row |] eqn:Hrow; [| reflexivity].
  destruct (getZ row x) as [w |] eqn:Hw; [| reflexivity].
  destruct (Z.eq_dec r r') as [<- | Hr].
  - rewrite getZ_setZ_eq, Hrow by (rewrite Hrow; eauto).
    apply getZ_setZ_ne. congruence.
  - rewrite getZ_setZ_ne by assumption. reflexivity.
Qed.

(** Marking a cell leaves the other cells of the grid as they are. *)
Lemma markCell_other fill d pixelX pixelY r c :
  0 <= pixelX < 2 ^ 31 -> c <> pixelX ->
  inkAt (markCell fill d pixelX pixelY) r c = inkAt d r c.
Proof.
  intros HpX Hne. unfold markCell, inkAt.
  assert (Hidx : Int32.sar0 (Z.quot pixelX 32) = pixelX / 32).
  { rewrite Z.quot_div_nonneg by lia. unfold Int32.sar0.
    apply Int32Facts.toInt32_small.
    pose proof (Z.div_pos pixelX 32 ltac:(lia) ltac:(lia)).
    pose proof (Z.div_le_upper_bound pixelX 32 pixelX ltac:(lia) ltac:(lia)).
    lia. }
  rewrite Hidx.
  pose proof (Z.mod_pos_bound c 32 ltac:(lia)) as Hmc.
  pose proof (Z.mod_pos_bound pixelX 32 ltac:(lia)) as Hmp.
  pose proof (Z.div_mod c 32 ltac:(lia)) as Hdc.
  pose proof (Z.div_mod pixelX 32 ltac:(lia)) as Hdp.
  assert (Hcase : (r, c / 32) <> (pixelY, pixelX / 32)
                  \/ (r = pixelY /\ c / 32 = pixelX / 32)).
  { destruct (Z.eq_dec r pixelY), (Z.eq_dec (c / 32) (pixelX / 32));
      [right; auto | left; congruence ..]. }
  destruct Hcase as [Hother | [-> Hword]].
  - destruct (Int32.truthy fill); rewrite updateWord_other by assumption;
      reflexivity.
  - rewrite Hword.
    destruct (wordAt d pixelY (pixelX / 32)) as [w |] eqn:Hw.
    + destruct (Int32.truthy fill);
        rewrite (updateWord_wordAt _ _ _ _ _ Hw).
      * rewrite Int32Facts.testbit_and, Int32Facts.testbit_not, cell_bit by lia.
        destruct (Z.eqb_spec (31 - c mod 32) (31 - pixelX mod 32)); [lia |].
        apply Bool.andb_true_r.
      * rewrite Int32Facts.testbit_or, cell_bit by lia.
        destruct (Z.eqb_spec (31 - c mod 32) (31 - pixelX mod 32)); [lia |].
        apply Bool.orb_false_r.
    + assert (Hsame : forall f, updateWord d pixelY (pixelX / 32) f = d).
      { intros f. unfold updateWord. unfold wordAt in Hw.
        destruct (getZ d pixelY) as [row |]; [| reflexivity].
        rewrite Hw. reflexivity. }
      destruct (Int32.truthy fill); rewrite Hsame, Hw; reflexivity.
Qed.

Lemma updateWord_length d r x f : length (updateWord d r x f) = length d.
Proof.
  unfold updateWord. destruct (getZ d r) as [row |]; [| reflexivity].
  destruct (getZ row x); [apply length_setZ | reflexivity].
Qed.

Lemma downsample_length o img opacityT lightT fill n : forall pixelX pixelY d,
  length (downsample o img opacityT lightT fill n pixelX pixelY d) = length d.
Proof.
  induction n as [| n IH]; intros pixelX pixelY d; simpl; [reflexivity |].
  assert (H1 : length (if cellInk o img opacityT lightT pixelX pixelY
                       then markCell fill d pixelX pixelY else d) = length d).
  { destruct (cellInk o img opacityT lightT pixelX pixelY); [| reflexivity].
    unfold markCell. destruct (Int32.truthy fill); apply updateWord_length. }
  destruct (pixelX + 1 =? _); rewrite IH; exact H1.
Qed.

(** The loop leaves the cells beyond the columns of the image alone. *)
Lemma downsample_beyond o img opacityT lightT fill r c :
  0 <= 4 * img_width img < 2 ^ 31 -> 0 < pixelRatio o ->
  ceilDiv (img_width img) (pixelRatio o) <= c ->
  forall n pixelX pixelY d,
    0 <= pixelX < ceilDiv (img_width img) (pixelRatio o) ->
    inkAt (downsample o img opacityT lightT fill n pixelX pixelY d) r c
    = inkAt d r c.
Proof.
  intros Hw Hpr Hc.
  pose proof (ceilDiv_bounds (img_width img) (pixelRatio o) Hpr) as HXL.
  induction n as [| n IH]; intros pixelX pixelY d HpX; simpl; [reflexivity |].
  set (d1 := if cellInk _ _ _ _ _ _ then _ else d).
  assert (H1 : inkAt d1 r c = inkAt d r c).
  { subst d1. destruct (cellInk o img opacityT lightT pixelX pixelY);
      [| reflexivity].
    apply markCell_other; [nia | lia]. }
  destruct (Z.eqb_spec (pixelX + 1) (ceilDiv (img_width img) (pixelRatio o)));
    (rewrite IH by lia; exact H1).
Qed.

Lemma getPixelsFromImgData_data o img opacityT lightT fill forTag :
  pixels_data (getPixelsFromImgData o img opacityT lightT fill forTag)
  = downsample o img opacityT lightT fill
      (Z.to_nat (ceilDiv (img_width img) (pixelRatio o)
                 * ceilDiv (img_height img) (pixelRatio o))) 0 0
      (pixels_data
         (generatePixels o (img_width img) (img_height img) fill forTag)).
Proof. reflexivity. Qed.

(** The grid of a canvas, with or without a mask image, when [cut] is
    [false]: the cells beyond the width of the canvas are occupied. *)
Lemma canvasGrid_initPixels o maskImage :
  cut o = false -> 0 < pixelRatio o -> 0 <= 4 * width o < 2 ^ 31 ->
  (forall img, maskImage = Some img ->
               img_width img = width o /\ img_height img = height o) ->
  canvasGrid o (pixels_data (initPixels o maskImage)).
Proof.
  intros Hcut Hpr Hw Himg. destruct maskImage as [img |]; unfold initPixels;
    [| apply canvasGrid_generatePixels; [assumption | assumption | lia]].
  destruct (Himg img eq_refl) as [Hiw Hih].
  unfold loadMaskImage. rewrite getPixelsFromImgData_data, Hiw, Hih.
  set (XL := ceilDiv (width o) (pixelRatio o)).
  set (YL := ceilDiv (height o) (pixelRatio o)).
  set (d0 := pixels_data (generatePixels o (width o) (height o) (-1) false)).
  assert (Hle : gridLe (downsample o img (opacityThreshold o) (lightThreshold o)
                          (-1) (Z.to_nat (XL * YL)) 0 0 d0) d0).
  { apply downsample_le. reflexivity. }
  assert (Hlen : length (downsample o img (opacityThreshold o)
                           (lightThreshold o) (-1) (Z.to_nat (XL * YL)) 0 0 d0)
                 = length d0).
  { apply downsample_length. }
  split.
  - rewrite Hlen. subst d0. apply generatePixels_length.
  - intros r c Hc Hst.
    assert (Hst0 : stored d0 r c).
    { eapply optLe_is_Some; [apply Hle | exact Hst]. }
    assert (H0 : inkAt d0 r c = true).
    { unfold stored in Hst0. unfold inkAt. subst d0.
      rewrite generatePixels_wordAt in Hst0 |- *.
      destruct (_ && _ && _ && _); [| destruct Hst0; discriminate].
      pose proof (Z.mod_pos_bound c 32 ltac:(lia)) as Hm.
      destruct (c / 32 =? _); [| apply Z.bits_m1; lia].
      unfold tailFill. rewrite Hcut. simpl orb.
      destruct (Z.rem _ 32 =? 0); [apply Z.bits_m1; lia |].
      rewrite Int32Facts.testbit_or by lia.
      rewrite Z.bits_m1 by lia. reflexivity. }
    destruct (Z.le_gt_cases XL 0) as [Hempty | Hpos].
    + replace (Z.to_nat (XL * YL)) with 0%nat; [exact H0 |].
      pose proof (ceilDiv_nonneg (width o) (pixelRatio o) Hpr ltac:(lia)).
      fold XL in H. assert (XL = 0) by lia. subst XL. lia.
    + rewrite downsample_beyond; rewrite ?Hiw; try assumption; fold XL; lia.
Qed.

(** ** The spiral search *)

Lemma tryPlaceTag_false o grid pixels x y grid' :
  tryPlaceTag o grid pixels x y = (false, grid') -> grid' = grid.
Proof.
  unfold tryPlaceTag.
  destruct (collides _ _ _ _ _ _ 0 _); intros H.
  - injection H as <-. reflexivity.
  - discriminate.
Qed.

Section ProbeFacts.

Variables (o : Options) (whScale : Z -> Z) (grid mask : Pixels).

Lemma firstAccepted_app l1 l2 :
  firstAccepted o grid mask (l1 ++ l2)
  = match firstAccepted o grid mask l1 with
    | (Some p, grid1) => (Some p, grid1)
    | (None, _) => firstAccepted o grid mask l2
    end.
Proof.
  induction l1 as [| [x y] rest IH]; simpl; [reflexivity |].
  destruct (tryPlaceTag o grid mask x y) as [[|] grid1]; [reflexivity | exact IH].
Qed.

Lemma firstAccepted_none places grid1 :
  firstAccepted o grid mask places = (None, grid1) -> grid1 = grid.
Proof.
  induction places as [| [x y] rest IH]; simpl; intros H.
  - injection H as <-. reflexivity.
  - destruct (tryPlaceTag o grid mask x y) as [[|] g]; [discriminate | auto].
Qed.

(** A leg returns the first place it tries that is accepted, or ends
    [rest] steps further. *)
Lemma legX_probes xDir y n : forall x,
  legX o grid mask xDir y n x
  = match firstAccepted o grid mask (legXProbes o mask xDir y n x) with
    | (Some (px, py), grid1) => Placed px py grid1
    | (None, grid1) => Moved (x + xDir * pixelRatio o * Z.of_nat n) grid1
    end.
Proof.
  induction n as [| n IH]; intros x.
  - simpl. f_equal. lia.
  - cbn [legX legXProbes].
    replace (x + xDir * pixelRatio o * Z.of_nat (S n))
      with (x + xDir * pixelRatio o + xDir * pixelRatio o * Z.of_nat n) by lia.
    destruct ((_ <? _) || (_ <? _)); [apply IH |].
    cbn [firstAccepted].
    destruct (tryPlaceTag o grid mask (x + xDir * pixelRatio o) y)
      as [[|] grid1] eqn:Htry; [reflexivity |].
    apply tryPlaceTag_false in Htry. subst grid1. apply IH.
Qed.

Lemma legY_probes yDir x n : forall y,
  legY o grid mask yDir x n y
  = match firstAccepted o grid mask (legYProbes o mask yDir x n y) with
    | (Some (px, py), grid1) => Placed px py grid1
    | (None, grid1) => Moved (y + yDir * pixelRatio o * Z.of_nat n) grid1
    end.
Proof.
  induction n as [| n IH]; intros y.
  - simpl. f_equal. lia.
  - cbn [legY legYProbes].
    replace (y + yDir * pixelRatio o * Z.of_nat (S n))
      with (y + yDir * pixelRatio o + yDir * pixelRatio o * Z.of_nat n) by lia.
    destruct ((_ <? _) || (_ <? _)); [apply IH |].
    cbn [firstAccepted].
    destruct (tryPlaceTag o grid mask x (y + yDir * pixelRatio o))
      as [[|] grid1] eqn:Htry; [reflexivity |].
    apply tryPlaceTag_false in Htry. subst grid1. apply IH.
Qed.

Hypothesis whScale_nonneg : forall step, 0 < step -> 0 <= whScale step.

(** The rings return the first place of the spiral that is accepted. *)
Lemma spiral_probes endLen : forall fuel step x y xDir yDir,
  endLen < 2 ^ 30 ->
  1 <= step < 2 ^ 31 ->
  (Z.to_nat (2 * endLen - step) <= fuel)%nat ->
  spiral o whScale fuel grid mask endLen step x y xDir yDir
  = Some (firstAccepted o grid mask
            (spiralProbes o whScale fuel mask endLen step x y xDir yDir)).
Proof.
  intros fuel. induction fuel as [| fuel IH];
    intros step x y xDir yDir HendLen Hstep Hfuel.
  - cbn [spiral spiralProbes]. rewrite Int32Facts.toInt32_small by lia.
    rewrite Z.shiftr_div_pow2 by lia. change (2 ^ 1) with 2.
    destruct (Z.ltb_spec (step / 2) endLen) as [Hlt | Hge]; [| reflexivity].
    pose proof (Z.div_mod step 2 ltac:(lia)).
    pose proof (Z.mod_pos_bound step 2 ltac:(lia)). lia.
  - cbn [spiral spiralProbes]. rewrite Int32Facts.toInt32_small by lia.
    rewrite Z.shiftr_div_pow2 by lia. change (2 ^ 1) with 2.
    destruct (Z.ltb_spec (step / 2) endLen) as [Hlt | Hge]; [| reflexivity].
    assert (Hnext : 1 <= step + 1 < 2 ^ 31).
    { pose proof (Z.div_mod step 2 ltac:(lia)).
      pose proof (Z.mod_pos_bound step 2 ltac:(lia)). lia. }
    pose proof (whScale_nonneg step ltac:(lia)) as Hrest.
    destruct (Z.ltb_spec step 0) as [| _]; [lia |].
    destruct (Z.ltb_spec (whScale step) 0) as [| _]; [lia |].
    rewrite !firstAccepted_app.
    set (x1 := x + xDir * pixelRatio o * step).
    set (y1 := y + yDir * pixelRatio o * whScale step).
    assert (HX : (if (y <? - pixels_height mask) || (height o <? y)
                  then Some (Moved x1 grid)
                  else Some (legX o grid mask xDir y (Z.to_nat step) x))
                 = Some
                     match firstAccepted o grid mask
                             (if (y <? - pixels_height mask) || (height o <? y)
                              then []
                              else legXProbes o mask xDir y (Z.to_nat step) x)
                     with
                     | (Some (px, py), grid1) => Placed px py grid1
                     | (None, grid1) => Moved x1 grid1
                     end).
    { destruct ((_ <? _) || (_ <? _)); [reflexivity |].
      rewrite legX_probes, Z2Nat.id by lia. reflexivity. }
    rewrite HX. clear HX.
    destruct (firstAccepted o grid mask
                (if (y <? - pixels_height mask) || (height o <? y) then []
                 else legXProbes o mask xDir y (Z.to_nat step) x))
      as [[[px py] |] grid1] eqn:HfX; [reflexivity |].
    apply firstAccepted_none in HfX. subst grid1.
    assert (HY : (if (x1 <? - pixels_width mask) || (width o <? x1)
                  then Some (Moved y1 grid)
                  else Some (legY o grid mask yDir x1
                               (Z.to_nat (whScale step)) y))
                 = Some
                     match firstAccepted o grid mask
                             (if (x1 <? - pixels_width mask) || (width o <? x1)
                              then []
                              else legYProbes o mask yDir x1
                                     (Z.to_nat (whScale step)) y)
                     with
                     | (Some (px, py), grid1) => Placed px py grid1
                     | (None, grid1) => Moved y1 grid1
                     end).
    { destruct ((_ <? _) || (_ <? _)); [reflexivity |].
      rewrite legY_probes, Z2Nat.id by lia. reflexivity. }
    rewrite HY. clear HY.
    destruct (firstAccepted o grid mask
                (if (x1 <? - pixels_width mask) || (width o <? x1) then []
                 else legYProbes o mask yDir x1 (Z.to_nat (whScale step)) y))
      as [[[px py] |] grid1] eqn:HfY; [reflexivity |].
    apply firstAccepted_none in HfY. subst grid1.
    apply IH; [assumption | assumption | lia].
Qed.

Lemma placeTag_probes fuel xDir yDir :
  searchBound o mask < 2 ^ 30 ->
  (Z.to_nat (2 * searchBound o mask) <= fuel)%nat ->
  placeTag o whScale fuel xDir yDir grid mask
  = Some (firstAccepted o grid mask
            (placeProbes o whScale fuel xDir yDir mask)).
Proof.
  intros Hbound Hfuel. unfold placeTag, placeProbes. cbn [firstAccepted].
  destruct (tryPlaceTag o grid mask _ _) as [[|] grid1] eqn:Htry;
    [reflexivity |].
  apply tryPlaceTag_false in Htry. subst grid1.
  apply spiral_probes; [assumption | lia | lia].
Qed.

Lemma firstAccepted_result places :
  searchResult o grid mask (fst (firstAccepted o grid mask places))
    (snd (firstAccepted o grid mask places)).
Proof.
  induction places as [| [x y] rest IH]; simpl; [reflexivity |].
  destruct (tryPlaceTag o grid mask x y) as [[|] grid1] eqn:Htry;
    [exact Htry | exact IH].
Qed.

End ProbeFacts.


(** On a canvas of ordinary size, [endLen] is the quotient of the extent by
    [pixelRatio], rounded down, plus one. *)
Lemma searchBound_extent o mask :
  0 < pixelRatio o -> 0 <= searchExtent o mask < 2 ^ 30 - 1 ->
  searchBound o mask = searchExtent o mask / pixelRatio o + 1.
Proof.
  intros Hpr Hext. unfold searchBound, Int32.sar0.
  rewrite Z.quot_div_nonneg by lia.
  replace (searchExtent o mask + pixelRatio o)
    with (searchExtent o mask + 1 * pixelRatio o) by lia.
  rewrite Z.div_add by lia.
  pose proof (Z.div_pos (searchExtent o mask) (pixelRatio o) ltac:(lia) Hpr).
  pose proof (Z.div_le_upper_bound (searchExtent o mask) (pixelRatio o)
                (searchExtent o mask) Hpr ltac:(nia)).
  apply Int32Facts.toInt32_small. lia.
Qed.

(** As long as the loop runs, the rings of [spiralProbes] are the next
    [2 endLen - step] rings. *)
Lemma spiralProbes_rings o whScale mask endLen : forall fuel step x y xDir yDir,
  endLen < 2 ^ 30 ->
  1 <= step < 2 ^ 31 ->
  (Z.to_nat (2 * endLen - step) <= fuel)%nat ->
  spiralProbes o whScale fuel mask endLen step x y xDir yDir
  = ringsProbes o whScale (Z.to_nat (2 * endLen - step)) mask step x y xDir
      yDir.
Proof.
  intros fuel. induction fuel as [| fuel IH];
    intros step x y xDir yDir HendLen Hstep Hfuel;
    cbn [spiralProbes]; rewrite Int32Facts.toInt32_small by lia;
    rewrite Z.shiftr_div_pow2 by lia; change (2 ^ 1) with 2;
    pose proof (Z.div_mod step 2 ltac:(lia)) as Hdm;
    pose proof (Z.mod_pos_bound step 2 ltac:(lia)) as Hm;
    destruct (Z.ltb_spec (step / 2) endLen) as [Hlt | Hge].
  - lia.
  - replace (Z.to_nat (2 * endLen - step)) with 0%nat by lia. reflexivity.
  - replace (Z.to_nat (2 * endLen - step))
      with (S (Z.to_nat (2 * endLen - (step + 1)))) by lia.
    cbn [ringsProbes]. do 2 f_equal. apply IH; lia.
  - replace (Z.to_nat (2 * endLen - step)) with 0%nat by lia. reflexivity.
Qed.

(** C5. The spiral search terminates. With [M] the largest of [startX],
    [width - startX], [startY] and [height - startY], the loop runs the
    rings [step = 1, ..., 2 (M / pixelRatio + 1) - 1], the quotient rounded
    down, and leaves at the next one, where [step >> 1] reaches
    [M / pixelRatio + 1]. The search returns the first place that
    [tryPlaceTag] accepts among the start and the places of those rings, in
    the order of the spiral, with the grid that [tryPlaceTag] leaves, or
    reports failure and leaves the grid as it was. *)
Theorem placeTag_terminates o whScale grid mask fuel xDir yDir :
  let startX := Int32.sar0 (Z.quot (width o - pixels_width mask) 2) in
  let startY := Int32.sar0 (Z.quot (height o - pixels_height mask) 2) in
  let M :=
    Z.max (Z.max startX (width o - startX))
      (Z.max startY (height o - startY)) in
  let rings := 2 * (M / pixelRatio o + 1) - 1 in
  0 < pixelRatio o ->
  0 <= M < 2 ^ 30 - 1 ->
  (forall step, 0 < step -> 0 <= whScale step) ->
  (Z.to_nat rings <= fuel)%nat ->
  exists r grid',
    placeTag o whScale fuel xDir yDir grid mask = Some (r, grid')
    /\ (r, grid')
       = firstAccepted o grid mask
           ((startX, startY)
            :: ringsProbes o whScale (Z.to_nat rings) mask 1 startX startY
                 xDir yDir)
    /\ match r with
       | Some (x, y) => tryPlaceTag o grid mask x y = (true, grid')
       | None => grid' = grid
       end.
Proof.
  intros startX startY M rings Hpr Hext Hscale Hfuel.
  assert (Hbound : searchBound o mask = M / pixelRatio o + 1)
    by (apply searchBound_extent; assumption).
  pose proof (Z.div_le_upper_bound M (pixelRatio o) M Hpr ltac:(nia)) as Hq.
  pose proof (Z.div_pos M (pixelRatio o) ltac:(lia) Hpr) as Hq0.
  assert (Hplace :
            placeTag o whScale fuel xDir yDir grid mask
            = Some (firstAccepted o grid mask
                      ((startX, startY)
                       :: ringsProbes o whScale (Z.to_nat rings) mask 1
                            startX startY xDir yDir))).
  { unfold placeTag. fold startX startY. cbn [firstAccepted].
    destruct (tryPlaceTag o grid mask startX startY) as [[|] grid1] eqn:Htry;
      [reflexivity |].
    apply tryPlaceTag_false in Htry. subst grid1.
    rewrite (spiral_probes o whScale grid mask Hscale (searchBound o mask))
      by (rewrite ?Hbound; lia).
    rewrite spiralProbes_rings by (rewrite ?Hbound; lia).
    rewrite Hbound. reflexivity. }
  pose proof (firstAccepted_result o grid mask
                ((startX, startY)
                 :: ringsProbes o whScale (Z.to_nat rings) mask 1 startX
                      startY xDir yDir)) as Hres.
  destruct (firstAccepted o grid mask _) as [r grid'].
  exists r, grid'. auto.
Qed.

Lemma placeTag_terminates_witness :
  exists r grid',
    placeTag exSmall exSmallScale 3 1 1 exSecondFree exDot = Some (r, grid')
    /\ (r, grid')
       = firstAccepted exSmall exSecondFree exDot
           ((3, 2) :: ringsProbes exSmall exSmallScale 3 exDot 1 3 2 1 1)
    /\ match r with
       | Some (x, y) => tryPlaceTag exSmall exSecondFree exDot x y = (true, grid')
       | None => grid' = exSecondFree
       end.
Proof.
  apply (placeTag_terminates exSmall exSmallScale exSecondFree exDot 3 1 1).
  - reflexivity.
  - split; [discriminate | reflexivity].
  - intros step Hstep. unfold exSmallScale. apply Z.div_pos; lia.
  - vm_compute. lia.
Defined.

(** The search of the witness finds its place on the first ring. *)
Example placeTag_second_free :
  placeTag exSmall exSmallScale 3 1 1 exSecondFree exDot
  = Some (Some (7, 2), mkPixels 8 6 [[-1]; [-1]]).
Proof. vm_compute. reflexivity. Qed.

(** C5, as stated, fails. On the canvas of [exSmall] a mask of one pixel
    starts at [(3, 2)], so [M] is 5 and [M / pixelRatio + 1] is 2.25. The
    loop leaves at [step = 4], where [step >> 1] is 2, which does not exceed
    2.25: failure is reported although ring 4 goes through [(7, 6)], a place
    that no earlier ring has tried and that [tryPlaceTag] accepts. *)
Lemma placeTag_gives_up_early :
  ~ (forall o whScale grid mask fuel xDir yDir,
       let startX := Int32.sar0 (Z.quot (width o - pixels_width mask) 2) in
       let startY := Int32.sar0 (Z.quot (height o - pixels_height mask) 2) in
       let M :=
         Z.max (Z.max startX (width o - startX))
           (Z.max startY (height o - startY)) in
       let rings := 2 * (M / pixelRatio o + 1) in
       0 < pixelRatio o ->
       0 <= M < 2 ^ 30 - 1 ->
       (forall step, 0 < step -> 0 <= whScale step) ->
       (Z.to_nat rings <= fuel)%nat ->
       placeTag o whScale fuel xDir yDir grid mask = Some (None, grid) ->
       forall x y,
         In (x, y)
           (ringsProbes o whScale (Z.to_nat rings) mask 1 startX startY xDir
              yDir) ->
         fst (tryPlaceTag o grid mask x y) = false).
Proof.
  intros H.
  specialize (H exSmall exSmallScale exLastFree exDot 4%nat 1 1).
  cbv zeta in H.
  assert (Hscale : forall step, 0 < step -> 0 <= exSmallScale step).
  { intros step Hstep. unfold exSmallScale. apply Z.div_pos; lia. }
  specialize (H eq_refl ltac:(split; [discriminate | reflexivity]) Hscale
                ltac:(vm_compute; lia) ltac:(vm_compute; reflexivity) 7 6).
  assert (Hin : In (7, 6)
                  (ringsProbes exSmall exSmallScale 4 exDot 1 3 2 1 1)).
  { vm_compute. tauto. }
  specialize (H Hin). vm_compute in H. discriminate.
Qed.

(** ** The orchestrator *)

Lemma byWeight_trans : Transitive byWeight.
Proof. intros a b c Hab Hbc. unfold byWeight in *. eapply Qle_trans; eassumption. Qed.

Lemma insertTag_perm tag sorted : insertTag tag sorted ≡ₚ tag :: sorted.
Proof.
  induction sorted as [| t rest IH]; simpl; [reflexivity |].
  destruct (Qlt_le_dec (weight tag) (weight t)); [| reflexivity].
  rewrite IH. apply Permutation_swap.
Qed.

Lemma insertTag_sorted tag sorted :
  StronglySorted byWeight sorted ->
  StronglySorted byWeight (insertTag tag sorted).
Proof.
  induction 1 as [| t rest Hs IH Hall]; simpl.
  - repeat constructor.
  - destruct (Qlt_le_dec (weight tag) (weight t)) as [Hlt | Hle].
    + constructor; [exact IH |].
      rewrite insertTag_perm. constructor; [| exact Hall].
      unfold byWeight. apply Qlt_le_weak, Hlt.
    + constructor; [constructor; assumption |].
      constructor; [exact Hle |].
      eapply Forall_impl; [exact Hall |]. intros b Hb.
      eapply byWeight_trans; eassumption.
Qed.

Lemma sortTags_sorted tags : StronglySorted byWeight (sortTags tags).
Proof.
  induction tags as [| tag rest IH]; simpl; [constructor |].
  apply insertTag_sorted, IH.
Qed.

Lemma sortTags_perm tags : sortTags tags ≡ₚ tags.
Proof.
  induction tags as [| tag rest IH]; simpl; [reflexivity |].
  rewrite insertTag_perm, IH. reflexivity.
Qed.

(** The sort is stable: the tags of any one weight come out in the order
    in which they went in. *)
Lemma insertTag_stable w tag sorted :
  List.filter (fun t => Qeq_bool (weight t) w) (insertTag tag sorted)
  = List.filter (fun t => Qeq_bool (weight t) w) (tag :: sorted).
Proof.
  induction sorted as [| t rest IH]; [reflexivity |].
  cbn [insertTag].
  destruct (Qlt_le_dec (weight tag) (weight t)) as [Hlt | Hle];
    [| reflexivity].
  cbn [List.filter] in *. rewrite IH.
  destruct (Qeq_bool (weight t) w) eqn:Ht; [| reflexivity].
  destruct (Qeq_bool (weight tag) w) eqn:Htag; [| reflexivity].
  apply Qeq_bool_iff in Ht, Htag. exfalso.
  apply (Qlt_irrefl w). rewrite <- Htag at 1. rewrite <- Ht. exact Hlt.
Qed.

Lemma sortTags_stable w tags :
  List.filter (fun t => Qeq_bool (weight t) w) (sortTags tags)
  = List.filter (fun t => Qeq_bool (weight t) w) tags.
Proof.
  induction tags as [| tag rest IH]; [reflexivity |].
  cbn [sortTags foldr]. fold (sortTags rest).
  rewrite insertTag_stable. cbn [List.filter]. rewrite IH. reflexivity.
Qed.


Section OrchestratorFacts.

Variables (o : Options) (whScale : Z -> Z).
Variables (measureBox : TagSpec -> Z * Z).
Variables (rasterize : TagSpec -> Z -> Z -> ImageData).

Local Abbreviation handleTag := (handleTag o whScale measureBox rasterize).
Local Abbreviation handleTags := (handleTags o whScale measureBox rasterize).
Local Abbreviation getTagPixels := (getTagPixels o measureBox rasterize).

(** What every result of [handleTag] has, placed or not. *)
Lemma handleTag_result fuel rnd c tag td c' :
  handleTag fuel rnd c tag = Some (td, c') ->
  resultOf tag td
  /\ td_fontSize td
     = fontSizeOf o (minTagWeight c) (maxTagWeight c) (weight tag)
  /\ maxTagWeight c' = maxTagWeight c
  /\ minTagWeight c' = minTagWeight c.
Proof.
  unfold handleTag, resultOf.
  destruct (getTagPixels _) as [[mask |] |]; [| | discriminate].
  - destruct (placeTag _ _ _ _ _ _ _) as [[[[x y] |] grid1] |];
      intros H; [injection H as <- <- | injection H as <- <- | discriminate];
      simpl; auto.
  - intros H. injection H as <- <-. simpl. auto.
Qed.

(** A tag whose box does not fit gets its result without any search. *)
Lemma handleTag_null fuel rnd c tag :
  getTagPixels (tagSpec o rnd c tag) = Some None ->
  exists td,
    handleTag fuel rnd c tag = Some (td, c)
    /\ td_rendered td = false /\ td_x td = None /\ td_y td = None.
Proof.
  intros Hnull. unfold handleTag. rewrite Hnull.
  eexists. split; [reflexivity |]. simpl. auto.
Qed.

Lemma getTagPixels_oversized s :
  width o < fst (measureBox s) \/ height o < snd (measureBox s) ->
  getTagPixels s = Some None.
Proof.
  intros Hbig. unfold getTagPixels.
  destruct (measureBox s) as [pixelWidth pixelHeight]. simpl in Hbig.
  destruct (Z.ltb_spec (height o) pixelHeight),
    (Z.ltb_spec (width o) pixelWidth); simpl; try reflexivity; lia.
Qed.

(** On a canvas without columns no box gets a mask: it is too wide, or
    the canvas read throws. *)
Lemma getTagPixels_no_columns s mask :
  width o = 0 -> 0 <= fst (measureBox s) ->
  getTagPixels s <> Some (Some mask).
Proof.
  intros Hw Hpw. unfold getTagPixels.
  destruct (measureBox s) as [pixelWidth pixelHeight]. simpl in Hpw.
  destruct (Z.ltb_spec (height o) pixelHeight),
    (Z.ltb_spec (width o) pixelWidth); simpl; try discriminate.
  destruct (Z.eqb_spec pixelWidth 0); simpl; [discriminate | lia].
Qed.

Variable bound : Z.

Hypothesis whScale_nonneg : forall step, 0 < step -> 0 <= whScale step.
Hypothesis bound_small : bound < 2 ^ 30.
Hypothesis masks_bounded :
  forall s mask,
    getTagPixels s = Some (Some mask) -> searchBound o mask <= bound.




Lemma handleTags_range fuel rnd sorted : forall i c result c',
  handleTags fuel rnd i c sorted = Some (result, c') ->
  maxTagWeight c' = maxTagWeight c /\ minTagWeight c' = minTagWeight c
  /\ Forall (fun td =>
               td_fontSize td
               = fontSizeOf o (minTagWeight c) (maxTagWeight c)
                   (td_weight td)) result.
Proof.
  induction sorted as [| tag rest IH]; intros i c result c' H; simpl in H.
  - injection H as <- <-. auto.
  - destruct (handleTag fuel (rnd i) c tag) as [[td c1] |] eqn:Htag;
      [| discriminate].
    destruct (handleTags fuel rnd (S i) c1 rest) as [[res c2] |] eqn:Hrest;
      [| discriminate].
    injection H as <- <-.
    destruct (handleTag_result _ _ _ _ _ _ Htag) as ([_ Hw] & Hfs & Hmax & Hmin).
    destruct (IH _ _ _ _ Hrest) as (Hmax2 & Hmin2 & Hall).
    rewrite Hmax in Hmax2. rewrite Hmin in Hmin2. rewrite Hmax, Hmin in Hall.
    split; [exact Hmax2 |]. split; [exact Hmin2 |].
    constructor; [rewrite Hw; exact Hfs | exact Hall].
Qed.

End OrchestratorFacts.

(** ** Batches *)

Section DrawFacts.

Variables (o : Options) (whScale : Z -> Z).
Variables (measureBox : TagSpec -> Z * Z).
Variables (rasterize : TagSpec -> Z -> Z -> ImageData).

Local Abbreviation draw := (draw o whScale measureBox rasterize).
Local Abbreviation performDraw := (performDraw o whScale measureBox rasterize).
Local Abbreviation handleTags := (handleTags o whScale measureBox rasterize).
Local Abbreviation getTagPixels := (getTagPixels o measureBox rasterize).

(** [draw] on a batch that is not empty. *)
Lemma draw_unfold fuel rnd c (heap : gmap positive (list Tag)) tags contents :
  heap !! tags = Some contents -> contents <> [] ->
  draw fuel rnd c heap tags
  = match handleTags fuel rnd 0 (observeAll c contents) (sortTags contents) with
    | Some (result, c1) =>
        Some (result, c1, <[tags := sortTags contents]> heap)
    | None => None
    end.
Proof.
  intros Hheap Hne. unfold draw, performDraw.
  rewrite Hheap.
  destruct contents as [| tag rest]; [congruence |]. simpl length.
  rewrite lookup_insert_eq. reflexivity.
Qed.



Lemma draw_heap fuel rnd c (heap : gmap positive (list Tag)) tags contents
    result c' heap' :
  heap !! tags = Some contents -> contents <> [] ->
  draw fuel rnd c heap tags = Some (result, c', heap') ->
  heap' = <[tags := sortTags contents]> heap.
Proof.
  intros Hheap Hne. rewrite (draw_unfold _ _ _ _ _ _ Hheap Hne).
  destruct (handleTags _ _ _ _ _) as [[res c1] |]; [| discriminate].
  intros H. injection H as <- <- <-. reflexivity.
Qed.

Lemma draw_range fuel rnd c (heap : gmap positive (list Tag)) tags contents
    result c' heap' :
  heap !! tags = Some contents ->
  draw fuel rnd c heap tags = Some (result, c', heap') ->
  maxTagWeight c' = maxTagWeight (observeAll c contents)
  /\ minTagWeight c' = minTagWeight (observeAll c contents)
  /\ Forall (fun td =>
               td_fontSize td
               = fontSizeOf o (minTagWeight c') (maxTagWeight c')
                   (td_weight td)) result.
Proof.
  intros Hheap. destruct contents as [| tag rest].
  - unfold draw. rewrite Hheap. simpl.
    intros H. injection H as <- <- <-. auto.
  - rewrite (draw_unfold _ _ _ _ _ _ Hheap ltac:(discriminate)).
    destruct (handleTags _ _ _ _ _) as [[res c1] |] eqn:Hloop;
      [| discriminate].
    intros H. injection H as <- <- <-.
    destruct (handleTags_range _ _ _ _ _ _ _ _ _ _ _ Hloop) as (Hmax & Hmin & Hall).
    rewrite Hmax, Hmin. auto.
Qed.

End DrawFacts.

(** ** A bound on every search of a canvas *)




Lemma exScale_nonneg step : 0 < step -> 0 <= exScale step.
Proof. intros H. unfold exScale. apply Z.div_pos; lia. Qed.




(** The tag before it is placed, when it is alone. *)
Example draw_before_empty_text :
  (fun r => map (fun td => (td_text td, td_x td, td_rendered td))
              (fst (fst r)))
    <$> draw exBare exScale (truncBox exTextBox) exRaster 0 exDraws
          (newCloud exBare None)
          {[ 1%positive := [mkTag "ab" 2 (Some 0%Q) None] ]} 1%positive
  = Some [("ab", Some 64, true)].
Proof. vm_compute. reflexivity. Qed.


(** C8. A tag whose box, once its extents are truncated to integers, is
    wider or higher than the canvas gets no mask, and its result is
    unrendered with [NaN] coordinates, whatever the fuel of the search: the
    search does not run and the cloud is as before. *)
Theorem handleTag_oversized o whScale textBox rasterize fuel rnd c tag :
  width o < truncate (fst (textBox (tagSpec o rnd c tag)))
  \/ height o < truncate (snd (textBox (tagSpec o rnd c tag))) ->
  getTagPixels o (truncBox textBox) rasterize (tagSpec o rnd c tag)
  = Some None
  /\ handleTag o whScale (truncBox textBox) rasterize fuel rnd c tag
     = Some (mkTagData (text tag) (weight tag)
               (fontSizeOf o (minTagWeight c) (maxTagWeight c) (weight tag))
               (tagAngle o rnd tag) (tagColor rnd tag) None None false,
             c).
Proof.
  intros Hbig.
  pose proof (getTagPixels_oversized o (truncBox textBox) rasterize _ Hbig)
    as Hnull.
  split; [exact Hnull |].
  unfold handleTag. rewrite Hnull. reflexivity.
Qed.

Lemma handleTag_oversized_witness :
  getTagPixels (exOptions false) (truncBox exTextBox) exRaster
    (tagSpec (exOptions false) (exDraws 0) exCloud
       (mkTag "0123456789" 2 (Some 0%Q) None)) = Some None
  /\ handleTag (exOptions false) exScale (truncBox exTextBox) exRaster 0
       (exDraws 0) exCloud (mkTag "0123456789" 2 (Some 0%Q) None)
     = Some (mkTagData "0123456789" 2
               (fontSizeOf (exOptions false) (minTagWeight exCloud)
                  (maxTagWeight exCloud) 2)
               (tagAngle (exOptions false) (exDraws 0)
                  (mkTag "0123456789" 2 (Some 0%Q) None))
               "#123456" None None false,
             exCloud).
Proof.
  apply (handleTag_oversized (exOptions false) exScale exTextBox exRaster 0
           (exDraws 0) exCloud (mkTag "0123456789" 2 (Some 0%Q) None)).
  left. reflexivity.
Defined.

(** C8, as stated, fails. A box 128.9 pixels wide exceeds the canvas of
    [exOptions], 128 pixels wide; [>> 0] makes it 128, the test of
    [getTagPixels] lets it pass, and the tag is placed and rendered. *)
Lemma handleTag_fraction_over :
  ~ (forall o whScale textBox rasterize fuel rnd c tag,
       (inject_Z (width o) < fst (textBox (tagSpec o rnd c tag)))%Q
       \/ (inject_Z (height o) < snd (textBox (tagSpec o rnd c tag)))%Q ->
       exists td c',
         handleTag o whScale (truncBox textBox) rasterize fuel rnd c tag
         = Some (td, c')
         /\ td_rendered td = false /\ td_x td = None /\ td_y td = None).
Proof.
  intros H.
  destruct (H (exOptions false) exScale exWideBox exRaster 66%nat (exDraws 0)
              exCloud (mkTag "ab" 1 (Some 0%Q) None))
    as (td & c' & Hh & Hr & _).
  - left. reflexivity.
  - vm_compute in Hh. injection Hh as <- <-. discriminate.
Qed.

(** C10. [draw] sorts the array of the caller in place: after the call the
    array holds the tags of the batch in descending order of weight, and no
    other array has changed. *)
Theorem draw_sorts_in_place o whScale measureBox rasterize fuel rnd c
    (heap : gmap positive (list Tag)) tags contents result c' heap' :
  heap !! tags = Some contents -> contents <> [] ->
  draw o whScale measureBox rasterize fuel rnd c heap tags
  = Some (result, c', heap') ->
  exists sorted,
    heap' !! tags = Some sorted
    /\ sorted ≡ₚ contents
    /\ StronglySorted byWeight sorted
    /\ forall other, other <> tags -> heap' !! other = heap !! other.
Proof.
  intros Hheap Hne Hdraw.
  rewrite (draw_heap o whScale measureBox rasterize fuel rnd c heap tags
             contents result c' heap' Hheap Hne Hdraw).
  exists (sortTags contents).
  split; [apply lookup_insert_eq |].
  split; [apply sortTags_perm |].
  split; [apply sortTags_sorted |].
  intros other Hother. apply lookup_insert_ne. congruence.
Qed.

Lemma draw_sorts_in_place_witness :
  match exDraw exCloud exTags with
  | Some (_, _, heap') =>
      exists sorted,
        heap' !! 1%positive = Some sorted
        /\ sorted ≡ₚ exTags
        /\ StronglySorted byWeight sorted
        /\ forall other, other <> 1%positive ->
             heap' !! other
             = ({[ 1%positive := exTags ]} : gmap positive (list Tag)) !! other
  | None => False
  end.
Proof.
  destruct (exDraw exCloud exTags) as [[[result c'] heap'] |] eqn:Hdraw.
  - apply (draw_sorts_in_place (exOptions false) exScale exMeasure exRaster 66
             exDraws exCloud {[ 1%positive := exTags ]} 1%positive exTags
             result c' heap').
    + reflexivity.
    + discriminate.
    + exact Hdraw.
  - vm_compute in Hdraw. discriminate.
Defined.

(** ** The weight range *)

Lemma rangeOf_same ws c c' :
  maxTagWeight c' = maxTagWeight c -> minTagWeight c' = minTagWeight c ->
  rangeOf ws c -> rangeOf ws c'.
Proof. unfold rangeOf. intros -> ->. tauto. Qed.

Lemma rangeOf_observe ws c w :
  rangeOf ws c -> rangeOf (ws ++ [w]) (observe c w).
Proof.
  intros (H0 & Hub & Hmax & Hmin). unfold observe.
  set (c1 := if Qlt_le_dec (maxTagWeight c) w then _ else c).
  assert (Hc1 : (0 <= maxTagWeight c1)%Q
                /\ (forall w', In w' (ws ++ [w]) -> (w' <= maxTagWeight c1)%Q)
                /\ (maxTagWeight c1 = 0%Q \/ In (maxTagWeight c1) (ws ++ [w]))
                /\ minTagWeight c1 = minTagWeight c).
  { subst c1. destruct (Qlt_le_dec (maxTagWeight c) w) as [Hlt | Hle]; simpl.
    - split; [eapply Qle_trans; [exact H0 | apply Qlt_le_weak, Hlt] |].
      split; [| split; [right; apply in_or_app; right; left; reflexivity
                       | reflexivity]].
      intros w' Hin. apply in_app_or in Hin as [Hin | [<- | []]].
      + eapply Qle_trans; [apply Hub, Hin | apply Qlt_le_weak, Hlt].
      + apply Qle_refl.
    - split; [exact H0 |].
      split; [| split; [destruct Hmax as [Hz | Hin];
                        [left; exact Hz | right; apply in_or_app; left; exact Hin]
                       | reflexivity]].
      intros w' Hin. apply in_app_or in Hin as [Hin | [<- | []]].
      + apply Hub, Hin.
      + exact Hle. }
  destruct Hc1 as (H0' & Hub' & Hmax' & Hmineq).
  unfold rangeOf. rewrite Hmineq.
  destruct (minTagWeight c) as [m |].
  - destruct Hmin as [Hin Hlb].
    destruct (Qlt_le_dec w m) as [Hlt | Hle]; simpl.
    + repeat split; try assumption.
      * apply in_or_app. right. left. reflexivity.
      * intros w' Hw'. apply in_app_or in Hw' as [Hw' | [<- | []]].
        -- eapply Qle_trans; [apply Qlt_le_weak, Hlt | apply Hlb, Hw'].
        -- apply Qle_refl.
    + rewrite Hmineq. repeat split; try assumption.
      * apply in_or_app. left. exact Hin.
      * intros w' Hw'. apply in_app_or in Hw' as [Hw' | [<- | []]].
        -- apply Hlb, Hw'.
        -- exact Hle.
  - subst ws. simpl in *. repeat split; try assumption.
    + left. reflexivity.
    + intros w' [<- | []]. apply Qle_refl.
Qed.

Lemma rangeOf_observeAll tags : forall ws c,
  rangeOf ws c -> rangeOf (ws ++ map weight tags) (observeAll c tags).
Proof.
  induction tags as [| tag rest IH]; intros ws c H; simpl.
  - rewrite app_nil_r. exact H.
  - change (ws ++ weight tag :: map weight rest)
      with (ws ++ [weight tag] ++ map weight rest).
    rewrite app_assoc. apply IH, rangeOf_observe, H.
Qed.

Lemma rangeOf_new o maskImage : rangeOf [] (newCloud o maskImage).
Proof.
  unfold rangeOf. simpl. repeat split; auto.
  - apply Qle_refl.
  - intros w [].
Qed.

Lemma rangeOf_session o whScale measureBox rasterize maskImage fuel rnd calls :
  forall ws c c',
    rangeOf ws c ->
    session o whScale measureBox rasterize maskImage fuel rnd c calls = Some c' ->
    rangeOf (ws ++ submitted calls) c'.
Proof.
  induction calls as [| [contents |] rest IH]; intros ws c c' Hr Hs;
    simpl in Hs.
  - injection Hs as <-. simpl. rewrite app_nil_r. exact Hr.
  - destruct (draw _ _ _ _ _ _ _ _ _) as [[[result c1] heap1] |] eqn:Hdraw;
      [| discriminate].
    simpl. rewrite app_assoc. apply (IH _ c1 c'); [| exact Hs].
    destruct (draw_range o whScale measureBox rasterize fuel rnd c
                {[ 1%positive := contents ]} 1%positive contents result c1
                heap1 (lookup_singleton_eq _ _) Hdraw) as (Hmax & Hmin & _).
    eapply rangeOf_same; [exact Hmax | exact Hmin |].
    apply rangeOf_observeAll, Hr.
  - simpl. apply (IH _ (clear o maskImage c) c'); [| exact Hs].
    eapply rangeOf_same; [| | exact Hr]; reflexivity.
Qed.

(** What [rangeOf] says of the weights seen. *)
Lemma rangeOf_extrema ws c :
  rangeOf ws c ->
  (forall w, In w ws -> boundLe (minTagWeight c) w /\ (w <= maxTagWeight c)%Q)
  /\ (ws <> [] -> exists m, minTagWeight c = Finite m /\ In m ws)
  /\ ((exists w, In w ws /\ (0 <= w)%Q) ->
      exists w, In w ws /\ (maxTagWeight c == w)%Q).
Proof.
  intros (H0 & Hub & Hmax & Hmin). split; [| split].
  - intros w Hw. split; [| apply Hub, Hw].
    destruct (minTagWeight c) as [m |]; simpl.
    + apply Hmin, Hw.
    + subst ws. destruct Hw.
  - intros Hne. destruct (minTagWeight c) as [m |]; [| congruence].
    exists m. split; [reflexivity | apply Hmin].
  - intros (w & Hw & Hpos). destruct Hmax as [Hz | Hin].
    + exists w. split; [exact Hw |].
      apply Qle_antisym; [rewrite Hz; exact Hpos | apply Hub, Hw].
    + exists (maxTagWeight c). split; [exact Hin | reflexivity].
Qed.

(** C9, as the code has it. After any sequence of [draw] and [clear] calls
    on a new cloud, every weight submitted so far lies in the weight range,
    the lower end of the range is one of them and so is the upper end once
    one of them is not negative: [clear] does not reset the range. Within a
    [draw], the range is updated before the batch is handled: the font
    sizes of the results come from the range that [draw] leaves. *)
Theorem weight_range_running o whScale measureBox rasterize maskImage fuel rnd :
  (forall calls c',
     session o whScale measureBox rasterize maskImage fuel rnd
       (newCloud o maskImage) calls = Some c' ->
     (forall w, In w (submitted calls) ->
        boundLe (minTagWeight c') w /\ (w <= maxTagWeight c')%Q)
     /\ (submitted calls <> [] ->
         exists m, minTagWeight c' = Finite m /\ In m (submitted calls))
     /\ ((exists w, In w (submitted calls) /\ (0 <= w)%Q) ->
         exists w, In w (submitted calls) /\ (maxTagWeight c' == w)%Q))
  /\ (forall c, maxTagWeight (clear o maskImage c) = maxTagWeight c
                /\ minTagWeight (clear o maskImage c) = minTagWeight c)
  /\ (forall c (heap : gmap positive (list Tag)) tags contents result c' heap',
        heap !! tags = Some contents ->
        draw o whScale measureBox rasterize fuel rnd c heap tags
        = Some (result, c', heap') ->
        maxTagWeight c' = maxTagWeight (observeAll c contents)
        /\ minTagWeight c' = minTagWeight (observeAll c contents)
        /\ Forall (fun td =>
                     td_fontSize td
                     = fontSizeOf o (minTagWeight c') (maxTagWeight c')
                         (td_weight td)) result).
Proof.
  split; [| split].
  - intros calls c' Hs. apply rangeOf_extrema.
    apply (rangeOf_session o whScale measureBox rasterize maskImage fuel rnd
             calls [] (newCloud o maskImage) c' (rangeOf_new o maskImage) Hs).
  - intros c. split; reflexivity.
  - intros c heap tags contents result c' heap' Hheap Hdraw.
    exact (draw_range o whScale measureBox rasterize fuel rnd c heap tags
             contents result c' heap' Hheap Hdraw).
Qed.

(** C9, as stated, fails: after a batch and a [clear], the range is not the
    one of a new cloud. *)
Lemma clear_resets_range_counterexample :
  ~ (forall o whScale measureBox rasterize maskImage fuel rnd calls c',
       session o whScale measureBox rasterize maskImage fuel rnd
         (newCloud o maskImage) (calls ++ [CallClear]) = Some c' ->
       maxTagWeight c' = maxTagWeight (newCloud o maskImage)
       /\ minTagWeight c' = minTagWeight (newCloud o maskImage)).
Proof.
  intros H.
  destruct (H (exOptions false) exScale exMeasure exRaster None 66%nat exDraws
              [CallDraw exTags]
              (mkCloud (generatePixels (exOptions false) 128 8 0 false) 3
                 (Finite 1))) as [Hmax _].
  - vm_compute. reflexivity.
  - discriminate.
Qed.

Lemma weight_range_running_witness :
  In 3%Q (submitted exCalls) /\ boundLe (Finite (-2)) 3 /\ (3 <= 3)%Q.
Proof.
  assert (Hin : In 3%Q (submitted exCalls)) by (simpl; auto).
  split; [exact Hin |].
  apply (proj1 (weight_range_running (exOptions false) exScale exMeasure
                  exRaster None 66 exDraws) exCalls
           (mkCloud (mkPixels 128 8 [[1044480]; [0]]) 3 (Finite (-2))));
    [| exact Hin].
  vm_compute. reflexivity.
Defined.

(** ** Font sizes *)

(** The font size of a result is the linear map of its weight over the
    range, or the middle of the font range when the range is a point. *)
Lemma fontSizeOf_spec o minW maxW w :
  fontSizeOf o (Finite minW) maxW w
  = if Qlt_le_dec 0 (maxW - minW)
    then round (minFontSize o
                + (maxFontSize o - minFontSize o)
                  * ((w - minW) / (maxW - minW)))%Q
    else round ((maxFontSize o + minFontSize o) / 2)%Q.
Proof. reflexivity. Qed.

(** On a new cloud, a batch of tags of one weight that is not negative gets
    the middle of the font range. *)
Lemma equal_weights_midpoint o maskImage tags w w' :
  tags <> [] -> (0 <= w)%Q ->
  (forall tag, In tag tags -> (weight tag == w)%Q) ->
  let c := observeAll (newCloud o maskImage) tags in
  fontSizeOf o (minTagWeight c) (maxTagWeight c) w'
  = round ((maxFontSize o + minFontSize o) / 2)%Q.
Proof.
  intros Hne Hpos Hall c.
  pose proof (rangeOf_observeAll tags [] (newCloud o maskImage)
                (rangeOf_new o maskImage)) as Hr.
  simpl app in Hr. fold c in Hr.
  assert (Hws : forall v, In v (map weight tags) -> (v == w)%Q).
  { intros v Hv. apply in_map_iff in Hv as (tag & <- & Htag). auto. }
  assert (Hsome : exists v, In v (map weight tags)).
  { destruct tags as [| tag rest]; [congruence |]. exists (weight tag). left.
    reflexivity. }
  destruct (rangeOf_extrema _ _ Hr) as (_ & Hmin & Hmax).
  destruct Hmin as (m & Hm & Hmin).
  { destruct Hsome as [v Hv]. intros E. rewrite E in Hv. destruct Hv. }
  destruct Hmax as (v & Hv & Hmax).
  { destruct Hsome as [v Hv]. exists v. split; [exact Hv |].
    rewrite (Hws v Hv). exact Hpos. }
  rewrite Hm. unfold fontSizeOf.
  destruct (Qlt_le_dec 0 (maxTagWeight c - m)) as [Hlt | Hle]; [| reflexivity].
  exfalso. rewrite Hmax, (Hws v Hv), (Hws m Hmin) in Hlt.
  revert Hlt. unfold Qminus. rewrite Qplus_opp_r. apply Qlt_irrefl.
Qed.

(** C7 at a batch of equal negative weights on a new cloud: the upper end
    of the range stays at 0, above the weights, so both tags get the
    smallest font size (10) and not the middle of the font range (55). *)
Theorem negative_weights_fontSize :
  match exDraw exCloud exNegative with
  | Some (result, c', _) =>
      map td_fontSize result = [10; 10]
      /\ maxTagWeight c' = 0%Q /\ minTagWeight c' = Finite (-1)
  | None => False
  end
  /\ round ((maxFontSize (exOptions false) + minFontSize (exOptions false)) / 2)
     = 55.
Proof. vm_compute. repeat split; reflexivity. Qed.

(** * Further properties *)

(** ** The first pass, exactly *)

Module Int32More.
Import Int32.

Lemma testbit_small_high u n :
  0 <= u < 2 ^ 31 -> 31 <= n -> Z.testbit u n = false.
Proof.
  intros Hu Hn. destruct (Z.eq_dec u 0) as [-> | Hne].
  - apply Z.bits_0.
  - apply Z.bits_above_log2; [lia |].
    assert (Z.log2 u < 31) by (apply Z.log2_lt_pow2; lia). lia.
Qed.

(** Beyond bit 31 a 32-bit integer repeats its sign bit. *)
Lemma testbit_toInt32_high z n :
  31 <= n -> Z.testbit (toInt32 z) n = Z.testbit (toInt32 z) 31.
Proof.
  intros Hn. pose proof (Int32Facts.toInt32_range z) as Hr.
  set (v := toInt32 z) in *.
  destruct (Z.lt_ge_cases v 0) as [Hneg | Hpos].
  - assert (Hl : Z.lnot v = - v - 1) by (unfold Z.lnot; lia).
    assert (H1 : forall m, 31 <= m -> Z.testbit v m = true).
    { intros m Hm. rewrite <- (Z.lnot_involutive v), Z.lnot_spec by lia.
      rewrite testbit_small_high; [reflexivity | rewrite Hl; lia | lia]. }
    rewrite !H1 by lia. reflexivity.
  - rewrite !testbit_small_high by lia. reflexivity.
Qed.

(** Two 32-bit integers whose conjunction is not zero share a bit. *)
Lemma and_truthy_inv a b :
  truthy (and a b) = true ->
  exists k, 0 <= k < 32 /\ Z.testbit a k = true /\ Z.testbit b k = true.
Proof.
  intros Ht.
  destruct (existsb (fun n => Z.testbit a (Z.of_nat n) && Z.testbit b (Z.of_nat n))
              (seq 0 32)) eqn:He.
  - apply existsb_exists in He as (n & Hin & Hn).
    apply in_seq in Hin. apply andb_true_iff in Hn as [Ha Hb].
    exists (Z.of_nat n). split; [lia | tauto].
  - exfalso. unfold truthy in Ht. apply negb_true_iff, Z.eqb_neq in Ht.
    apply Ht. apply Z.bits_inj_0. intros n. unfold and.
    rewrite Z.land_spec.
    assert (Hlow : forall m, 0 <= m < 32 ->
              Z.testbit (toInt32 a) m && Z.testbit (toInt32 b) m = false).
    { intros m Hm. rewrite !Int32Facts.testbit_toInt32 by lia.
      destruct (Z.testbit a m && Z.testbit b m) eqn:Hm'; [| reflexivity].
      rewrite <- He. symmetry. apply existsb_exists.
      exists (Z.to_nat m). rewrite Z2Nat.id by lia. split; [| exact Hm'].
      apply in_seq. lia. }
    destruct (Z.lt_ge_cases n 0) as [Hn0 | Hn0].
    { rewrite !Z.testbit_neg_r by lia. reflexivity. }
    destruct (Z.lt_ge_cases n 32) as [Hn1 | Hn1].
    { apply Hlow. lia. }
    rewrite (testbit_toInt32_high a n), (testbit_toInt32_high b n) by lia.
    apply Hlow. lia.
Qed.

End Int32More.

(** ** Cells, stored or not *)

Lemma inkAt_cellAt d r c : inkAt d r c = default false (cellAt d r c).
Proof.
  unfold inkAt, cellAt, wordAt, rowBit.
  destruct (getZ d r) as [row |]; [| reflexivity].
  destruct (getZ row (c / 32)); reflexivity.
Qed.

Lemma stored_cellAt d r c : stored d r c <-> is_Some (cellAt d r c).
Proof.
  unfold stored, cellAt, wordAt, rowBit.
  destruct (getZ d r) as [row |];
    [destruct (getZ row (c / 32)) |]; simpl; split; intros [? ?]; eauto;
    discriminate.
Qed.

Lemma cellOr_cellAt out d r c :
  cellOr out d r c = default (Z.testbit out (31 - c mod 32)) (cellAt d r c).
Proof.
  unfold cellOr, cellAt, wordAt, rowBit.
  destruct (getZ d r) as [row |]; [| reflexivity].
  destruct (getZ row (c / 32)); reflexivity.
Qed.

(** ** The first pass reports a collision only where there is one *)

Section PassesInv.

Variables (out p pixelsY : Z) (thisData : list (list Z)).

Let offset := Z.rem p 32.
Let fix_ := if Int32.truthy offset then -1 else 0.
Let xx := p / 32.

Lemma collidesWord_inv i j target :
  collidesWord out offset fix_ xx
    (default [] (getZ thisData (pixelsY + i))) j target = true ->
  exists k, 0 <= k < 32 /\ Z.testbit target k = true
            /\ cellOr out thisData (pixelsY + i) (p + 32 * j + 31 - k) = true.
Proof.
  unfold collidesWord. intros H.
  apply Int32More.and_truthy_inv in H as (k & Hk & Hw & Ht).
  exists k. split; [exact Hk |]. split; [exact Ht |].
  rewrite <- (window_cell out p pixelsY thisData i j k Hk). exact Hw.
Qed.

Lemma collidesRow_inv yData row : forall j0,
  collidesRow out offset fix_ xx yData j0 row = true ->
  exists (n : nat) target,
    row !! n = Some target
    /\ collidesWord out offset fix_ xx yData (j0 + Z.of_nat n) target = true.
Proof.
  induction row as [| t rest IH]; intros j0 H; [discriminate |].
  simpl in H.
  destruct (collidesWord out offset fix_ xx yData j0 t) eqn:Hw.
  - exists 0%nat, t. rewrite Z.add_0_r. auto.
  - destruct (IH _ H) as (n & target & Hn & Hc).
    exists (S n), target. split; [exact Hn |].
    replace (j0 + Z.of_nat (S n)) with (j0 + 1 + Z.of_nat n) by lia. exact Hc.
Qed.

Lemma collides_inv data : forall i0,
  collides out offset fix_ xx pixelsY thisData i0 data = true ->
  exists (n : nat) row,
    data !! n = Some row
    /\ collidesRow out offset fix_ xx
         (default [] (getZ thisData (pixelsY + (i0 + Z.of_nat n)))) 0 row
       = true.
Proof.
  induction data as [| r rest IH]; intros i0 H; [discriminate |].
  simpl in H.
  destruct (collidesRow out offset fix_ xx
              (default [] (getZ thisData (pixelsY + i0))) 0 r) eqn:Hr.
  - exists 0%nat, r. rewrite Z.add_0_r. auto.
  - destruct (IH _ H) as (n & row & Hn & Hc).
    exists (S n), row. split; [exact Hn |].
    replace (i0 + Z.of_nat (S n)) with (i0 + 1 + Z.of_nat n) by lia. exact Hc.
Qed.

End PassesInv.

(** A word and a bit of a mask, as the ink cell they hold. *)
Lemma word_inkAt data (n m : nat) row target k :
  data !! n = Some row -> row !! m = Some target -> 0 <= k < 32 ->
  Z.testbit target k = true ->
  inkAt data (Z.of_nat n) (32 * Z.of_nat m + 31 - k) = true.
Proof.
  intros Hn Hm Hk Hb. unfold inkAt, wordAt.
  assert (Hq : (32 * Z.of_nat m + 31 - k) / 32 = Z.of_nat m).
  { symmetry. apply (Z.div_unique _ 32 _ (31 - k)); lia. }
  assert (Hr : (32 * Z.of_nat m + 31 - k) mod 32 = 31 - k).
  { symmetry. apply (Z.mod_unique _ 32 (Z.of_nat m)); lia. }
  rewrite Hq, Hr, getZ_nat, Hn. cbv beta iota. rewrite getZ_nat, Hm.
  replace (31 - (31 - k)) with k by lia. exact Hb.
Qed.

Lemma firstPass_inv out p pixelsY thisData data :
  collides out (Z.rem p 32) (if Int32.truthy (Z.rem p 32) then -1 else 0)
    (p / 32) pixelsY thisData 0 data = true ->
  exists i c,
    inkAt data i c = true /\ cellOr out thisData (pixelsY + i) (p + c) = true.
Proof.
  intros H.
  apply collides_inv in H as (n & row & Hn & H).
  apply collidesRow_inv in H as (m & target & Hm & H).
  apply collidesWord_inv in H as (k & Hk & Hb & Hc).
  exists (Z.of_nat n), (32 * Z.of_nat m + 31 - k). split.
  - eapply word_inkAt; eassumption.
  - rewrite !Z.add_0_l in Hc.
    replace (p + (32 * Z.of_nat m + 31 - k))
      with (p + 32 * Z.of_nat m + 31 - k) by lia.
    exact Hc.
Qed.

(** X1. [tryPlaceTag] refuses a place exactly when an ink cell of the mask
    lies over a cell that counts as occupied: a stored cell whose bit is
    set, or a cell that the grid does not store when [cut] is [false] (with
    [cut] set, a cell that the grid does not store counts as free). *)
Theorem tryPlaceTag_rejects_iff o grid mask x y :
  fst (tryPlaceTag o grid mask x y) = false
  <-> exists i c,
        inkAt (pixels_data mask) i c = true
        /\ cellOr (if cut o then 0 else -1) (pixels_data grid)
             (y / pixelRatio o + i) (x / pixelRatio o + c) = true.
Proof.
  unfold tryPlaceTag.
  destruct (collides _ _ _ _ _ _ _ _) eqn:Hc; simpl; split.
  - intros _. apply firstPass_inv in Hc. exact Hc.
  - reflexivity.
  - discriminate.
  - intros (i & c & Hink & Hcell).
    rewrite (firstPass_hit _ _ _ _ _ i c Hink Hcell) in Hc. discriminate.
Qed.

(** ** The second pass writes the ink cells of the mask and nothing else *)

Lemma getZ_nil {A} i : getZ (@nil A) i = None.
Proof. unfold getZ. destruct (i <? 0); [reflexivity | apply lookup_nil]. Qed.

Lemma rowBit_setZ row i v c :
  rowBit (setZ row i v) c
  = if i =? c / 32
    then (fun _ => Z.testbit v (31 - c mod 32)) <$> getZ row i
    else rowBit row c.
Proof.
  unfold rowBit. rewrite getZ_setZ.
  destruct (Z.eqb_spec i (c / 32)) as [-> | Hne]; [| reflexivity].
  destruct (getZ row (c / 32)); reflexivity.
Qed.

(** The mask cell that lies over cell [c] of the grid is cell [c - p] of the
    mask: its word and its bit. *)
Lemma mask_cell p c :
  let s := p mod 32 in
  let t := c mod 32 in
  if s <=? t
  then (c - p) / 32 = c / 32 - p / 32 /\ (c - p) mod 32 = t - s
  else (c - p) / 32 = c / 32 - p / 32 - 1 /\ (c - p) mod 32 = t - s + 32.
Proof.
  intros s t. subst s t.
  pose proof (Z.mod_pos_bound p 32 ltac:(lia)) as Hp.
  pose proof (Z.mod_pos_bound c 32 ltac:(lia)) as Hc.
  pose proof (Z.div_mod p 32 ltac:(lia)) as Hdp.
  pose proof (Z.div_mod c 32 ltac:(lia)) as Hdc.
  destruct (Z.leb_spec (p mod 32) (c mod 32)).
  - split.
    + symmetry. apply (Z.div_unique _ 32 _ (c mod 32 - p mod 32)); lia.
    + symmetry. apply (Z.mod_unique _ 32 (c / 32 - p / 32)); lia.
  - split.
    + symmetry. apply (Z.div_unique _ 32 _ (c mod 32 - p mod 32 + 32)); lia.
    + symmetry. apply (Z.mod_unique _ 32 (c / 32 - p / 32 - 1)); lia.
Qed.

Section MergeExact.

Variables (p pixelsY : Z).

Let offset := Z.rem p 32.
Let xx := p / 32.

(** Ink of a mask word, of a mask row and of a mask at a cell, counted from
    word [j0] or row [i0]. *)
Let wordInk (j target c : Z) : bool :=
  (c / 32 =? j) && Z.testbit target (31 - c mod 32).

Let rowInk (j0 : Z) (row : list Z) (c : Z) : bool :=
  match getZ row (c / 32 - j0) with
  | Some target => Z.testbit target (31 - c mod 32)
  | None => false
  end.

Let gridInk (i0 : Z) (data : list (list Z)) (r c : Z) : bool :=
  match getZ data (r - i0) with
  | Some row => rowInk 0 row c
  | None => false
  end.

Lemma mergeWord_rowBit yData j target c :
  rowBit (mergeWord offset xx yData j target) c
  = (fun b => b || wordInk j target (c - p)) <$> rowBit yData c.
Proof.
  pose proof (Z.mod_pos_bound p 32 ltac:(lia)) as Hp.
  pose proof (Z.mod_pos_bound c 32 ltac:(lia)) as Hc.
  pose proof (mask_cell p c) as Hmc. simpl in Hmc. fold xx in Hmc.
  unfold mergeWord, wordInk.
  set (yData1 := match getZ yData (xx + j) with
                 | Some w => _ | None => yData end).
  assert (H1 : rowBit yData1 c
               = (fun b => b || ((c / 32 =? xx + j) && (p mod 32 <=? c mod 32)
                                 && Z.testbit target (31 - (c - p) mod 32)))
                 <$> rowBit yData c).
  { subst yData1. destruct (getZ yData (xx + j)) as [w |] eqn:Hg.
    - rewrite rowBit_setZ. rewrite (Z.eqb_sym (c / 32)).
      destruct (Z.eqb_spec (xx + j) (c / 32)) as [E | Hne].
      + unfold rowBit. rewrite <- E, Hg. simpl. f_equal.
        rewrite Int32Facts.testbit_or, Int32Facts.testbit_shru by lia.
        subst offset. rewrite Int32Facts.shiftCount_rem.
        destruct (Z.leb_spec (p mod 32) (c mod 32)) as [Hle | Hlt];
          destruct Hmc as [_ Hm].
        * destruct (Z.ltb_spec (31 - c mod 32 + p mod 32) 32); [| lia].
          simpl. do 2 f_equal. lia.
        * destruct (Z.ltb_spec (31 - c mod 32 + p mod 32) 32); [lia |].
          reflexivity.
      + simpl. destruct (rowBit yData c) as [b |]; simpl; [| reflexivity].
        rewrite Bool.orb_false_r. reflexivity.
    - unfold rowBit.
      destruct (Z.eqb_spec (c / 32) (xx + j)) as [E | Hne].
      + rewrite E, Hg. reflexivity.
      + simpl. destruct (getZ yData (c / 32)) as [w |]; simpl; [| reflexivity].
        rewrite Bool.orb_false_r. reflexivity. }
  clearbody yData1.
  assert (H2 : rowBit
                 (match getZ yData1 (xx + j + 1) with
                  | Some w =>
                      if Int32.truthy offset
                      then setZ yData1 (xx + j + 1)
                             (Int32.or w (Int32.shl target (32 - offset)))
                      else yData1
                  | None => yData1
                  end) c
               = (fun b => b || ((c / 32 =? xx + j + 1)
                                 && negb (p mod 32 <=? c mod 32)
                                 && Z.testbit target (31 - (c - p) mod 32)))
                 <$> rowBit yData1 c).
  { destruct (getZ yData1 (xx + j + 1)) as [w |] eqn:Hg.
    - subst offset. rewrite Int32Facts.rem_truthy.
      destruct (Z.eqb_spec (p mod 32) 0) as [E0 | Hne0]; simpl.
      + destruct (Z.leb_spec (p mod 32) (c mod 32)); [| lia]. simpl.
        rewrite Bool.andb_false_r. simpl.
        destruct (rowBit yData1 c) as [b |]; simpl; [| reflexivity].
        rewrite Bool.orb_false_r. reflexivity.
      + rewrite rowBit_setZ. rewrite (Z.eqb_sym (c / 32)).
        destruct (Z.eqb_spec (xx + j + 1) (c / 32)) as [E | Hne].
        * unfold rowBit. rewrite <- E, Hg. simpl. f_equal.
          rewrite Int32Facts.testbit_or, Int32Facts.testbit_shl by lia.
          rewrite Int32Facts.shiftCount_back by assumption.
          destruct (Z.leb_spec (p mod 32) (c mod 32)) as [Hle | Hlt];
            destruct Hmc as [_ Hm]; simpl.
          -- destruct (Z.leb_spec (32 - p mod 32) (31 - c mod 32)); [lia |].
             reflexivity.
          -- destruct (Z.leb_spec (32 - p mod 32) (31 - c mod 32)); [| lia].
             simpl. do 2 f_equal. lia.
        * simpl. destruct (rowBit yData1 c) as [b |]; simpl; [| reflexivity].
          rewrite Bool.orb_false_r. reflexivity.
    - unfold rowBit.
      destruct (Z.eqb_spec (c / 32) (xx + j + 1)) as [E | Hne].
      + rewrite E, Hg. reflexivity.
      + simpl. destruct (getZ yData1 (c / 32)) as [w |]; simpl; [| reflexivity].
        rewrite Bool.orb_false_r. reflexivity. }
  rewrite H2, H1. clear H1 H2.
  destruct (rowBit yData c) as [b |]; simpl; [| reflexivity].
  f_equal. rewrite <- Bool.orb_assoc. f_equal.
  destruct (Z.leb_spec (p mod 32) (c mod 32)) as [Hle | Hlt];
    destruct Hmc as [Hq Hm]; rewrite Hq; simpl;
    rewrite ?Bool.andb_true_r, ?Bool.andb_false_r, ?Bool.orb_false_r; simpl.
  - f_equal. destruct (Z.eqb_spec (c / 32) (xx + j));
      destruct (Z.eqb_spec (c / 32 - xx) j); try reflexivity; lia.
  - f_equal. destruct (Z.eqb_spec (c / 32) (xx + j + 1));
      destruct (Z.eqb_spec (c / 32 - xx - 1) j); try reflexivity; lia.
Qed.

Lemma mergeRow_rowBit row c : forall yData j0,
  rowBit (mergeRow offset xx yData j0 row) c
  = (fun b => b || rowInk j0 row (c - p)) <$> rowBit yData c.
Proof.
  induction row as [| t rest IH]; intros yData j0; simpl.
  - unfold rowInk. rewrite getZ_nil.
    destruct (rowBit yData c); simpl; [rewrite Bool.orb_false_r |]; reflexivity.
  - rewrite IH, mergeWord_rowBit.
    destruct (rowBit yData c) as [b |]; simpl; [| reflexivity].
    f_equal. rewrite <- Bool.orb_assoc. f_equal.
    unfold wordInk, rowInk, getZ.
    destruct (Z.eqb_spec ((c - p) / 32) j0) as [E | Hne].
    + rewrite E, Z.sub_diag. simpl.
      destruct (Z.ltb_spec (j0 - (j0 + 1)) 0); [| lia].
      rewrite Bool.orb_false_r. reflexivity.
    + simpl.
      destruct (Z.ltb_spec ((c - p) / 32 - j0) 0) as [Hneg | Hpos].
      * destruct (Z.ltb_spec ((c - p) / 32 - (j0 + 1)) 0); [| lia].
        reflexivity.
      * destruct (Z.ltb_spec ((c - p) / 32 - (j0 + 1)) 0); [lia |].
        replace (Z.to_nat ((c - p) / 32 - j0))
          with (S (Z.to_nat ((c - p) / 32 - (j0 + 1)))) by lia.
        reflexivity.
Qed.

Lemma cellAt_setZ d i row' r c :
  cellAt (setZ d i row') r c
  = if i =? r
    then match getZ d i with Some _ => rowBit row' c | None => None end
    else cellAt d r c.
Proof.
  unfold cellAt. rewrite getZ_setZ.
  destruct (Z.eqb_spec i r) as [-> | Hne]; [| reflexivity].
  destruct (getZ d r); reflexivity.
Qed.

Lemma merge_cellAt data r c : forall thisData i0,
  cellAt (merge offset xx pixelsY thisData i0 data) r c
  = (fun b => b || gridInk i0 data (r - pixelsY) (c - p)) <$> cellAt thisData r c.
Proof.
  induction data as [| row rest IH]; intros thisData i0; simpl.
  - unfold gridInk. rewrite getZ_nil.
    destruct (cellAt thisData r c); simpl; [rewrite Bool.orb_false_r |];
      reflexivity.
  - rewrite IH.
    assert (H1 : cellAt
                   (match getZ thisData (pixelsY + i0) with
                    | Some yData =>
                        setZ thisData (pixelsY + i0)
                          (mergeRow offset xx yData 0 row)
                    | None => thisData
                    end) r c
                 = (fun b => b || ((r - pixelsY =? i0) && rowInk 0 row (c - p)))
                   <$> cellAt thisData r c).
    { destruct (getZ thisData (pixelsY + i0)) as [yData |] eqn:Hg.
      - rewrite cellAt_setZ, Hg.
        destruct (Z.eqb_spec (pixelsY + i0) r) as [E | Hne].
        + rewrite mergeRow_rowBit. unfold cellAt. rewrite <- E, Hg.
          destruct (Z.eqb_spec (pixelsY + i0 - pixelsY) i0); [| lia].
          reflexivity.
        + destruct (Z.eqb_spec (r - pixelsY) i0); [lia |]. simpl.
          destruct (cellAt thisData r c); simpl;
            [rewrite Bool.orb_false_r |]; reflexivity.
      - unfold cellAt.
        destruct (Z.eqb_spec (r - pixelsY) i0) as [E | Hne].
        + replace r with (pixelsY + i0) by lia. rewrite Hg. reflexivity.
        + simpl. destruct (getZ thisData r) as [yData |]; [| reflexivity].
          destruct (rowBit yData c); simpl; [rewrite Bool.orb_false_r |];
            reflexivity. }
    rewrite H1. clear H1.
    destruct (cellAt thisData r c) as [b |]; simpl; [| reflexivity].
    f_equal. rewrite <- Bool.orb_assoc. f_equal.
    unfold gridInk, getZ.
    destruct (Z.eqb_spec (r - pixelsY) i0) as [E | Hne]; simpl.
    + rewrite E, Z.sub_diag. simpl.
      destruct (Z.ltb_spec (i0 - (i0 + 1)) 0); [| lia].
      rewrite Bool.orb_false_r. reflexivity.
    + destruct (Z.ltb_spec (r - pixelsY - i0) 0) as [Hneg | Hpos].
      * destruct (Z.ltb_spec (r - pixelsY - (i0 + 1)) 0); [| lia].
        reflexivity.
      * destruct (Z.ltb_spec (r - pixelsY - (i0 + 1)) 0); [lia |].
        replace (Z.to_nat (r - pixelsY - i0))
          with (S (Z.to_nat (r - pixelsY - (i0 + 1)))) by lia.
        reflexivity.
Qed.

(** The grid after the second pass, cell by cell. *)
Lemma merge_exact thisData data r c :
  cellAt (merge offset xx pixelsY thisData 0 data) r c
  = (fun b => b || inkAt data (r - pixelsY) (c - p)) <$> cellAt thisData r c.
Proof.
  rewrite merge_cellAt.
  destruct (cellAt thisData r c) as [b |]; simpl; [| reflexivity].
  do 2 f_equal. unfold gridInk, rowInk, inkAt, wordAt.
  rewrite !Z.sub_0_r. destruct (getZ data (r - pixelsY)); reflexivity.
Qed.

End MergeExact.

Lemma tryPlaceTag_cellAt o grid mask x y grid' r c :
  tryPlaceTag o grid mask x y = (true, grid') ->
  cellAt (pixels_data grid') r c
  = (fun b => b || inkAt (pixels_data mask) (r - y / pixelRatio o)
                     (c - x / pixelRatio o))
    <$> cellAt (pixels_data grid) r c.
Proof.
  unfold tryPlaceTag. destruct (collides _ _ _ _ _ _ _ _); [discriminate |].
  intros H. injection H as <-. simpl. apply merge_exact.
Qed.

(** X2. When [tryPlaceTag] accepts a place, the grid keeps the words it
    had, and a stored cell is occupied afterwards exactly when it was
    occupied before or the mask has ink over it: the second pass writes the
    ink of the mask and nothing else. *)
Theorem tryPlaceTag_marks_exactly o grid mask x y grid' r c :
  tryPlaceTag o grid mask x y = (true, grid') ->
  (stored (pixels_data grid') r c <-> stored (pixels_data grid) r c)
  /\ (stored (pixels_data grid) r c ->
      inkAt (pixels_data grid') r c
      = inkAt (pixels_data grid) r c
        || inkAt (pixels_data mask) (r - y / pixelRatio o)
             (c - x / pixelRatio o)).
Proof.
  intros H. pose proof (tryPlaceTag_cellAt _ _ _ _ _ _ r c H) as Hc.
  rewrite !stored_cellAt, !inkAt_cellAt, Hc.
  destruct (cellAt (pixels_data grid) r c) as [b |] eqn:Hb; simpl.
  - split; [split; eauto |].
    intros _. rewrite (inkAt_cellAt (pixels_data mask)). reflexivity.
  - split; [split |]; intros [? ?]; discriminate.
Qed.

Lemma tryPlaceTag_marks_exactly_witness :
  (stored (pixels_data (mkPixels 128 8 [[2147483647]; [0]])) 0 5
   <-> stored (pixels_data (exGrid true)) 0 5)
  /\ (stored (pixels_data (exGrid true)) 0 5 ->
      inkAt (pixels_data (mkPixels 128 8 [[2147483647]; [0]])) 0 5
      = inkAt (pixels_data (exGrid true)) 0 5
        || inkAt (pixels_data exMask) (0 - 0 / pixelRatio (exOptions true))
             (5 - 4 / pixelRatio (exOptions true))).
Proof.
  apply (tryPlaceTag_marks_exactly (exOptions true) (exGrid true) exMask 4 0).
  reflexivity.
Defined.

(** ** Placements never overlap *)

Lemma tryPlaceTag_gridLe o grid mask x y b grid' :
  tryPlaceTag o grid mask x y = (b, grid') ->
  gridLe (pixels_data grid) (pixels_data grid').
Proof.
  unfold tryPlaceTag. destruct (collides _ _ _ _ _ _ _ _); intros H;
    injection H as <- <-; [apply gridLe_refl | apply merge_le].
Qed.

Lemma tryPlaceTag_extent o grid mask x y b grid' :
  tryPlaceTag o grid mask x y = (b, grid') ->
  pixels_width grid' = pixels_width grid
  /\ pixels_height grid' = pixels_height grid.
Proof.
  unfold tryPlaceTag. destruct (collides _ _ _ _ _ _ _ _); intros H;
    injection H as <- <-; split; reflexivity.
Qed.

Lemma gridLe_inkAt d d' r c :
  gridLe d d' -> inkAt d r c = true -> inkAt d' r c = true.
Proof.
  intros Hle. unfold inkAt. specialize (Hle r (c / 32)).
  pose proof (Z.mod_pos_bound c 32 ltac:(lia)) as Hc.
  destruct (wordAt d r (c / 32)) as [w |]; [| discriminate].
  destruct (wordAt d' r (c / 32)) as [w' |]; [| contradiction].
  apply Hle. lia.
Qed.

Lemma gridLe_stored d d' r c : gridLe d d' -> stored d r c <-> stored d' r c.
Proof.
  intros Hle. unfold stored. split.
  - apply optLe_is_Some, Hle.
  - apply optLe_is_Some_rev, Hle.
Qed.

(** X3. Two accepted placements never share a cell of the grid: once a
    mask is merged, whatever is placed later, on that grid or on one with
    more cells occupied, has no ink on a stored cell where the first mask
    has ink. *)
Theorem placements_disjoint o g m1 x1 y1 g1 g2 m2 x2 y2 g3 r c :
  tryPlaceTag o g m1 x1 y1 = (true, g1) ->
  gridLe (pixels_data g1) (pixels_data g2) ->
  tryPlaceTag o g2 m2 x2 y2 = (true, g3) ->
  stored (pixels_data g) r c ->
  inkAt (pixels_data m1) (r - y1 / pixelRatio o) (c - x1 / pixelRatio o) = true ->
  inkAt (pixels_data m2) (r - y2 / pixelRatio o) (c - x2 / pixelRatio o) = false.
Proof.
  intros H1 Hle H2 Hst Hink.
  destruct (inkAt (pixels_data m2) _ _) eqn:Hink2; [exfalso | reflexivity].
  assert (Hg1 : inkAt (pixels_data g1) r c = true).
  { pose proof (tryPlaceTag_cellAt _ _ _ _ _ _ r c H1) as Hc.
    apply stored_cellAt in Hst as [b Hb]. rewrite Hb in Hc.
    rewrite inkAt_cellAt, Hc. simpl. rewrite Hink. apply Bool.orb_true_r. }
  assert (Hst2 : stored (pixels_data g2) r c).
  { apply (gridLe_stored _ _ _ _ Hle).
    apply (gridLe_stored _ _ _ _ (tryPlaceTag_gridLe _ _ _ _ _ _ _ H1)).
    exact Hst. }
  pose proof (gridLe_inkAt _ _ _ _ Hle Hg1) as Hg2.
  unfold tryPlaceTag in H2.
  rewrite (firstPass_hit _ _ _ _ _ (r - y2 / pixelRatio o)
             (c - x2 / pixelRatio o) Hink2) in H2; [discriminate |].
  replace (y2 / pixelRatio o + (r - y2 / pixelRatio o)) with r by lia.
  replace (x2 / pixelRatio o + (c - x2 / pixelRatio o)) with c by lia.
  rewrite cellOr_stored by exact Hst2. exact Hg2.
Qed.

Lemma placements_disjoint_witness :
  inkAt (pixels_data exMask) (0 - 4 / pixelRatio (exOptions false))
    (0 - 0 / pixelRatio (exOptions false)) = false.
Proof.
  apply (placements_disjoint (exOptions false) (exGrid false) exMask 0 0
           (mkPixels 128 8 [[-1]; [0]]) (mkPixels 128 8 [[-1]; [0]])
           exMask 0 4 (mkPixels 128 8 [[-1]; [-1]]) 0 0).
  - reflexivity.
  - apply gridLe_refl.
  - reflexivity.
  - unfold stored. vm_compute. eauto.
  - reflexivity.
Defined.

(** ** What a search leaves behind *)

Section SearchSound.

Variables (o : Options) (whScale : Z -> Z) (grid mask : Pixels).

Lemma legX_sound xDir y n : forall x,
  match legX o grid mask xDir y n x with
  | Placed px py grid1 => tryPlaceTag o grid mask px py = (true, grid1)
  | Moved _ grid1 => grid1 = grid
  end.
Proof.
  induction n as [| n IH]; intros x; simpl; [reflexivity |].
  destruct ((x + xDir * pixelRatio o <? - pixels_width mask)
            || (width o <? x + xDir * pixelRatio o)); [apply IH |].
  destruct (tryPlaceTag o grid mask (x + xDir * pixelRatio o) y)
    as [[|] grid1] eqn:Ht; [exact Ht |].
  apply tryPlaceTag_false in Ht. subst grid1. apply IH.
Qed.

Lemma legY_sound yDir x n : forall y,
  match legY o grid mask yDir x n y with
  | Placed px py grid1 => tryPlaceTag o grid mask px py = (true, grid1)
  | Moved _ grid1 => grid1 = grid
  end.
Proof.
  induction n as [| n IH]; intros y; simpl; [reflexivity |].
  destruct ((y + yDir * pixelRatio o <? - pixels_height mask)
            || (height o <? y + yDir * pixelRatio o)); [apply IH |].
  destruct (tryPlaceTag o grid mask x (y + yDir * pixelRatio o))
    as [[|] grid1] eqn:Ht; [exact Ht |].
  apply tryPlaceTag_false in Ht. subst grid1. apply IH.
Qed.

Lemma spiral_sound endLen fuel : forall step x y xDir yDir r grid',
  spiral o whScale fuel grid mask endLen step x y xDir yDir = Some (r, grid') ->
  searchResult o grid mask r grid'.
Proof.
  induction fuel as [| fuel IH]; intros step x y xDir yDir r grid' H.
  - simpl in H. destruct (Z.shiftr (Int32.toInt32 step) 1 <? endLen);
      [discriminate |]. injection H as <- <-. reflexivity.
  - cbn [spiral] in H.
    destruct (Z.shiftr (Int32.toInt32 step) 1 <? endLen);
      [| injection H as <- <-; reflexivity].
    set (afterX := if (y <? - pixels_height mask) || (height o <? y)
                   then _ else _) in H.
    assert (HX : match afterX with
                 | Some (Placed px py grid1) =>
                     tryPlaceTag o grid mask px py = (true, grid1)
                 | Some (Moved _ grid1) => grid1 = grid
                 | None => True
                 end).
    { subst afterX.
      destruct ((y <? - pixels_height mask) || (height o <? y));
        [reflexivity |].
      destruct (step <? 0); [exact I | apply legX_sound]. }
    destruct afterX as [[px py grid1 | x1 grid1] |]; [| | discriminate].
    + injection H as <- <-. exact HX.
    + subst grid1.
      set (afterY := if (x1 <? - pixels_width mask) || (width o <? x1)
                     then _ else _) in H.
      assert (HY : match afterY with
                   | Some (Placed px py grid1) =>
                       tryPlaceTag o grid mask px py = (true, grid1)
                   | Some (Moved _ grid1) => grid1 = grid
                   | None => True
                   end).
      { subst afterY.
        destruct ((x1 <? - pixels_width mask) || (width o <? x1));
          [reflexivity |].
        destruct (whScale step <? 0); [exact I | apply legY_sound]. }
      destruct afterY as [[px py grid2 | y1 grid2] |]; [| | discriminate].
      * injection H as <- <-. exact HY.
      * subst grid2. eapply IH. exact H.
Qed.

(** Whatever the fuel and the scale, a search that ends has found a place
    that [tryPlaceTag] accepts on the grid it started from, or has left the
    grid as it was. *)
Lemma placeTag_sound fuel xDir yDir r grid' :
  placeTag o whScale fuel xDir yDir grid mask = Some (r, grid') ->
  searchResult o grid mask r grid'.
Proof.
  unfold placeTag.
  destruct (tryPlaceTag o grid mask _ _) as [[|] grid1] eqn:Ht.
  - intros H. injection H as <- <-. exact Ht.
  - apply tryPlaceTag_false in Ht. subst grid1. apply spiral_sound.
Qed.

End SearchSound.

Lemma searchResult_gridLe o grid mask r grid' :
  searchResult o grid mask r grid' ->
  gridLe (pixels_data grid) (pixels_data grid')
  /\ pixels_width grid' = pixels_width grid
  /\ pixels_height grid' = pixels_height grid.
Proof.
  destruct r as [[x y] |]; simpl; intros H.
  - split; [eapply tryPlaceTag_gridLe | eapply tryPlaceTag_extent]; exact H.
  - subst grid'. split; [apply gridLe_refl | split; reflexivity].
Qed.

Lemma searchResult_canvasGrid o grid mask r grid' :
  searchResult o grid mask r grid' ->
  canvasGrid o (pixels_data grid) -> canvasGrid o (pixels_data grid').
Proof.
  destruct r as [[x y] |]; simpl; intros H Hc.
  - eapply canvasGrid_tryPlaceTag; eassumption.
  - subst grid'. exact Hc.
Qed.

(** ** What [handleTag] and [draw] do to the grid *)

Lemma gridAfter_refl o g : gridAfter o g g.
Proof. split; [apply gridLe_refl | auto]. Qed.

Lemma gridAfter_trans o g1 g2 g3 :
  gridAfter o g1 g2 -> gridAfter o g2 g3 -> gridAfter o g1 g3.
Proof.
  intros (H1 & H2 & H3 & H4) (H1' & H2' & H3' & H4').
  split; [eapply gridLe_trans; eassumption |].
  split; [congruence |]. split; [congruence | auto].
Qed.

Lemma searchResult_gridAfter o grid mask r grid' :
  searchResult o grid mask r grid' -> gridAfter o grid grid'.
Proof.
  intros H. destruct (searchResult_gridLe _ _ _ _ _ H) as (H1 & H2 & H3).
  split; [exact H1 |]. split; [exact H2 |]. split; [exact H3 |].
  eapply searchResult_canvasGrid; exact H.
Qed.

Lemma observe_pixels c w : pixels (observe c w) = pixels c.
Proof.
  unfold observe. destruct (Qlt_le_dec (maxTagWeight c) w); simpl.
  - destruct (minTagWeight c) as [m |]; [destruct (Qlt_le_dec w m) |];
      reflexivity.
  - destruct (minTagWeight c) as [m |]; [destruct (Qlt_le_dec w m) |];
      reflexivity.
Qed.

Lemma observeAll_pixels tags : forall c, pixels (observeAll c tags) = pixels c.
Proof.
  unfold observeAll. induction tags as [| t rest IH]; intros c; simpl;
    [reflexivity |]. rewrite IH. apply observe_pixels.
Qed.

Section GridFacts.

Variables (o : Options) (whScale : Z -> Z).
Variables (measureBox : TagSpec -> Z * Z).
Variables (rasterize : TagSpec -> Z -> Z -> ImageData).

Local Abbreviation handleTag := (handleTag o whScale measureBox rasterize).
Local Abbreviation handleTags := (handleTags o whScale measureBox rasterize).
Local Abbreviation getTagPixels := (getTagPixels o measureBox rasterize).
Local Abbreviation draw := (draw o whScale measureBox rasterize).

Lemma handleTag_cases fuel rnd c tag td c' :
  handleTag fuel rnd c tag = Some (td, c') ->
  if td_rendered td
  then exists mask x y,
         getTagPixels (tagSpec o rnd c tag) = Some (Some mask)
         /\ tryPlaceTag o (pixels c) mask x y = (true, pixels c')
         /\ td_x td = Some (Int32.sar0 (Z.quot (2 * x + pixels_width mask) 2))
         /\ td_y td = Some (Int32.sar0 (Z.quot (2 * y + pixels_height mask) 2))
  else td_x td = None /\ td_y td = None /\ c' = c.
Proof.
  unfold handleTag.
  destruct (getTagPixels (tagSpec o rnd c tag)) as [[mask |] |] eqn:Hm;
    [| | discriminate].
  - destruct (placeTag o whScale fuel _ _ (pixels c) mask)
      as [[[[x y] |] grid1] |] eqn:Hp; [| | discriminate].
    + intros H. injection H as <- <-. simpl.
      exists mask, x, y. apply placeTag_sound in Hp. simpl in Hp. auto.
    + intros H. injection H as <- <-. simpl.
      apply placeTag_sound in Hp. simpl in Hp. subst grid1.
      destruct c; auto.
  - intros H. injection H as <- <-. simpl. auto.
Qed.

Lemma handleTag_gridAfter fuel rnd c tag td c' :
  handleTag fuel rnd c tag = Some (td, c') ->
  gridAfter o (pixels c) (pixels c').
Proof.
  intros H. apply handleTag_cases in H.
  destruct (td_rendered td).
  - destruct H as (mask & x & y & _ & Ht & _).
    apply (searchResult_gridAfter o (pixels c) mask (Some (x, y))). exact Ht.
  - destruct H as (_ & _ & ->). apply gridAfter_refl.
Qed.

Lemma handleTags_gridAfter fuel rnd sorted : forall i c result c',
  handleTags fuel rnd i c sorted = Some (result, c') ->
  gridAfter o (pixels c) (pixels c').
Proof.
  induction sorted as [| tag rest IH]; intros i c result c' H; simpl in H.
  - injection H as <- <-. apply gridAfter_refl.
  - destruct (handleTag fuel (rnd i) c tag) as [[td c1] |] eqn:Ht;
      [| discriminate].
    destruct (handleTags fuel rnd (S i) c1 rest) as [[res c2] |] eqn:Hr;
      [| discriminate].
    injection H as <- <-.
    eapply gridAfter_trans; [eapply handleTag_gridAfter | eapply IH];
      eassumption.
Qed.

Lemma draw_gridAfter fuel rnd c (heap : gmap positive (list Tag)) tags
    result c' heap' :
  draw fuel rnd c heap tags = Some (result, c', heap') ->
  gridAfter o (pixels c) (pixels c').
Proof.
  unfold draw, performDraw.
  destruct (heap !! tags) as [contents |] eqn:Hh; [| discriminate].
  destruct (length contents =? 0)%nat.
  - intros H. injection H as <- <- <-. apply gridAfter_refl.
  - rewrite lookup_insert_eq.
    destruct (handleTags fuel rnd 0 _ _) as [[res c1] |] eqn:Hr;
      [| discriminate].
    intros H. injection H as <- <- <-.
    apply handleTags_gridAfter in Hr.
    rewrite observeAll_pixels in Hr. exact Hr.
Qed.

End GridFacts.

Lemma handleTags_unrendered o whScale measureBox rasterize fuel rnd sorted :
  forall i c result c',
    handleTags o whScale measureBox rasterize fuel rnd i c sorted
    = Some (result, c') ->
    Forall (fun td => td_rendered td = false) result -> c' = c.
Proof.
  induction sorted as [| tag rest IH]; intros i c result c' H Hall;
    simpl in H.
  - injection H as <- <-. reflexivity.
  - destruct (handleTag o whScale measureBox rasterize fuel (rnd i) c tag)
      as [[td c1] |] eqn:Ht; [| discriminate].
    destruct (handleTags o whScale measureBox rasterize fuel rnd (S i) c1 rest)
      as [[res c2] |] eqn:Hr; [| discriminate].
    injection H as <- <-. inversion Hall as [| ? ? Htd Hres]; subst.
    apply handleTag_cases in Ht. rewrite Htd in Ht.
    destruct Ht as (_ & _ & ->). eapply IH; eassumption.
Qed.

(** X4. The result of [handleTag] carries the text and the weight of the
    tag and leaves the weight range alone. When [getTagPixels] returns
    [null] the search is not run: the result is unrendered, [x] and [y] are
    [NaN] and the cloud is unchanged. When it returns a mask, the result is
    what [placeTag] finds for that mask on the grid of the cloud: a place
    makes it rendered, with [x] and [y] the centre of the mask at that
    place, and the grid after the call is the one that [tryPlaceTag] left
    there; failure makes it unrendered, with [NaN] for [x] and [y], and the
    cloud is unchanged. *)
Theorem handleTag_outcome o whScale measureBox rasterize fuel rnd c tag td c' :
  handleTag o whScale measureBox rasterize fuel rnd c tag = Some (td, c') ->
  td_text td = text tag /\ td_weight td = weight tag
  /\ maxTagWeight c' = maxTagWeight c /\ minTagWeight c' = minTagWeight c
  /\ match getTagPixels o measureBox rasterize (tagSpec o rnd c tag) with
     | Some (Some mask) =>
         exists r,
           placeTag o whScale fuel (xDirDraw rnd) (yDirDraw rnd) (pixels c)
             mask
           = Some (r, pixels c')
           /\ match r with
              | Some (x, y) =>
                  td_rendered td = true
                  /\ td_x td
                     = Some (Int32.sar0 (Z.quot (2 * x + pixels_width mask) 2))
                  /\ td_y td
                     = Some (Int32.sar0 (Z.quot (2 * y + pixels_height mask) 2))
                  /\ tryPlaceTag o (pixels c) mask x y = (true, pixels c')
              | None =>
                  td_rendered td = false /\ td_x td = None /\ td_y td = None
                  /\ c' = c
              end
     | Some None =>
         td_rendered td = false /\ td_x td = None /\ td_y td = None /\ c' = c
     | None => False
     end.
Proof.
  intros H.
  destruct (handleTag_result _ _ _ _ _ _ _ _ _ _ H)
    as ([Htext Hweight] & _ & Hmax & Hmin).
  split; [exact Htext |]. split; [exact Hweight |].
  split; [exact Hmax |]. split; [exact Hmin |].
  revert H. unfold handleTag.
  destruct (getTagPixels o measureBox rasterize (tagSpec o rnd c tag))
    as [[mask |] |]; [| | discriminate].
  - destruct (placeTag o whScale fuel _ _ (pixels c) mask)
      as [[[[x y] |] grid1] |] eqn:Hp; [| | discriminate].
    + intros H. injection H as <- <-. cbn [pixels td_rendered td_x td_y].
      exists (Some (x, y)). split; [reflexivity |].
      apply placeTag_sound in Hp. simpl in Hp. auto.
    + intros H. injection H as <- <-. cbn [pixels td_rendered td_x td_y].
      exists None. split; [reflexivity |].
      apply placeTag_sound in Hp. simpl in Hp. subst grid1.
      destruct c; auto.
  - intros H. injection H as <- <-. simpl. auto.
Qed.

Lemma handleTag_outcome_witness :
  match handleTag (exOptions false) exScale exMeasure exRaster 66 (exDraws 0)
          exCloud (mkTag "ab" 1 None None) with
  | Some (td, c') =>
      td_text td = "ab" /\ td_weight td = 1%Q
      /\ maxTagWeight c' = maxTagWeight exCloud
      /\ minTagWeight c' = minTagWeight exCloud
      /\ match getTagPixels (exOptions false) exMeasure exRaster
                 (tagSpec (exOptions false) (exDraws 0) exCloud
                    (mkTag "ab" 1 None None)) with
         | Some (Some mask) =>
             exists r,
               placeTag (exOptions false) exScale 66 1 1 (pixels exCloud) mask
               = Some (r, pixels c')
               /\ match r with
                  | Some (x, y) =>
                      td_rendered td = true
                      /\ td_x td
                         = Some (Int32.sar0
                                   (Z.quot (2 * x + pixels_width mask) 2))
                      /\ td_y td
                         = Some (Int32.sar0
                                   (Z.quot (2 * y + pixels_height mask) 2))
                      /\ tryPlaceTag (exOptions false) (pixels exCloud) mask
                           x y
                         = (true, pixels c')
                  | None =>
                      td_rendered td = false /\ td_x td = None
                      /\ td_y td = None /\ c' = exCloud
                  end
         | Some None =>
             td_rendered td = false /\ td_x td = None /\ td_y td = None
             /\ c' = exCloud
         | None => False
         end
  | None => False
  end.
Proof.
  destruct (handleTag (exOptions false) exScale exMeasure exRaster 66
              (exDraws 0) exCloud (mkTag "ab" 1 None None))
    as [[td c'] |] eqn:Htag.
  - apply (handleTag_outcome (exOptions false) exScale exMeasure exRaster 66
             (exDraws 0) exCloud (mkTag "ab" 1 None None) td c').
    exact Htag.
  - vm_compute in Htag. discriminate.
Defined.

(** X5. A [draw] that ends never frees a cell: the grid keeps its words
    and its extent, every bit that was set stays set, the right edge of a
    canvas grid stays closed, and when no result is rendered the grid is
    the one before the call. *)
Theorem draw_grid o whScale measureBox rasterize fuel rnd c
    (heap : gmap positive (list Tag)) tags result c' heap' :
  draw o whScale measureBox rasterize fuel rnd c heap tags
  = Some (result, c', heap') ->
  gridLe (pixels_data (pixels c)) (pixels_data (pixels c'))
  /\ pixels_width (pixels c') = pixels_width (pixels c)
  /\ pixels_height (pixels c') = pixels_height (pixels c)
  /\ (canvasGrid o (pixels_data (pixels c)) ->
      canvasGrid o (pixels_data (pixels c')))
  /\ (Forall (fun td => td_rendered td = false) result ->
      pixels c' = pixels c).
Proof.
  intros H.
  destruct (draw_gridAfter _ _ _ _ _ _ _ _ _ _ _ _ H) as (H1 & H2 & H3 & H4).
  do 4 (split; [assumption |]).
  revert H. unfold draw, performDraw.
  destruct (heap !! tags) as [contents |]; [| discriminate].
  destruct (length contents =? 0)%nat.
  - intros H. injection H as <- <- <-. reflexivity.
  - rewrite lookup_insert_eq.
    destruct (handleTags _ _ _ _ _ _ _ _ _) as [[res c1] |] eqn:Hr;
      [| discriminate].
    intros H Hall. injection H as <- <- <-.
    rewrite (handleTags_unrendered _ _ _ _ _ _ _ _ _ _ _ Hr Hall).
    apply observeAll_pixels.
Qed.

Lemma draw_grid_witness :
  match exDraw exCloud exTags with
  | Some (result, c', _) =>
      gridLe (pixels_data (pixels exCloud)) (pixels_data (pixels c'))
      /\ pixels_width (pixels c') = pixels_width (pixels exCloud)
      /\ pixels_height (pixels c') = pixels_height (pixels exCloud)
      /\ (canvasGrid (exOptions false) (pixels_data (pixels exCloud)) ->
          canvasGrid (exOptions false) (pixels_data (pixels c')))
      /\ (Forall (fun td => td_rendered td = false) result ->
          pixels c' = pixels exCloud)
  | None => False
  end.
Proof.
  destruct (exDraw exCloud exTags) as [[[result c'] heap'] |] eqn:Hdraw.
  - apply (draw_grid (exOptions false) exScale exMeasure exRaster 66 exDraws
             exCloud {[ 1%positive := exTags ]} 1%positive result c' heap').
    exact Hdraw.
  - vm_compute in Hdraw. discriminate.
Defined.

(** ** The cells of a fresh grid *)

Lemma cellAt_wordAt d r c :
  cellAt d r c = (fun w => Z.testbit w (31 - c mod 32)) <$> wordAt d r (c / 32).
Proof.
  unfold cellAt, wordAt, rowBit. destruct (getZ d r); reflexivity.
Qed.

(** The last word of a row of an empty grid: the cells beyond the columns
    are occupied when a tag must not pass the edge. *)
Lemma tailFill_empty_bit o XL forTag k :
  0 <= k < 32 -> 0 <= XL ->
  Z.testbit (tailFill o XL 0 forTag) k
  = negb forTag && negb (cut o) && negb (XL mod 32 =? 0)
    && (k + XL mod 32 <? 32).
Proof.
  intros Hk HXL. unfold tailFill. rewrite Z.rem_mod_nonneg by lia.
  pose proof (Z.mod_pos_bound XL 32 ltac:(lia)) as Hm.
  destruct forTag; simpl; [apply Z.bits_0 |].
  destruct (Z.eqb_spec (XL mod 32) 0) as [E | Hne]; simpl.
  - rewrite Bool.andb_false_r. apply Z.bits_0.
  - destruct (cut o); simpl.
    + rewrite Int32Facts.testbit_and by lia. rewrite Z.bits_0. reflexivity.
    + rewrite Int32Facts.testbit_or, Int32Facts.testbit_shru by lia.
      unfold Int32.shiftCount. rewrite Z.mod_mod by lia.
      rewrite Z.bits_0, Z.bits_m1 by lia. simpl.
      apply Bool.andb_true_r.
Qed.

(** The last word of a row of a full grid: the cells of the columns are
    occupied. *)
Lemma tailFill_full_bit o XL k :
  0 <= k < 32 -> 0 <= XL -> XL mod 32 = 0 \/ 32 - XL mod 32 <= k ->
  Z.testbit (tailFill o XL (-1) false) k = true.
Proof.
  intros Hk HXL Hin. unfold tailFill. rewrite Z.rem_mod_nonneg by lia.
  pose proof (Z.mod_pos_bound XL 32 ltac:(lia)) as Hm. simpl orb.
  destruct (Z.eqb_spec (XL mod 32) 0) as [E | Hne]; [apply Z.bits_m1; lia |].
  destruct (cut o).
  - rewrite Int32Facts.testbit_and, Int32Facts.testbit_shl by lia.
    assert (Hs : Int32.shiftCount (32 - XL mod 32) = 32 - XL mod 32).
    { unfold Int32.shiftCount. apply Z.mod_small. lia. }
    rewrite Hs, !Z.bits_m1 by lia.
    destruct (Z.leb_spec (32 - XL mod 32) k); [reflexivity | lia].
  - rewrite Int32Facts.testbit_or by lia. rewrite Z.bits_m1 by lia.
    reflexivity.
Qed.

Section Fresh.

Variables (o : Options) (w h : Z).

Hypothesis ratio_pos : 0 < pixelRatio o.
Hypothesis width_nonneg : 0 <= w.

Let XL := ceilDiv w (pixelRatio o).
Let YL := ceilDiv h (pixelRatio o).

Lemma generatePixels_stored_iff fill forTag r c :
  stored (pixels_data (generatePixels o w h fill forTag)) r c
  <-> 0 <= r < YL /\ 0 <= c < 32 * ceilDiv XL 32.
Proof.
  unfold stored. rewrite generatePixels_wordAt. fold XL YL.
  pose proof (Z.div_mod c 32 ltac:(lia)) as Hdc.
  pose proof (Z.mod_pos_bound c 32 ltac:(lia)) as Hmc.
  destruct (Z.leb_spec 0 r), (Z.ltb_spec r YL), (Z.leb_spec 0 (c / 32)),
    (Z.ltb_spec (c / 32) (ceilDiv XL 32)); simpl;
    (split; [intros [? ?]; try discriminate | intros ?; try lia]); eauto; lia.
Qed.

(** An empty grid: the only occupied cells are the cells beyond the columns,
    in a grid for the canvas when [cut] is [false]. *)
Lemma generatePixels_empty_inkAt forTag r c :
  inkAt (pixels_data (generatePixels o w h 0 forTag)) r c = true
  <-> forTag = false /\ cut o = false /\ XL <= c
      /\ stored (pixels_data (generatePixels o w h 0 forTag)) r c.
Proof.
  rewrite generatePixels_stored_iff. unfold inkAt.
  rewrite generatePixels_wordAt. fold XL YL.
  pose proof (ceilDiv_nonneg w (pixelRatio o) ratio_pos width_nonneg) as HXL.
  fold XL in HXL.
  pose proof (ceilDiv_bounds XL 32 ltac:(lia)) as Hlen.
  pose proof (Z.div_mod c 32 ltac:(lia)) as Hdc.
  pose proof (Z.mod_pos_bound c 32 ltac:(lia)) as Hmc.
  pose proof (Z.div_mod XL 32 ltac:(lia)) as HdX.
  pose proof (Z.mod_pos_bound XL 32 ltac:(lia)) as HmX.
  destruct (Z.leb_spec 0 r), (Z.ltb_spec r YL), (Z.leb_spec 0 (c / 32)),
    (Z.ltb_spec (c / 32) (ceilDiv XL 32)); simpl;
    try (split; [discriminate | lia]).
  destruct (Z.eqb_spec (c / 32) (ceilDiv XL 32 - 1)) as [E | Hne].
  - rewrite tailFill_empty_bit by lia.
    destruct forTag; simpl; [split; [discriminate | intros [? _]; discriminate] |].
    destruct (cut o); simpl; [split; [discriminate | intros (_ & ? & _); discriminate] |].
    destruct (Z.eqb_spec (XL mod 32) 0) as [E0 | Hne0]; simpl.
    + split; [discriminate | lia].
    + destruct (Z.ltb_spec (31 - c mod 32 + XL mod 32) 32);
        (split; [intros | intros (_ & _ & ? & _)]); try discriminate;
        try reflexivity; repeat split; lia.
  - rewrite Z.bits_0. split; [discriminate | lia].
Qed.

(** A full grid: every cell of the columns is occupied. *)
Lemma generatePixels_full_inkAt r c :
  0 <= r < YL -> 0 <= c < XL ->
  inkAt (pixels_data (generatePixels o w h (-1) false)) r c = true.
Proof.
  intros Hr Hc. unfold inkAt. rewrite generatePixels_wordAt. fold XL YL.
  pose proof (ceilDiv_bounds XL 32 ltac:(lia)) as Hlen.
  pose proof (Z.div_mod c 32 ltac:(lia)) as Hdc.
  pose proof (Z.mod_pos_bound c 32 ltac:(lia)) as Hmc.
  pose proof (Z.div_mod XL 32 ltac:(lia)) as HdX.
  pose proof (Z.mod_pos_bound XL 32 ltac:(lia)) as HmX.
  destruct (Z.leb_spec 0 r), (Z.ltb_spec r YL), (Z.leb_spec 0 (c / 32)),
    (Z.ltb_spec (c / 32) (ceilDiv XL 32)); simpl; try lia.
  destruct (Z.eqb_spec (c / 32) (ceilDiv XL 32 - 1)) as [E | Hne];
    [| apply Z.bits_m1; lia].
  apply tailFill_full_bit; lia.
Qed.

End Fresh.

(** X6. The empty grid of [generatePixels] (fill 0), for a width of at
    least one pixel, stores the cells of its rows up to the end of the last
    word, and its only occupied cells are the cells beyond the columns of
    the canvas, in a grid that is not for a tag and when [cut] is
    [false]. *)
Theorem generatePixels_empty o w h forTag r c :
  0 < pixelRatio o -> 0 < w ->
  (stored (pixels_data (generatePixels o w h 0 forTag)) r c
   <-> 0 <= r < ceilDiv h (pixelRatio o)
       /\ 0 <= c < 32 * ceilDiv (ceilDiv w (pixelRatio o)) 32)
  /\ (inkAt (pixels_data (generatePixels o w h 0 forTag)) r c = true
      <-> forTag = false /\ cut o = false
          /\ ceilDiv w (pixelRatio o) <= c
          /\ stored (pixels_data (generatePixels o w h 0 forTag)) r c).
Proof.
  intros Hpr Hw. split.
  - apply generatePixels_stored_iff; lia.
  - apply generatePixels_empty_inkAt; lia.
Qed.

Lemma generatePixels_empty_witness :
  (stored (pixels_data (generatePixels (exOptions false) 100 8 0 false)) 1 30
   <-> 0 <= 1 < ceilDiv 8 (pixelRatio (exOptions false))
       /\ 0 <= 30 < 32 * ceilDiv (ceilDiv 100 (pixelRatio (exOptions false))) 32)
  /\ (inkAt (pixels_data (generatePixels (exOptions false) 100 8 0 false)) 1 30
      = true
      <-> false = false /\ cut (exOptions false) = false
          /\ ceilDiv 100 (pixelRatio (exOptions false)) <= 30
          /\ stored (pixels_data (generatePixels (exOptions false) 100 8 0 false))
               1 30).
Proof.
  apply (generatePixels_empty (exOptions false) 100 8 false 1 30).
  - reflexivity.
  - reflexivity.
Defined.

(** ** The loop of [getPixelsFromImgData], cell by cell *)

Lemma updateWord_wordAt_all d r x f r' x' :
  wordAt (updateWord d r x f) r' x'
  = if (r' =? r) && (x' =? x) then f <$> wordAt d r x else wordAt d r' x'.
Proof.
  destruct (Z.eqb_spec r' r) as [-> | Hr]; simpl.
  - destruct (Z.eqb_spec x' x) as [-> | Hx].
    + destruct (wordAt d r x) as [v |] eqn:Hv.
      * apply updateWord_wordAt. exact Hv.
      * simpl. unfold updateWord. unfold wordAt in Hv |- *.
        destruct (getZ d r) as [row |] eqn:Hrow.
        -- rewrite Hv, Hrow. exact Hv.
        -- rewrite Hrow. reflexivity.
    + apply updateWord_other. congruence.
  - apply updateWord_other. congruence.
Qed.

Lemma sar0_word pixelX :
  0 <= pixelX < 2 ^ 31 -> Int32.sar0 (Z.quot pixelX 32) = pixelX / 32.
Proof.
  intros HpX. rewrite Z.quot_div_nonneg by lia. unfold Int32.sar0.
  apply Int32Facts.toInt32_small.
  pose proof (Z.div_pos pixelX 32 ltac:(lia) ltac:(lia)).
  pose proof (Z.div_le_upper_bound pixelX 32 pixelX ltac:(lia) ltac:(lia)).
  lia.
Qed.

(** Marking a cell sets it in a grid that starts empty, clears it in a grid
    that starts full, and leaves the other cells alone. *)
Lemma markCell_cellAt fill d pixelX pixelY r c :
  0 <= pixelX < 2 ^ 31 ->
  cellAt (markCell fill d pixelX pixelY) r c
  = if (r =? pixelY) && (c =? pixelX)
    then (fun _ => negb (Int32.truthy fill)) <$> cellAt d r c
    else cellAt d r c.
Proof.
  intros HpX. unfold markCell. rewrite sar0_word by assumption.
  rewrite !cellAt_wordAt.
  pose proof (Z.mod_pos_bound c 32 ltac:(lia)) as Hmc.
  pose proof (Z.mod_pos_bound pixelX 32 ltac:(lia)) as Hmp.
  pose proof (Z.div_mod c 32 ltac:(lia)) as Hdc.
  pose proof (Z.div_mod pixelX 32 ltac:(lia)) as Hdp.
  destruct (Int32.truthy fill); rewrite updateWord_wordAt_all;
    destruct (Z.eqb_spec r pixelY) as [-> | Hr]; simpl; try reflexivity;
    destruct (Z.eqb_spec (c / 32) (pixelX / 32)) as [E | Hq];
    destruct (Z.eqb_spec c pixelX) as [-> | Hc]; try reflexivity;
    try congruence.
  - destruct (wordAt d pixelY (pixelX / 32)) as [v |]; simpl; [| reflexivity].
    rewrite Int32Facts.testbit_and, Int32Facts.testbit_not, cell_bit by lia.
    rewrite Z.eqb_refl. rewrite Bool.andb_false_r. reflexivity.
  - rewrite E.
    destruct (wordAt d pixelY (pixelX / 32)) as [v |]; simpl; [| reflexivity].
    rewrite Int32Facts.testbit_and, Int32Facts.testbit_not, cell_bit by lia.
    destruct (Z.eqb_spec (31 - c mod 32) (31 - pixelX mod 32)); [lia |].
    rewrite Bool.andb_true_r. reflexivity.
  - destruct (wordAt d pixelY (pixelX / 32)) as [v |]; simpl; [| reflexivity].
    rewrite Int32Facts.testbit_or, cell_bit by lia.
    rewrite Z.eqb_refl. rewrite Bool.orb_true_r. reflexivity.
  - rewrite E.
    destruct (wordAt d pixelY (pixelX / 32)) as [v |]; simpl; [| reflexivity].
    rewrite Int32Facts.testbit_or, cell_bit by lia.
    destruct (Z.eqb_spec (31 - c mod 32) (31 - pixelX mod 32)); [lia |].
    rewrite Bool.orb_false_r. reflexivity.
Qed.

Section DownsampleExact.

Variables (o : Options) (img : ImageData) (opacityT lightT fill : Z).

Hypothesis ratio_pos : 0 < pixelRatio o.
Hypothesis width_small : 0 <= 4 * img_width img < 2 ^ 31.

Let XL := ceilDiv (img_width img) (pixelRatio o).
Let YL := ceilDiv (img_height img) (pixelRatio o).

(** The loop marks the cells ahead of it in which the scan finds ink, and
    no other cell. *)
Lemma downsample_cellAt cy cx :
  0 <= cx < XL ->
  forall n pixelX pixelY d,
    0 <= pixelX < XL ->
    cellAt (downsample o img opacityT lightT fill n pixelX pixelY d) cy cx
    = if (0 <=? cy * XL + cx - (pixelY * XL + pixelX))
         && (cy * XL + cx - (pixelY * XL + pixelX) <? Z.of_nat n)
         && cellInk o img opacityT lightT cx cy
      then (fun _ => negb (Int32.truthy fill)) <$> cellAt d cy cx
      else cellAt d cy cx.
Proof.
  intros Hcx.
  pose proof (ceilDiv_bounds (img_width img) (pixelRatio o) ratio_pos) as HXL.
  fold XL in HXL.
  induction n as [| n IH]; intros pixelX pixelY d HpX.
  - cbn [downsample]. change (Z.of_nat 0) with 0.
    destruct (Z.leb_spec 0 (cy * XL + cx - (pixelY * XL + pixelX))),
      (Z.ltb_spec (cy * XL + cx - (pixelY * XL + pixelX)) 0);
      simpl; try reflexivity; lia.
  - cbn [downsample]. fold XL.
    set (d1 := if cellInk _ _ _ _ _ _ then _ else d).
    assert (H1 : cellAt d1 cy cx
                 = if (cy =? pixelY) && (cx =? pixelX)
                      && cellInk o img opacityT lightT cx cy
                   then (fun _ => negb (Int32.truthy fill)) <$> cellAt d cy cx
                   else cellAt d cy cx).
    { subst d1.
      destruct (Z.eqb_spec cy pixelY) as [-> | Hy]; simpl.
      - destruct (Z.eqb_spec cx pixelX) as [-> | Hx]; simpl.
        + destruct (cellInk o img opacityT lightT pixelX pixelY);
            [| reflexivity].
          rewrite markCell_cellAt by nia. rewrite !Z.eqb_refl. reflexivity.
        + destruct (cellInk o img opacityT lightT pixelX pixelY);
            [| reflexivity].
          rewrite markCell_cellAt by nia.
          destruct (Z.eqb_spec cx pixelX); [lia |].
          rewrite Bool.andb_false_r. reflexivity.
      - destruct (cellInk o img opacityT lightT pixelX pixelY);
          [| reflexivity].
        rewrite markCell_cellAt by nia.
        destruct (Z.eqb_spec cy pixelY); [lia | reflexivity]. }
    set (k := cy * XL + cx - (pixelY * XL + pixelX)).
    assert (Hk0 : (cy =? pixelY) && (cx =? pixelX) = (k =? 0)).
    { subst k.
      destruct (Z.eqb_spec cy pixelY) as [-> | Hy]; simpl.
      - destruct (Z.eqb_spec cx pixelX), (Z.eqb_spec (pixelY * XL + cx
                                             - (pixelY * XL + pixelX)) 0);
          try reflexivity; lia.
      - destruct (Z.eqb_spec (cy * XL + cx - (pixelY * XL + pixelX)) 0)
          as [E | Hne]; [| reflexivity].
        exfalso. destruct (Z.lt_trichotomy cy pixelY) as [Hlt | [Heq | Hgt]];
          [nia | lia | nia]. }
    rewrite Hk0 in H1.
    assert (Hnext : cellAt
                      (if pixelX + 1 =? XL
                       then downsample o img opacityT lightT fill n 0
                              (pixelY + 1) d1
                       else downsample o img opacityT lightT fill n
                              (pixelX + 1) pixelY d1) cy cx
                    = if (0 <=? k - 1) && (k - 1 <? Z.of_nat n)
                         && cellInk o img opacityT lightT cx cy
                      then (fun _ => negb (Int32.truthy fill))
                           <$> cellAt d1 cy cx
                      else cellAt d1 cy cx).
    { destruct (Z.eqb_spec (pixelX + 1) XL) as [E | Hne].
      - rewrite IH by lia.
        replace (cy * XL + cx - ((pixelY + 1) * XL + 0)) with (k - 1)
          by (subst k; lia).
        reflexivity.
      - rewrite IH by lia.
        replace (cy * XL + cx - (pixelY * XL + (pixelX + 1))) with (k - 1)
          by (subst k; lia).
        reflexivity. }
    match goal with
    | |- cellAt ?t cy cx = _ =>
        match type of Hnext with
        | cellAt ?u cy cx = _ => replace t with u
        end
    end.
    2: { destruct (pixelX + 1 =? XL); reflexivity. }
    rewrite Hnext, H1. clear Hnext H1 Hk0.
    destruct (Z.eqb_spec k 0) as [E | Hne].
    + rewrite E. simpl.
      destruct (cellInk o img opacityT lightT cx cy); simpl; [| reflexivity].
      destruct (Z.ltb_spec 0 (Z.of_nat (S n))); [reflexivity | lia].
    + simpl.
      destruct (Z.leb_spec 0 (k - 1)), (Z.leb_spec 0 k),
        (Z.ltb_spec (k - 1) (Z.of_nat n)), (Z.ltb_spec k (Z.of_nat (S n)));
        simpl; try reflexivity; lia.
Qed.

(** The grid that [getPixelsFromImgData] returns, on the cells of the
    image. *)
Lemma getPixelsFromImgData_cellAt forTag cy cx :
  0 <= cx < XL -> 0 <= cy < YL ->
  cellAt (pixels_data (getPixelsFromImgData o img opacityT lightT fill forTag))
    cy cx
  = if cellInk o img opacityT lightT cx cy
    then Some (negb (Int32.truthy fill))
    else cellAt
           (pixels_data
              (generatePixels o (img_width img) (img_height img) fill forTag))
           cy cx.
Proof.
  intros Hcx Hcy. rewrite getPixelsFromImgData_data. fold XL YL.
  rewrite downsample_cellAt by lia.
  rewrite Z2Nat.id by nia.
  destruct (Z.leb_spec 0 (cy * XL + cx - (0 * XL + 0))); [| nia].
  destruct (Z.ltb_spec (cy * XL + cx - (0 * XL + 0)) (XL * YL)); [| nia].
  cbn [andb].
  destruct (cellInk o img opacityT lightT cx cy); [| reflexivity].
  assert (Hst : stored
                  (pixels_data
                     (generatePixels o (img_width img) (img_height img) fill
                        forTag)) cy cx)
    by (apply generatePixels_stored; assumption).
  apply stored_cellAt in Hst as [b ->]. reflexivity.
Qed.

End DownsampleExact.

(** ** The scan of a cell finds ink only where there is some *)

Lemma scanX_inv data opacityT lightT offset n : forall x0,
  scanX data opacityT lightT offset n x0 = true ->
  exists m : nat,
    (m < n)%nat
    /\ isInk data opacityT lightT (offset + Int32.shl (x0 + Z.of_nat m) 2)
       = true.
Proof.
  induction n as [| n IH]; intros x0 H; [discriminate |]. simpl in H.
  destruct (isInk data opacityT lightT (offset + Int32.shl x0 2)) eqn:Hi.
  - exists 0%nat. rewrite Z.add_0_r. split; [lia | exact Hi].
  - destruct (IH _ H) as (m & Hm & Hink). exists (S m). split; [lia |].
    replace (x0 + Z.of_nat (S m)) with (x0 + 1 + Z.of_nat m) by lia.
    exact Hink.
Qed.

Lemma scanY_inv data opacityT lightT outerOffset dataXLength xLength n :
  forall y0,
  scanY data opacityT lightT outerOffset dataXLength xLength n y0 = true ->
  exists m : nat,
    (m < n)%nat
    /\ scanX data opacityT lightT
         (outerOffset + (y0 + Z.of_nat m) * dataXLength) (Z.to_nat xLength) 0
       = true.
Proof.
  induction n as [| n IH]; intros y0 H; [discriminate |]. simpl in H.
  destruct (scanX data opacityT lightT (outerOffset + y0 * dataXLength)
              (Z.to_nat xLength) 0) eqn:Hx.
  - exists 0%nat. rewrite Z.add_0_r. split; [lia | exact Hx].
  - destruct (IH _ H) as (m & Hm & Hrow). exists (S m). split; [lia |].
    replace (y0 + Z.of_nat (S m)) with (y0 + 1 + Z.of_nat m) by lia.
    exact Hrow.
Qed.

(** The pixels of a cell lie in the image: the last cell of a row or a
    column is as wide or as high as what is left. *)
Lemma edge_inside n b c m :
  0 < b -> 0 <= c < ceilDiv n b ->
  0 <= m < (if c =? ceilDiv n b - 1
            then if Z.rem n b =? 0 then b else Z.rem n b
            else b) ->
  0 <= c * b + m < n /\ (c * b + m) / b = c.
Proof.
  intros Hb Hc Hm.
  pose proof (ceilDiv_bounds n b Hb) as Hcd.
  assert (Hn : 0 < n) by nia.
  pose proof (Z.mod_pos_bound n b Hb) as Hmn.
  pose proof (Z.div_mod n b ltac:(lia)) as Hdmn.
  rewrite Z.rem_mod_nonneg in Hm by lia.
  assert (Hmb : 0 <= m < b).
  { destruct (c =? ceilDiv n b - 1); [| lia].
    destruct (n mod b =? 0); lia. }
  split.
  - destruct (Z.eqb_spec c (ceilDiv n b - 1)) as [E | Hne]; [| nia].
    destruct (Z.eqb_spec (n mod b) 0) as [E0 | Hne0].
    + assert (ceilDiv n b = n / b) by nia. nia.
    + assert (ceilDiv n b = n / b + 1) by nia. nia.
  - symmetry. apply (Z.div_unique _ b _ m); lia.
Qed.

Lemma cellInk_inv o img opacityT lightT cx cy :
  0 < pixelRatio o ->
  0 <= 4 * img_width img < 2 ^ 31 ->
  0 <= cx < ceilDiv (img_width img) (pixelRatio o) ->
  0 <= cy < ceilDiv (img_height img) (pixelRatio o) ->
  cellInk o img opacityT lightT cx cy = true ->
  exists px py,
    0 <= px < img_width img /\ 0 <= py < img_height img
    /\ px / pixelRatio o = cx /\ py / pixelRatio o = cy
    /\ inkPixel img opacityT lightT px py = true.
Proof.
  intros Hpr Hw Hcx Hcy H. unfold cellInk in H.
  set (pr := pixelRatio o) in *. set (w := img_width img) in *.
  set (h := img_height img) in *.
  apply scanY_inv in H as (my & Hmy & H).
  apply scanX_inv in H as (mx & Hmx & H).
  destruct (edge_inside w pr cx (Z.of_nat mx) Hpr Hcx ltac:(lia)) as [Hpx Hqx].
  destruct (edge_inside h pr cy (Z.of_nat my) Hpr Hcy ltac:(lia)) as [Hpy Hqy].
  exists (cx * pr + Z.of_nat mx), (cy * pr + Z.of_nat my).
  split; [exact Hpx |]. split; [exact Hpy |].
  split; [exact Hqx |]. split; [exact Hqy |].
  unfold inkPixel. fold w.
  rewrite !Z.add_0_l in H. rewrite !shl_2 in H by nia.
  replace (4 * ((cy * pr + Z.of_nat my) * w + (cx * pr + Z.of_nat mx)))
    with (cy * pr * (4 * w) + 4 * (cx * pr) + Z.of_nat my * (4 * w)
          + 4 * Z.of_nat mx) by nia.
  exact H.
Qed.

(** The scan of a cell finds ink exactly when the cell covers an ink pixel
    of the image. *)
Lemma cellInk_iff o img opacityT lightT cx cy :
  0 < pixelRatio o ->
  0 <= 4 * img_width img < 2 ^ 31 ->
  0 <= cx < ceilDiv (img_width img) (pixelRatio o) ->
  0 <= cy < ceilDiv (img_height img) (pixelRatio o) ->
  cellInk o img opacityT lightT cx cy = true
  <-> exists px py,
        0 <= px < img_width img /\ 0 <= py < img_height img
        /\ px / pixelRatio o = cx /\ py / pixelRatio o = cy
        /\ inkPixel img opacityT lightT px py = true.
Proof.
  intros Hpr Hw Hcx Hcy. split.
  - apply cellInk_inv; assumption.
  - intros (px & py & Hpx & Hpy & <- & <- & Hink).
    apply cellInk_hit; assumption.
Qed.

Lemma updateWord_stored d r x f r' c :
  stored (updateWord d r x f) r' c <-> stored d r' c.
Proof.
  unfold stored. rewrite updateWord_wordAt_all.
  destruct ((r' =? r) && (c / 32 =? x)) eqn:E; [| reflexivity].
  apply andb_prop in E as [Er Ex].
  apply Z.eqb_eq in Er, Ex. subst r' x.
  destruct (wordAt d r (c / 32)); simpl; split; intros [? ?]; eauto;
    discriminate.
Qed.

Lemma downsample_stored o img opacityT lightT fill r c n :
  forall pixelX pixelY d,
    stored (downsample o img opacityT lightT fill n pixelX pixelY d) r c
    <-> stored d r c.
Proof.
  induction n as [| n IH]; intros pixelX pixelY d; cbn [downsample];
    [reflexivity |].
  set (d1 := if cellInk _ _ _ _ _ _ then _ else d).
  assert (H1 : stored d1 r c <-> stored d r c).
  { subst d1. destruct (cellInk o img opacityT lightT pixelX pixelY);
      [| reflexivity].
    unfold markCell. destruct (Int32.truthy fill); apply updateWord_stored. }
  destruct (pixelX + 1 =? _); rewrite IH; exact H1.
Qed.

Lemma inkAt_stored d r c : inkAt d r c = true -> stored d r c.
Proof.
  unfold inkAt, stored. destruct (wordAt d r (c / 32)); [eauto | discriminate].
Qed.

Section Masks.

Variables (o : Options) (img : ImageData) (opacityT lightT : Z).

Hypothesis ratio_pos : 0 < pixelRatio o.
Hypothesis width_small : 0 <= 4 * img_width img < 2 ^ 31.

Let XL := ceilDiv (img_width img) (pixelRatio o).
Let YL := ceilDiv (img_height img) (pixelRatio o).

(** The mask of a tag: the ink cells are the cells of the image in which
    the scan finds ink. *)
Lemma tagMask_inkAt cy cx :
  inkAt (pixels_data (getPixelsFromImgData o img opacityT lightT 0 true)) cy cx
  = (0 <=? cx) && (cx <? XL) && (0 <=? cy) && (cy <? YL)
    && cellInk o img opacityT lightT cx cy.
Proof.
  pose proof (ceilDiv_nonneg (img_width img) (pixelRatio o) ratio_pos
                ltac:(lia)) as HXL. fold XL in HXL.
  set (gen := pixels_data
                (generatePixels o (img_width img) (img_height img) 0 true)).
  assert (Hgen : forall r c, inkAt gen r c = false).
  { intros r c. destruct (inkAt gen r c) eqn:E; [| reflexivity].
    apply generatePixels_empty_inkAt in E; [| assumption | lia].
    destruct E as [E _]. discriminate. }
  destruct ((0 <=? cx) && (cx <? XL) && (0 <=? cy) && (cy <? YL)) eqn:Hin;
    cbn [andb].
  - repeat (apply andb_prop in Hin as [Hin ?]).
    rewrite inkAt_cellAt, getPixelsFromImgData_cellAt by (assumption || lia).
    destruct (cellInk o img opacityT lightT cx cy); [reflexivity |].
    fold gen. rewrite <- inkAt_cellAt. apply Hgen.
  - destruct (inkAt _ cy cx) eqn:E; [exfalso | reflexivity].
    pose proof (inkAt_stored _ _ _ E) as Hst.
    rewrite getPixelsFromImgData_data in Hst, E.
    apply downsample_stored in Hst.
    apply generatePixels_stored_iff in Hst.
    fold XL YL in Hst. fold XL YL gen in E.
    assert (Hc : XL <= cx).
    { destruct (Z.leb_spec 0 cx), (Z.ltb_spec cx XL), (Z.leb_spec 0 cy),
        (Z.ltb_spec cy YL); try discriminate; lia. }
    destruct (Z.eq_dec XL 0) as [E0 | Hne].
    + rewrite E0 in E. simpl in E. rewrite Hgen in E. discriminate.
    + rewrite downsample_beyond in E;
        [rewrite Hgen in E; discriminate | assumption .. | fold XL; lia].
Qed.

(** The grid of a mask image or of a shape: a cell of the image is free
    exactly when the scan finds ink in it. *)
Lemma fullGrid_inkAt cy cx :
  0 <= cx < XL -> 0 <= cy < YL ->
  inkAt (pixels_data (getPixelsFromImgData o img opacityT lightT (-1) false))
    cy cx
  = negb (cellInk o img opacityT lightT cx cy).
Proof.
  intros Hcx Hcy.
  rewrite inkAt_cellAt, getPixelsFromImgData_cellAt by (assumption || lia).
  destruct (cellInk o img opacityT lightT cx cy); [reflexivity |].
  rewrite <- inkAt_cellAt. apply generatePixels_full_inkAt; (assumption || lia).
Qed.

End Masks.

Lemma getPixelsFromImgData_rows o img opacityT lightT fill forTag :
  length (pixels_data (getPixelsFromImgData o img opacityT lightT fill forTag))
  = Z.to_nat (ceilDiv (img_height img) (pixelRatio o)).
Proof.
  rewrite getPixelsFromImgData_data, downsample_length.
  apply generatePixels_length.
Qed.

(** X7. The mask that [getTagPixels] returns has ink exactly in the
    cells that cover a pixel of the rasterised text that passes the ink
    test with thresholds 2 and 765; it has no ink outside the box of the
    text. *)
Theorem getTagPixels_cells o measureBox rasterize s mask cx cy :
  0 < pixelRatio o ->
  0 <= 4 * width o < 2 ^ 31 ->
  0 <= fst (measureBox s) ->
  img_width (rasterize s (fst (measureBox s)) (snd (measureBox s)))
  = fst (measureBox s) ->
  getTagPixels o measureBox rasterize s = Some (Some mask) ->
  inkAt (pixels_data mask) cy cx = true
  <-> exists px py,
        0 <= px < fst (measureBox s)
        /\ 0 <= py
             < img_height (rasterize s (fst (measureBox s)) (snd (measureBox s)))
        /\ px / pixelRatio o = cx /\ py / pixelRatio o = cy
        /\ inkPixel (rasterize s (fst (measureBox s)) (snd (measureBox s)))
             2 (255 * 3) px py = true.
Proof.
  intros Hpr Hw Hpw Hiw. unfold getTagPixels.
  destruct (measureBox s) as [pw ph]. simpl in *.
  destruct ((height o <? ph) || (width o <? pw)) eqn:Hfit; [discriminate |].
  apply Bool.orb_false_elim in Hfit as [_ Hfit]. apply Z.ltb_ge in Hfit.
  destruct ((pw =? 0) || (ph =? 0)); [discriminate |].
  intros H. injection H as <-.
  set (img := rasterize s pw ph) in *.
  assert (Hsmall : 0 <= 4 * img_width img < 2 ^ 31) by lia.
  rewrite (tagMask_inkAt o img 2 (255 * 3) Hpr Hsmall).
  rewrite <- Hiw. split.
  - intros H. repeat (apply andb_prop in H as [H ?]).
    apply cellInk_inv; (assumption || lia).
  - intros (px & py & Hpx & Hpy & Hcx & Hcy & Hink).
    pose proof (cellInk_hit o img 2 (255 * 3) px py Hpr Hsmall Hpx Hpy Hink)
      as Hcell.
    rewrite Hcx, Hcy in Hcell. rewrite Hcell, Bool.andb_true_r.
    pose proof (ceilDiv_bounds (img_width img) (pixelRatio o) Hpr) as HXL.
    pose proof (ceilDiv_bounds (img_height img) (pixelRatio o) Hpr) as HYL.
    pose proof (Z.mod_pos_bound px (pixelRatio o) Hpr) as Hmx.
    pose proof (Z.div_mod px (pixelRatio o) ltac:(lia)) as Hdx.
    pose proof (Z.mod_pos_bound py (pixelRatio o) Hpr) as Hmy.
    pose proof (Z.div_mod py (pixelRatio o) ltac:(lia)) as Hdy.
    rewrite Hcx in Hdx. rewrite Hcy in Hdy.
    destruct (Z.leb_spec 0 cx), (Z.ltb_spec cx (ceilDiv (img_width img) (pixelRatio o))),
      (Z.leb_spec 0 cy), (Z.ltb_spec cy (ceilDiv (img_height img) (pixelRatio o)));
      try reflexivity; nia.
Qed.

Lemma getTagPixels_cells_witness :
  inkAt (pixels_data
           (getPixelsFromImgData (exOptions false)
              (exRaster (mkTagSpec "ab" 0 10 "red" 5) 32 4) 2 (255 * 3) 0 true))
    0 7 = true
  <-> exists px py,
        0 <= px < fst (exMeasure (mkTagSpec "ab" 0 10 "red" 5))
        /\ 0 <= py
             < img_height
                 (exRaster (mkTagSpec "ab" 0 10 "red" 5)
                    (fst (exMeasure (mkTagSpec "ab" 0 10 "red" 5)))
                    (snd (exMeasure (mkTagSpec "ab" 0 10 "red" 5))))
        /\ px / pixelRatio (exOptions false) = 7
        /\ py / pixelRatio (exOptions false) = 0
        /\ inkPixel
             (exRaster (mkTagSpec "ab" 0 10 "red" 5)
                (fst (exMeasure (mkTagSpec "ab" 0 10 "red" 5)))
                (snd (exMeasure (mkTagSpec "ab" 0 10 "red" 5))))
             2 (255 * 3) px py = true.
Proof.
  apply (getTagPixels_cells (exOptions false) exMeasure exRaster
           (mkTagSpec "ab" 0 10 "red" 5)).
  - reflexivity.
  - split; [discriminate | reflexivity].
  - discriminate.
  - reflexivity.
  - reflexivity.
Defined.

(** X8. In the grid that [loadMaskImage] builds, a cell of the image is
    free exactly when it covers a pixel that passes the ink test of the
    options. *)
Theorem loadMaskImage_cells o img cx cy :
  0 < pixelRatio o ->
  0 <= 4 * img_width img < 2 ^ 31 ->
  0 <= cx < ceilDiv (img_width img) (pixelRatio o) ->
  0 <= cy < ceilDiv (img_height img) (pixelRatio o) ->
  inkAt (pixels_data (loadMaskImage o img)) cy cx = false
  <-> exists px py,
        0 <= px < img_width img /\ 0 <= py < img_height img
        /\ px / pixelRatio o = cx /\ py / pixelRatio o = cy
        /\ inkPixel img (opacityThreshold o) (lightThreshold o) px py = true.
Proof.
  intros Hpr Hw Hcx Hcy. unfold loadMaskImage.
  rewrite fullGrid_inkAt by assumption.
  rewrite <- cellInk_iff by assumption.
  destruct (cellInk o img _ _ cx cy); simpl; split; congruence.
Qed.

Lemma loadMaskImage_cells_witness :
  inkAt (pixels_data (loadMaskImage exImageOptions exImage)) 0 1 = false
  <-> exists px py,
        0 <= px < img_width exImage /\ 0 <= py < img_height exImage
        /\ px / pixelRatio exImageOptions = 1
        /\ py / pixelRatio exImageOptions = 0
        /\ inkPixel exImage (opacityThreshold exImageOptions)
             (lightThreshold exImageOptions) px py = true.
Proof.
  apply (loadMaskImage_cells exImageOptions exImage 1 0).
  - reflexivity.
  - split; [discriminate | reflexivity].
  - split; [discriminate | reflexivity].
  - split; [discriminate | reflexivity].
Defined.

(** X9. [shape] reads a square of [width] by [width] pixels: the grid it
    installs has the row count of a canvas as high as it is wide, whatever
    [height] is, and a cell of that square is free exactly when it covers a
    pixel that the callback drew with the ink test of thresholds 2 and
    765. *)
Theorem shape_grid o img cx cy :
  0 < pixelRatio o ->
  0 <= 4 * width o < 2 ^ 31 ->
  img_width img = width o -> img_height img = width o ->
  pixels_width (shape o img) = width o
  /\ pixels_height (shape o img) = width o
  /\ length (pixels_data (shape o img))
     = Z.to_nat (ceilDiv (width o) (pixelRatio o))
  /\ (0 <= cx < ceilDiv (width o) (pixelRatio o) ->
      0 <= cy < ceilDiv (width o) (pixelRatio o) ->
      inkAt (pixels_data (shape o img)) cy cx = false
      <-> exists px py,
            0 <= px < width o /\ 0 <= py < width o
            /\ px / pixelRatio o = cx /\ py / pixelRatio o = cy
            /\ inkPixel img 2 (255 * 3) px py = true).
Proof.
  intros Hpr Hw Hiw Hih. unfold shape.
  split; [exact Hiw |]. split; [exact Hih |].
  split; [rewrite getPixelsFromImgData_rows, Hih; reflexivity |].
  intros Hcx Hcy. rewrite <- Hiw in Hw, Hih, Hcx, Hcy |- *.
  assert (Hcy' : 0 <= cy < ceilDiv (img_height img) (pixelRatio o))
    by (rewrite Hih; exact Hcy).
  rewrite fullGrid_inkAt by assumption.
  pose proof (cellInk_iff o img 2 (255 * 3) cx cy Hpr Hw Hcx Hcy') as Hiff.
  rewrite Hih in Hiff. rewrite <- Hiff.
  destruct (cellInk o img _ _ cx cy); simpl; split; congruence.
Qed.

Lemma shape_grid_witness :
  pixels_width (shape exImageOptions (mkImageData (concat (replicate 4 (img_data exImage))) 4 4)) = 4
  /\ pixels_height (shape exImageOptions (mkImageData (concat (replicate 4 (img_data exImage))) 4 4))
     = 4
  /\ length (pixels_data
               (shape exImageOptions (mkImageData (concat (replicate 4 (img_data exImage))) 4 4)))
     = Z.to_nat (ceilDiv 4 (pixelRatio exImageOptions))
  /\ (0 <= 2 < ceilDiv 4 (pixelRatio exImageOptions) ->
      0 <= 0 < ceilDiv 4 (pixelRatio exImageOptions) ->
      inkAt (pixels_data
               (shape exImageOptions (mkImageData (concat (replicate 4 (img_data exImage))) 4 4)))
        0 2 = false
      <-> exists px py,
            0 <= px < 4 /\ 0 <= py < 4
            /\ px / pixelRatio exImageOptions = 2
            /\ py / pixelRatio exImageOptions = 0
            /\ inkPixel (mkImageData (concat (replicate 4 (img_data exImage))) 4 4) 2 (255 * 3) px py
               = true).
Proof.
  apply (shape_grid exImageOptions (mkImageData (concat (replicate 4 (img_data exImage))) 4 4) 2 0).
  - reflexivity.
  - split; [discriminate | reflexivity].
  - reflexivity.
  - reflexivity.
Defined.

(** ** Ink of a tag is opacity *)

Lemma wellFormed_bytes img px py :
  wellFormed img ->
  0 <= px < img_width img -> 0 <= py < img_height img ->
  forall i, 0 <= i < 4 ->
    exists b, getZ (img_data img) (4 * (py * img_width img + px) + i) = Some b
              /\ 0 <= b <= 255.
Proof.
  intros [Hlen Hbytes] Hpx Hpy i Hi.
  set (pos := 4 * (py * img_width img + px) + i).
  assert (Hpos : 0 <= pos < 4 * img_width img * img_height img)
    by (subst pos; nia).
  destruct (proj2 (getZ_is_Some (img_data img) pos)) as [b Hb]; [lia |].
  exists b. split; [exact Hb |].
  apply getZ_Some in Hb as [_ Hb].
  rewrite Forall_lookup in Hbytes. eapply Hbytes. exact Hb.
Qed.

(** X10. With the thresholds of [getTagPixels] and [shape] (2 and 765),
    a pixel of a well-formed image is ink exactly when its alpha byte is at
    least 2: the colour plays no part. *)
Theorem tag_ink_is_opacity img px py :
  wellFormed img ->
  0 <= px < img_width img -> 0 <= py < img_height img ->
  exists a,
    alphaAt img px py = Some a
    /\ inkPixel img 2 (255 * 3) px py = (2 <=? a).
Proof.
  intros Hwf Hpx Hpy.
  destruct (wellFormed_bytes img px py Hwf Hpx Hpy 0 ltac:(lia))
    as (r & Hr & Hrb).
  destruct (wellFormed_bytes img px py Hwf Hpx Hpy 1 ltac:(lia))
    as (g & Hg & Hgb).
  destruct (wellFormed_bytes img px py Hwf Hpx Hpy 2 ltac:(lia))
    as (b & Hb & Hbb).
  destruct (wellFormed_bytes img px py Hwf Hpx Hpy 3 ltac:(lia))
    as (a & Ha & Hab).
  rewrite Z.add_0_r in Hr.
  exists a. split; [exact Ha |].
  unfold inkPixel. rewrite (isInk_spec _ _ _ _ r g b a Hr Hg Hb Ha).
  destruct (Z.leb_spec (r + g + b) (255 * 3)); [apply Bool.andb_true_r | lia].
Qed.

Lemma tag_ink_is_opacity_witness :
  exists a,
    alphaAt exImage 2 0 = Some a
    /\ inkPixel exImage 2 (255 * 3) 2 0 = (2 <=? a).
Proof.
  apply (tag_ink_is_opacity exImage 2 0).
  - split; [reflexivity |].
    repeat (constructor; [split; discriminate |]). constructor.
  - split; [discriminate | reflexivity].
  - split; [discriminate | reflexivity].
Defined.

(** ** The first tag of an empty canvas *)

Lemma sar0_half n : 0 <= n < 2 ^ 31 -> Int32.sar0 (Z.quot n 2) = n / 2.
Proof.
  intros Hn. rewrite Z.quot_div_nonneg by lia. unfold Int32.sar0.
  apply Int32Facts.toInt32_small.
  pose proof (Z.div_pos n 2 ltac:(lia) ltac:(lia)).
  pose proof (Z.div_le_upper_bound n 2 n ltac:(lia) ltac:(lia)).
  lia.
Qed.

(** On an empty canvas, a mask that fits is accepted at the start of the
    search. *)
Lemma tryPlaceTag_empty_canvas o img opacityT lightT x y :
  0 < pixelRatio o ->
  0 <= 4 * img_width img < 2 ^ 31 ->
  0 <= x -> x + img_width img <= width o ->
  0 <= y -> y + img_height img <= height o ->
  fst (tryPlaceTag o (generatePixels o (width o) (height o) 0 false)
         (getPixelsFromImgData o img opacityT lightT 0 true) x y) = true.
Proof.
  intros Hpr Hw Hx Hxw Hy Hyh.
  set (grid := generatePixels o (width o) (height o) 0 false).
  set (mask := getPixelsFromImgData o img opacityT lightT 0 true).
  unfold tryPlaceTag.
  destruct (collides _ _ _ _ _ _ _ _) eqn:Hc; [exfalso | reflexivity].
  apply firstPass_inv in Hc as (i & c & Hink & Hcell).
  subst mask. rewrite (tagMask_inkAt o img opacityT lightT Hpr Hw) in Hink.
  repeat (apply andb_prop in Hink as [Hink ?]).
  set (pr := pixelRatio o) in *.
  pose proof (ceilDiv_bounds (img_width img) pr Hpr) as HXm.
  pose proof (ceilDiv_bounds (img_height img) pr Hpr) as HYm.
  pose proof (ceilDiv_bounds (width o) pr Hpr) as HX.
  pose proof (ceilDiv_bounds (height o) pr Hpr) as HY.
  pose proof (Z.mod_pos_bound x pr Hpr) as Hmx.
  pose proof (Z.div_mod x pr ltac:(lia)) as Hdx.
  pose proof (Z.mod_pos_bound y pr Hpr) as Hmy.
  pose proof (Z.div_mod y pr ltac:(lia)) as Hdy.
  assert (0 <= x / pr) by (apply Z.div_pos; lia).
  assert (0 <= y / pr) by (apply Z.div_pos; lia).
  assert (HC : 0 <= x / pr + c < ceilDiv (width o) pr) by nia.
  assert (HR : 0 <= y / pr + i < ceilDiv (height o) pr) by nia.
  pose proof (generatePixels_stored o (width o) (height o) 0 false _ _ HC HR)
    as Hst.
  fold grid in Hst. rewrite cellOr_stored in Hcell by exact Hst.
  apply generatePixels_empty_inkAt in Hcell; [| assumption | lia].
  fold pr in Hcell. lia.
Qed.

(** X11. On the empty grid of a canvas without mask image, a tag whose
    box fits the canvas and has at least one pixel each way is rendered,
    whatever the fuel and the random directions, and its centre is the
    centre of the canvas up to one pixel. *)
Theorem first_tag_centred o whScale measureBox rasterize fuel rnd c tag :
  0 < pixelRatio o ->
  0 <= 4 * width o < 2 ^ 31 -> 0 <= height o < 2 ^ 31 ->
  pixels c = generatePixels o (width o) (height o) 0 false ->
  (forall s pw ph,
     img_width (rasterize s pw ph) = pw /\ img_height (rasterize s pw ph) = ph) ->
  0 < fst (measureBox (tagSpec o rnd c tag)) <= width o ->
  0 < snd (measureBox (tagSpec o rnd c tag)) <= height o ->
  exists td c' x y,
    handleTag o whScale measureBox rasterize fuel rnd c tag = Some (td, c')
    /\ td_rendered td = true
    /\ td_x td = Some x /\ td_y td = Some y
    /\ width o - 2 <= 2 * x <= width o
    /\ height o - 2 <= 2 * y <= height o.
Proof.
  intros Hpr Hw Hh Hgrid Himg Hpw Hph.
  unfold handleTag, getTagPixels.
  destruct (measureBox (tagSpec o rnd c tag)) as [pw ph]. simpl in Hpw, Hph.
  destruct (Z.ltb_spec (height o) ph); [lia |].
  destruct (Z.ltb_spec (width o) pw); [lia |]. cbn [orb].
  destruct (Z.eqb_spec pw 0); [lia |].
  destruct (Z.eqb_spec ph 0); [lia |]. cbn [orb].
  set (img := rasterize (tagSpec o rnd c tag) pw ph).
  destruct (Himg (tagSpec o rnd c tag) pw ph) as [Hiw Hih].
  fold img in Hiw, Hih.
  set (mask := getPixelsFromImgData o img 2 (255 * 3) 0 true).
  assert (Hmw : pixels_width mask = pw) by exact Hiw.
  assert (Hmh : pixels_height mask = ph) by exact Hih.
  unfold placeTag. rewrite Hmw, Hmh, Hgrid.
  rewrite !sar0_half by lia.
  pose proof (Z.div_mod (width o - pw) 2 ltac:(lia)) as Hdx.
  pose proof (Z.mod_pos_bound (width o - pw) 2 ltac:(lia)) as Hmx.
  pose proof (Z.div_mod (height o - ph) 2 ltac:(lia)) as Hdy.
  pose proof (Z.mod_pos_bound (height o - ph) 2 ltac:(lia)) as Hmy.
  pose proof (tryPlaceTag_empty_canvas o img 2 (255 * 3)
                ((width o - pw) / 2) ((height o - ph) / 2) Hpr
                ltac:(lia) ltac:(lia) ltac:(lia) ltac:(lia) ltac:(lia))
    as Hplace.
  fold mask in Hplace.
  destruct (tryPlaceTag o _ mask _ _) as [b grid1]. simpl in Hplace.
  subst b.
  eexists _, _, _, _. split; [reflexivity |]. simpl.
  split; [reflexivity |]. split; [reflexivity |]. split; [reflexivity |].
  rewrite !sar0_half by lia.
  pose proof (Z.div_mod (2 * ((width o - pw) / 2) + pw) 2 ltac:(lia)).
  pose proof (Z.mod_pos_bound (2 * ((width o - pw) / 2) + pw) 2 ltac:(lia)).
  pose proof (Z.div_mod (2 * ((height o - ph) / 2) + ph) 2 ltac:(lia)).
  pose proof (Z.mod_pos_bound (2 * ((height o - ph) / 2) + ph) 2 ltac:(lia)).
  lia.
Qed.

Lemma first_tag_centred_witness :
  exists td c' x y,
    handleTag (exOptions false) exScale exMeasure exRaster 0 (exDraws 0)
      exCloud (mkTag "ab" 1 None None) = Some (td, c')
    /\ td_rendered td = true
    /\ td_x td = Some x /\ td_y td = Some y
    /\ width (exOptions false) - 2 <= 2 * x <= width (exOptions false)
    /\ height (exOptions false) - 2 <= 2 * y <= height (exOptions false).
Proof.
  apply (first_tag_centred (exOptions false) exScale exMeasure exRaster 0
           (exDraws 0) exCloud (mkTag "ab" 1 None None)).
  - reflexivity.
  - split; [discriminate | reflexivity].
  - split; [discriminate | reflexivity].
  - reflexivity.
  - intros s pw ph. split; reflexivity.
  - split; [reflexivity | discriminate].
  - split; [reflexivity | discriminate].
Defined.

(** ** Where the rings of the search look *)

Section ProbeBand.

Variables (o : Options) (whScale : Z -> Z) (mask : Pixels).

Lemma ringPlace_shift x0 y0 kx ky p :
  ringPlace o mask (x0 + kx * pixelRatio o) (y0 + ky * pixelRatio o) p ->
  ringPlace o mask x0 y0 p.
Proof.
  intros (Hx & Hy & [k Hk] & [k' Hk']).
  split; [exact Hx |]. split; [exact Hy |]. split.
  - exists (kx + k). lia.
  - exists (ky + k'). lia.
Qed.

Lemma legXProbes_band xDir y n : forall x,
  - pixels_height mask <= y <= height o ->
  Forall (ringPlace o mask x y) (legXProbes o mask xDir y n x).
Proof.
  induction n as [| n IH]; intros x Hy; simpl; [constructor |].
  assert (Hrest : Forall (ringPlace o mask x y)
                    (legXProbes o mask xDir y n (x + xDir * pixelRatio o))).
  { eapply Forall_impl; [apply IH; exact Hy |].
    intros p Hp. apply (ringPlace_shift x y xDir 0).
    rewrite Z.mul_0_l, Z.add_0_r. exact Hp. }
  destruct (Z.ltb_spec (x + xDir * pixelRatio o) (- pixels_width mask));
    [exact Hrest |].
  destruct (Z.ltb_spec (width o) (x + xDir * pixelRatio o)); [exact Hrest |].
  simpl. constructor; [| exact Hrest].
  split; [simpl; lia |]. split; [exact Hy |]. split.
  - exists xDir. reflexivity.
  - exists 0. simpl. lia.
Qed.

Lemma legYProbes_band yDir x n : forall y,
  - pixels_width mask <= x <= width o ->
  Forall (ringPlace o mask x y) (legYProbes o mask yDir x n y).
Proof.
  induction n as [| n IH]; intros y Hx; simpl; [constructor |].
  assert (Hrest : Forall (ringPlace o mask x y)
                    (legYProbes o mask yDir x n (y + yDir * pixelRatio o))).
  { eapply Forall_impl; [apply IH; exact Hx |].
    intros p Hp. apply (ringPlace_shift x y 0 yDir).
    rewrite Z.mul_0_l, Z.add_0_r. exact Hp. }
  destruct (Z.ltb_spec (y + yDir * pixelRatio o) (- pixels_height mask));
    [exact Hrest |].
  destruct (Z.ltb_spec (height o) (y + yDir * pixelRatio o)); [exact Hrest |].
  simpl. constructor; [| exact Hrest].
  split; [exact Hx |]. split; [simpl; lia |]. split.
  - exists 0. simpl. lia.
  - exists yDir. reflexivity.
Qed.

Lemma spiralProbes_band endLen fuel : forall step x y xDir yDir,
  Forall (ringPlace o mask x y)
    (spiralProbes o whScale fuel mask endLen step x y xDir yDir).
Proof.
  induction fuel as [| fuel IH]; intros step x y xDir yDir;
    cbn [spiralProbes];
    destruct (Z.shiftr (Int32.toInt32 step) 1 <? endLen); try constructor.
  apply Forall_app. split; [| apply Forall_app; split].
  - destruct (Z.ltb_spec y (- pixels_height mask)); [constructor |].
    destruct (Z.ltb_spec (height o) y); [constructor |]. simpl.
    apply legXProbes_band. lia.
  - destruct (Z.ltb_spec (x + xDir * pixelRatio o * step)
                (- pixels_width mask)); [constructor |].
    destruct (Z.ltb_spec (width o) (x + xDir * pixelRatio o * step));
      [constructor |]. simpl.
    eapply Forall_impl; [apply legYProbes_band; lia |].
    intros p Hp. apply (ringPlace_shift x y (xDir * step) 0).
    rewrite Z.mul_0_l, Z.add_0_r.
    replace (x + xDir * step * pixelRatio o)
      with (x + xDir * pixelRatio o * step) by lia.
    exact Hp.
  - eapply Forall_impl; [apply IH |].
    intros p Hp. apply (ringPlace_shift x y (xDir * step) (yDir * whScale step)).
    replace (x + xDir * step * pixelRatio o)
      with (x + xDir * pixelRatio o * step) by lia.
    replace (y + yDir * whScale step * pixelRatio o)
      with (y + yDir * pixelRatio o * whScale step) by lia.
    exact Hp.
Qed.

End ProbeBand.

(** X12. The places that [placeTag] tries are the start, then places of
    the rings: each of those keeps the tag on the canvas or touching it
    ([-pixelsWidth <= x <= width], [-pixelsHeight <= y <= height]) and is a
    whole number of cells away from the start in both directions. *)
Theorem placeProbes_band o whScale fuel xDir yDir mask :
  let startX := Int32.sar0 (Z.quot (width o - pixels_width mask) 2) in
  let startY := Int32.sar0 (Z.quot (height o - pixels_height mask) 2) in
  exists rings,
    placeProbes o whScale fuel xDir yDir mask = (startX, startY) :: rings
    /\ Forall (ringPlace o mask startX startY) rings.
Proof.
  intros startX startY. eexists. split; [reflexivity |].
  apply spiralProbes_band.
Qed.

(** ** The deadline of [performDraw] *)

Lemma shownOf_filter data : shownOf data = filter (fun td => td_rendered td = true) data.
Proof.
  induction data as [| td rest IH]; simpl; [reflexivity |].
  rewrite IH. destruct (td_rendered td) eqn:E; simpl.
  - rewrite filter_cons_True by exact E. reflexivity.
  - rewrite filter_cons_False by congruence. reflexivity.
Qed.

Lemma shownOf_app a b : shownOf (a ++ b) = shownOf a ++ shownOf b.
Proof.
  induction a as [| td rest IH]; simpl; [reflexivity |].
  destruct (negb (td_rendered td)); simpl; rewrite IH; reflexivity.
Qed.

Lemma layout_app canvas d a b :
  layout canvas (layout canvas d a) b = layout canvas d (a ++ b).
Proof.
  destruct canvas; unfold layout, layoutByCanvas, layoutByDom; simpl;
    rewrite shownOf_app, app_assoc; reflexivity.
Qed.

Section TimedFacts.

Variables (o : Options) (whScale : Z -> Z).
Variables (measureBox : TagSpec -> Z * Z).
Variables (rasterize : TagSpec -> Z -> Z -> ImageData).

(** The deadline changes neither the results nor the cloud, and every
    result reaches the display once, in order. *)
Lemma performDrawLoop_untimed fuel rnd clock canvas sorted :
  forall i c expired result partial d,
    performDrawLoop o whScale measureBox rasterize fuel rnd clock canvas i c
      expired result partial d sorted
    = match handleTags o whScale measureBox rasterize fuel rnd i c sorted with
      | Some (res, c') =>
          Some (result ++ res, c', layout canvas d (partial ++ res))
      | None => None
      end.
Proof.
  induction sorted as [| tag rest IH]; intros i c expired result partial d;
    simpl.
  - rewrite !app_nil_r. reflexivity.
  - destruct (handleTag o whScale measureBox rasterize fuel (rnd i) c tag)
      as [[td c1] |]; [| reflexivity].
    destruct (Qlt_le_dec expired (clock i)); rewrite IH;
      destruct (handleTags o whScale measureBox rasterize fuel rnd (S i) c1 rest)
        as [[res c2] |]; try reflexivity.
    + rewrite layout_app, <- !app_assoc. reflexivity.
    + rewrite <- !app_assoc. reflexivity.
Qed.

End TimedFacts.

(** X16. The deadline of [performDraw] changes nothing but the moment of
    the layout: whatever the clock, the results and the cloud are those of
    the loop without deadline, and the display has received every rendered
    result exactly once, in the order of the results (as spans of the
    wrapper, or painted on the display canvas when [options.canvas] is
    set). *)
Theorem performDrawTimed_untimed o whScale measureBox rasterize fuel rnd start
    clock canvas c d sorted :
  performDrawTimed o whScale measureBox rasterize fuel rnd start clock canvas c
    d sorted
  = match handleTags o whScale measureBox rasterize fuel rnd 0 c sorted with
    | Some (result, c') =>
        Some (result, c',
              if canvas
              then mkDisplay (wrapper d)
                     (painted d ++ filter (fun td => td_rendered td = true) result)
              else mkDisplay
                     (wrapper d ++ filter (fun td => td_rendered td = true) result)
                     (painted d))
    | None => None
    end.
Proof.
  unfold performDrawTimed. rewrite performDrawLoop_untimed.
  destruct (handleTags _ _ _ _ _ _ _ _ _) as [[result c'] |]; [| reflexivity].
  simpl. unfold layout, layoutByCanvas, layoutByDom.
  rewrite shownOf_filter. reflexivity.
Qed.

(** ** Click listeners *)

Section ListenerFacts.

Context {L : Type} `{EqDecision L}.

Lemma indexOf_None (ls : list L) x : indexOf ls x = None <-> ~ In x ls.
Proof.
  induction ls as [| f rest IH]; simpl; [tauto |].
  destruct (decide (f = x)) as [-> | Hne].
  - split; [discriminate | intros Hn; exfalso; apply Hn; left; reflexivity].
  - destruct (indexOf rest x) as [i |]; simpl.
    + split; [discriminate |]. intros Hn. exfalso.
      destruct IH as [_ IH]. 
      assert (Hnone : Some i = None) by (apply IH; tauto). discriminate.
    + split; [| reflexivity]. intros _ [E | Hin]; [congruence |].
      apply (proj1 IH eq_refl Hin).
Qed.

Lemma indexOf_Some (ls : list L) x i :
  indexOf ls x = Some i ->
  exists l1 l2,
    ls = l1 ++ x :: l2 /\ ~ In x l1 /\ length l1 = i /\ delete i ls = l1 ++ l2.
Proof.
  revert i. induction ls as [| f rest IH]; intros i Hi; [discriminate |].
  simpl in Hi. destruct (decide (f = x)) as [-> | Hne].
  - injection Hi as <-. exists [], rest. simpl. tauto.
  - destruct (indexOf rest x) as [j |]; [| discriminate].
    simpl in Hi. injection Hi as <-.
    destruct (IH j eq_refl) as (l1 & l2 & -> & Hn & Hlen & Hdel).
    exists (f :: l1), l2. simpl. rewrite Hlen.
    split; [reflexivity |]. split; [intros [E | Hin]; [congruence | auto] |].
    split; [reflexivity |]. f_equal. exact Hdel.
Qed.

Lemma offClick_absent (ls : list L) x : ~ In x ls -> offClick ls x = ls.
Proof.
  intros Hn. unfold offClick. apply indexOf_None in Hn. rewrite Hn.
  reflexivity.
Qed.

Lemma offClick_present (ls : list L) x :
  In x ls ->
  exists l1 l2, ls = l1 ++ x :: l2 /\ ~ In x l1 /\ offClick ls x = l1 ++ l2.
Proof.
  intros Hin. unfold offClick.
  destruct (indexOf ls x) as [i |] eqn:Hi.
  - destruct (indexOf_Some _ _ _ Hi) as (l1 & l2 & Hls & Hn & _ & Hdel).
    exists l1, l2. auto.
  - apply indexOf_None in Hi. contradiction.
Qed.

Lemma registered_dec (ls : list L) x : In x ls \/ ~ In x ls.
Proof.
  destruct (indexOf ls x) as [i |] eqn:Hi.
  - left. destruct (indexOf_Some _ _ _ Hi) as (l1 & l2 & -> & _).
    apply in_or_app. right. left. reflexivity.
  - right. apply indexOf_None. exact Hi.
Qed.

Lemma offClick_app_r (ls : list L) x :
  (In x ls -> offClick (ls ++ [x]) x = offClick ls x ++ [x])
  /\ (~ In x ls -> offClick (ls ++ [x]) x = ls).
Proof.
  split; [intros Hin | intros Hn].
  - destruct (offClick_present ls x Hin) as (l1 & l2 & Hls & Hn1 & Hoff).
    rewrite Hoff.
    destruct (offClick_present (ls ++ [x]) x)
      as (l1' & l2' & Hls' & Hn1' & Hoff');
      [apply in_or_app; left; exact Hin |].
    rewrite Hoff'. rewrite Hls, <- app_assoc in Hls'. simpl in Hls'.
    assert (Hsplit : l1 = l1' /\ l2 ++ [x] = l2').
    { clear Hoff Hoff' Hls Hin. revert l1' Hls' Hn1'.
      induction l1 as [| a l1 IH]; intros l1' Hls' Hn1'.
      - destruct l1' as [| b l1']; simpl in Hls'.
        + injection Hls' as <-. auto.
        + injection Hls' as <- _. exfalso. apply Hn1'. left. reflexivity.
      - destruct l1' as [| b l1']; simpl in Hls'.
        + injection Hls' as -> _. exfalso. apply Hn1. left. reflexivity.
        + injection Hls' as <- Hrest.
          destruct (IH ltac:(intros Hi; apply Hn1; right; exact Hi) l1' Hrest
                      ltac:(intros Hi; apply Hn1'; right; exact Hi))
            as [-> <-].
          auto. }
    destruct Hsplit as [<- <-]. rewrite app_assoc. reflexivity.
  - destruct (offClick_present (ls ++ [x]) x)
      as (l1' & l2' & Hls' & Hn1' & Hoff');
      [apply in_or_app; right; left; reflexivity |].
    rewrite Hoff'.
    assert (Hsplit : l1' = ls /\ l2' = []).
    { clear Hoff'. revert l1' Hls' Hn1'.
      induction ls as [| a ls IH]; intros l1' Hls' Hn1'.
      - destruct l1' as [| b l1']; simpl in Hls'.
        + injection Hls' as <-. auto.
        + injection Hls' as <- Hrest. exfalso. apply Hn1'. left. reflexivity.
      - destruct l1' as [| b l1']; simpl in Hls'.
        + injection Hls' as -> _. exfalso. apply Hn. left. reflexivity.
        + injection Hls' as <- Hrest.
          destruct (IH ltac:(intros Hi; apply Hn; right; exact Hi) l1' Hrest
                      ltac:(intros Hi; apply Hn1'; right; exact Hi))
            as [-> ->].
          auto. }
    destruct Hsplit as [-> ->]. apply app_nil_r.
Qed.

End ListenerFacts.

(** X17. [offClick] leaves the listeners unchanged when the listener is
    not registered, and otherwise removes its first registration only. *)
Theorem offClick_removes_first {L : Type} `{EqDecision L} (ls : list L) x :
  (~ In x ls -> offClick ls x = ls)
  /\ (In x ls ->
      exists l1 l2,
        ls = l1 ++ x :: l2 /\ ~ In x l1 /\ offClick ls x = l1 ++ l2).
Proof.
  split; [apply offClick_absent | apply offClick_present].
Qed.

(** X18. [onClick] appends a function and ignores anything else. The
    function it returns restores the list when the listener was not
    registered before; when it was, it removes the older registration and
    keeps the new one at the end, so the listeners are the same up to their
    order, and [click] reaches the same listeners as before the
    subscription. *)
Theorem onClick_unsubscribe {L : Type} `{EqDecision L} (ls : list L) v :
  match v with
  | Fn f =>
      fst (onClick ls v) = ls ++ [f]
      /\ (~ In f ls ->
          unsubscribe (fst (onClick ls v)) (snd (onClick ls v)) = ls)
      /\ (In f ls ->
          unsubscribe (fst (onClick ls v)) (snd (onClick ls v))
          = offClick ls f ++ [f])
      /\ unsubscribe (fst (onClick ls v)) (snd (onClick ls v)) ≡ₚ ls
      /\ (forall (T : Type) (tagData : T) g,
            In (g, tagData)
              (click (unsubscribe (fst (onClick ls v)) (snd (onClick ls v)))
                 tagData)
            <-> In g ls)
  | NotFn =>
      fst (onClick ls v) = ls
      /\ unsubscribe (fst (onClick ls v)) (snd (onClick ls v)) = ls
  end.
Proof.
  destruct v as [f |]; simpl; [| auto].
  split; [reflexivity |].
  destruct (offClick_app_r ls f) as [Hold Hnew].
  split; [exact Hnew |]. split; [exact Hold |].
  assert (Hperm : offClick (ls ++ [f]) f ≡ₚ ls).
  { destruct (registered_dec ls f) as [Hin | Hn].
    - rewrite (Hold Hin).
      destruct (offClick_present ls f Hin) as (l1 & l2 & Hls & _ & ->).
      rewrite Hls, <- app_assoc. apply Permutation_app_head.
      symmetry. apply Permutation_cons_append.
    - rewrite (Hnew Hn). reflexivity. }
  split; [exact Hperm |].
  intros T tagData g. unfold click. rewrite in_map_iff. split.
  - intros (g' & E & Hin). injection E as ->.
    eapply Permutation_in; [exact Hperm | exact Hin].
  - intros Hin. exists g. split; [reflexivity |].
    eapply Permutation_in; [symmetry; exact Hperm | exact Hin].
Qed.

(** ** The cell size of the constructor *)

Lemma round_inject n : round (inject_Z n) = n.
Proof.
  unfold round, Qfloor, inject_Z, Qplus. simpl.
  rewrite Z.mul_1_r. symmetry.
  apply (Z.div_unique _ 2 _ 1); lia.
Qed.

Lemma round_le p q : (p <= q)%Q -> round p <= round q.
Proof.
  intros H. unfold round. apply Qfloor_resp_le.
  apply Qplus_le_l. exact H.
Qed.

Lemma round_comp p q : (p == q)%Q -> round p = round q.
Proof.
  intros E. unfold round. apply Qfloor_comp. rewrite E. reflexivity.
Qed.

(** X19. The cell size that the constructor stores is a whole number of
    at least 1: a number up to 1 (zero and negative numbers too) gives 1,
    and a whole number from 1 on is kept. *)
Theorem normalizeRatio_spec ratio :
  1 <= normalizeRatio ratio
  /\ (forall n, 1 <= n -> (ratio == inject_Z n)%Q -> normalizeRatio ratio = n)
  /\ ((ratio <= 1)%Q -> normalizeRatio ratio = 1).
Proof.
  unfold normalizeRatio. split; [| split].
  - destruct (Qlt_le_dec ratio 1) as [Hlt | Hle].
    + change 1%Q with (inject_Z 1). rewrite round_inject. lia.
    + rewrite <- (round_inject 1). apply round_le. exact Hle.
  - intros n Hn E. destruct (Qlt_le_dec ratio 1) as [Hlt | Hle].
    + rewrite E in Hlt. change 1%Q with (inject_Z 1) in Hlt.
      rewrite <- Zlt_Qlt in Hlt. lia.
    + rewrite (round_comp _ _ E). apply round_inject.
  - intros H1. destruct (Qlt_le_dec ratio 1) as [Hlt | Hle].
    + change 1%Q with (inject_Z 1). apply round_inject.
    + rewrite (round_comp ratio (inject_Z 1)); [apply round_inject |].
      apply Qle_antisym; assumption.
Qed.

(** ** The binary text of a word *)

Section Texts.

Local Open Scope string_scope.

Lemma length_app s1 s2 :
  String.length (s1 ++ s2) = (String.length s1 + String.length s2)%nat.
Proof. induction s1 as [| a s1 IH]; simpl; [reflexivity | rewrite IH; reflexivity]. Qed.

Lemma get_app s1 s2 n :
  String.get n (s1 ++ s2)
  = if (n <? String.length s1)%nat then String.get n s1
    else String.get (n - String.length s1) s2.
Proof.
  destruct (Nat.ltb_spec n (String.length s1)) as [Hlt | Hge].
  - symmetry. apply append_correct1. exact Hlt.
  - rewrite (append_correct2 s1 s2 (n - String.length s1)).
    f_equal. lia.
Qed.

Lemma length_substring m s :
  String.length (substring 0 m s) = Nat.min m (String.length s).
Proof.
  revert s. induction m as [| m IH]; intros s; destruct s as [| a s]; simpl;
    try reflexivity. rewrite IH. reflexivity.
Qed.

Lemma get_ZERO_STR n : (n < 32)%nat -> String.get n ZERO_STR = Some "0"%char.
Proof.
  intros Hn. do 32 (destruct n as [| n]; [reflexivity |]). lia.
Qed.

Lemma get_zeros m n :
  (n < m)%nat -> (m <= 32)%nat ->
  String.get n (substring 0 m ZERO_STR) = Some "0"%char.
Proof.
  intros Hn Hm. rewrite (substring_correct1 ZERO_STR 0 m n Hn).
  rewrite Nat.add_0_r. apply get_ZERO_STR. lia.
Qed.

End Texts.

Lemma length_posDigits p : String.length (posDigits p) = Pos.size_nat p.
Proof.
  induction p as [p IH | p IH |]; simpl; try reflexivity;
    rewrite length_app, IH; simpl; lia.
Qed.

Lemma size_nat_log2 p : Pos.size_nat p = S (Z.to_nat (Z.log2 (Zpos p))).
Proof.
  induction p as [p IH | p IH |]; [| | reflexivity].
  - rewrite Pos2Z.inj_xI, Z.log2_succ_double by lia. simpl Pos.size_nat.
    rewrite IH. pose proof (Z.log2_nonneg (Zpos p)). lia.
  - rewrite Pos2Z.inj_xO, Z.log2_double by lia. simpl Pos.size_nat.
    rewrite IH. pose proof (Z.log2_nonneg (Zpos p)). lia.
Qed.

(** The digits of a positive number are its bits, the last digit being
    bit 0. *)
Lemma get_posDigits p : forall k,
  (k < Pos.size_nat p)%nat ->
  String.get (Pos.size_nat p - 1 - k) (posDigits p)
  = Some (digit (Z.testbit (Zpos p) (Z.of_nat k))).
Proof.
  induction p as [p IH | p IH |]; intros k Hk.
  - simpl posDigits. simpl Pos.size_nat in *. rewrite get_app, length_posDigits.
    destruct k as [| k].
    + destruct (Nat.ltb_spec (S (Pos.size_nat p) - 1 - 0) (Pos.size_nat p));
        [lia |].
      replace (S (Pos.size_nat p) - 1 - 0 - Pos.size_nat p)%nat with 0%nat
        by lia.
      reflexivity.
    + destruct (Nat.ltb_spec (S (Pos.size_nat p) - 1 - S k) (Pos.size_nat p));
        [| lia].
      replace (S (Pos.size_nat p) - 1 - S k)%nat
        with (Pos.size_nat p - 1 - k)%nat by lia.
      rewrite IH by lia.
      rewrite Pos2Z.inj_xI, Nat2Z.inj_succ, Z.testbit_odd_succ by lia.
      reflexivity.
  - simpl posDigits. simpl Pos.size_nat in *. rewrite get_app, length_posDigits.
    destruct k as [| k].
    + destruct (Nat.ltb_spec (S (Pos.size_nat p) - 1 - 0) (Pos.size_nat p));
        [lia |].
      replace (S (Pos.size_nat p) - 1 - 0 - Pos.size_nat p)%nat with 0%nat
        by lia.
      reflexivity.
    + destruct (Nat.ltb_spec (S (Pos.size_nat p) - 1 - S k) (Pos.size_nat p));
        [| lia].
      replace (S (Pos.size_nat p) - 1 - S k)%nat
        with (Pos.size_nat p - 1 - k)%nat by lia.
      rewrite IH by lia.
      rewrite Pos2Z.inj_xO, Nat2Z.inj_succ, Z.testbit_even_succ by lia.
      reflexivity.
  - simpl in Hk. assert (k = 0)%nat by lia. subst k. reflexivity.
Qed.

Lemma binaryStrIfy_length num :
  - 2 ^ 31 <= num < 2 ^ 31 -> String.length (binaryStrIfy num) = 32%nat.
Proof.
  intros Hnum. unfold binaryStrIfy.
  destruct (Z.leb_spec 0 num) as [Hpos | Hneg].
  - destruct num as [| p | p]; [reflexivity | | lia].
    cbn [toString2]. rewrite length_app. unfold slice0.
    rewrite length_posDigits, size_nat_log2.
    assert (Hlog : 0 <= Z.log2 (Zpos p) < 31).
    { split; [apply Z.log2_nonneg | apply Z.log2_lt_pow2; lia]. }
    change (Z.of_nat (String.length ZERO_STR)) with 32.
    destruct (Z.ltb_spec (32 - Z.of_nat (S (Z.to_nat (Z.log2 (Zpos p))))) 0);
      [lia |].
    rewrite length_substring.
    change (String.length ZERO_STR) with 32%nat. lia.
  - destruct (2 ^ 32 + num) as [| p | p] eqn:E; [lia | | lia].
    cbn [toString2]. rewrite length_posDigits, size_nat_log2.
    rewrite (Z.log2_unique (Zpos p) 31); [reflexivity | lia |].
    change (Z.succ 31) with 32. lia.
Qed.

Lemma binaryStrIfy_get num (k : nat) :
  - 2 ^ 31 <= num < 2 ^ 31 -> (k < 32)%nat ->
  String.get k (binaryStrIfy num)
  = Some (digit (Z.testbit num (31 - Z.of_nat k))).
Proof.
  intros Hnum Hk. unfold binaryStrIfy.
  destruct (Z.leb_spec 0 num) as [Hpos | Hneg].
  - destruct num as [| p | p]; [| | lia].
    + rewrite Z.bits_0. change (binaryStrIfy 0) with ZERO_STR.
      apply get_ZERO_STR. exact Hk.
    + cbn [toString2]. unfold slice0.
      assert (Hlog : 0 <= Z.log2 (Zpos p) < 31).
      { split; [apply Z.log2_nonneg | apply Z.log2_lt_pow2; lia]. }
      pose proof (size_nat_log2 p) as Hsize.
      rewrite get_app, length_posDigits.
      change (Z.of_nat (String.length ZERO_STR)) with 32.
      destruct (Z.ltb_spec (32 - Z.of_nat (Pos.size_nat p)) 0); [lia |].
      rewrite length_substring. change (String.length ZERO_STR) with 32%nat.
      replace (Z.to_nat (Z.min (32 - Z.of_nat (Pos.size_nat p)) 32))
        with (32 - Pos.size_nat p)%nat by lia.
      replace (Nat.min (32 - Pos.size_nat p) 32) with (32 - Pos.size_nat p)%nat
        by lia.
      destruct (Nat.ltb_spec k (32 - Pos.size_nat p)) as [Hlt | Hge].
      * rewrite get_zeros by lia.
        rewrite Z.bits_above_log2; [reflexivity | lia | lia].
      * replace (k - (32 - Pos.size_nat p))%nat
          with (Pos.size_nat p - 1 - (31 - k))%nat by lia.
        rewrite get_posDigits by lia. do 3 f_equal. lia.
  - destruct (2 ^ 32 + num) as [| p | p] eqn:E; [lia | | lia].
    cbn [toString2].
    assert (Hsize : Pos.size_nat p = 32%nat).
    { rewrite size_nat_log2.
      rewrite (Z.log2_unique (Zpos p) 31); [reflexivity | lia |].
      change (Z.succ 31) with 32. lia. }
    replace k with (Pos.size_nat p - 1 - (31 - k))%nat at 1 by lia.
    rewrite get_posDigits by lia. do 2 f_equal.
    replace (Z.of_nat (31 - k)) with (31 - Z.of_nat k) by lia.
    rewrite <- E.
    rewrite <- (Z.mod_pow2_bits_low (2 ^ 32 + num) 32) by lia.
    rewrite <- (Z.mod_pow2_bits_low num 32 (31 - Z.of_nat k)) by lia.
    f_equal. rewrite Z.add_comm, <- (Z.mul_1_l (2 ^ 32)).
    apply Z.mod_add. lia.
Qed.

(** X20. For a 32-bit integer, [binaryStrIfy] gives 32 characters, and
    the character at index [k] is 1 exactly when bit [31 - k] of the word is
    set: the text reads like the cells of the word, from left to right. *)
Theorem binaryStrIfy_bits num (k : nat) :
  - 2 ^ 31 <= num < 2 ^ 31 -> (k < 32)%nat ->
  String.length (binaryStrIfy num) = 32%nat
  /\ String.get k (binaryStrIfy num)
     = Some (if Z.testbit num (31 - Z.of_nat k) then "1"%char else "0"%char).
Proof.
  intros Hnum Hk. split.
  - apply binaryStrIfy_length. exact Hnum.
  - apply binaryStrIfy_get; assumption.
Qed.

Lemma binaryStrIfy_bits_witness :
  String.length (binaryStrIfy (-2)) = 32%nat
  /\ String.get 31 (binaryStrIfy (-2))
     = Some (if Z.testbit (-2) (31 - Z.of_nat 31) then "1"%char else "0"%char).
Proof.
  apply (binaryStrIfy_bits (-2) 31).
  - split; [discriminate | reflexivity].
  - repeat constructor.
Defined.

Lemma append_empty_r s : (s ++ "")%string = s.
Proof.
  induction s as [| a s IH]; [reflexivity |].
  change (String a (s ++ "") = String a s)%string. f_equal. exact IH.
Qed.

Lemma printRow_cons w rest :
  printRow (w :: rest) = (binaryStrIfy w ++ printRow rest)%string.
Proof.
  unfold printRow. simpl. destruct (map binaryStrIfy rest) as [| s l] eqn:E.
  - simpl. symmetry. apply append_empty_r.
  - reflexivity.
Qed.

Lemma printRow_length row :
  Forall (fun w => - 2 ^ 31 <= w < 2 ^ 31) row ->
  String.length (printRow row) = (32 * length row)%nat.
Proof.
  induction 1 as [| w rest Hw _ IH]; [reflexivity |].
  rewrite printRow_cons, length_app, binaryStrIfy_length, IH by exact Hw.
  simpl length. lia.
Qed.

(** The text of a row shows its cells from left to right. *)
Lemma printRow_get row : forall c : nat,
  Forall (fun w => - 2 ^ 31 <= w < 2 ^ 31) row ->
  (c < 32 * length row)%nat ->
  exists w,
    getZ row (Z.of_nat c / 32) = Some w
    /\ String.get c (printRow row)
       = Some (digit (Z.testbit w (31 - Z.of_nat c mod 32))).
Proof.
  induction row as [| w rest IH]; intros c Hall Hc; [simpl in Hc; lia |].
  inversion Hall as [| ? ? Hw Hrest]; subst.
  rewrite printRow_cons, get_app, binaryStrIfy_length by exact Hw.
  destruct (Nat.ltb_spec c 32) as [Hlt | Hge].
  - exists w. rewrite Z.div_small, Z.mod_small by lia.
    split; [reflexivity |]. apply binaryStrIfy_get; assumption.
  - destruct (IH (c - 32)%nat Hrest ltac:(simpl in Hc; lia))
      as (w' & Hw' & Hget).
    exists w'.
    assert (Hq : Z.of_nat c / 32 = Z.of_nat (c - 32) / 32 + 1).
    { replace (Z.of_nat c) with (Z.of_nat (c - 32) + 1 * 32) by lia.
      apply Z.div_add. lia. }
    assert (Hm : Z.of_nat c mod 32 = Z.of_nat (c - 32) mod 32).
    { replace (Z.of_nat c) with (Z.of_nat (c - 32) + 1 * 32) by lia.
      apply Z.mod_add. lia. }
    rewrite Hq, Hm. split; [| exact Hget].
    revert Hw'. unfold getZ.
    pose proof (Z.div_pos (Z.of_nat (c - 32)) 32 ltac:(lia) ltac:(lia)).
    destruct (Z.ltb_spec (Z.of_nat (c - 32) / 32) 0); [lia |].
    destruct (Z.ltb_spec (Z.of_nat (c - 32) / 32 + 1) 0); [lia |].
    replace (Z.to_nat (Z.of_nat (c - 32) / 32 + 1))
      with (S (Z.to_nat (Z.of_nat (c - 32) / 32))) by lia.
    simpl. auto.
Qed.

Lemma printLines_lookup data : forall i (r : nat) row,
  data !! r = Some row ->
  printLines i data !! r
  = Some (printRow row ++ "_" ++ NilZero.string_of_uint (Nat.to_uint (i + r)))%string.
Proof.
  induction data as [| row0 rest IH]; intros i r row Hr; [discriminate |].
  destruct r as [| r]; simpl in Hr.
  - injection Hr as ->. rewrite Nat.add_0_r. reflexivity.
  - replace (i + S r)%nat with (S i + r)%nat by lia.
    rewrite <- (IH (S i) r row Hr). reflexivity.
Qed.

(** X21. [printPixels] writes one line per row of the grid, and the
    character at index [c] of line [r] is 1 exactly when cell [(r, c)] is
    occupied, for a grid of 32-bit words. *)
Theorem printPixels_cells p (r c : nat) row :
  int32Grid (pixels_data p) ->
  pixels_data p !! r = Some row -> (c < 32 * length row)%nat ->
  exists line,
    printPixels (Some p) !! r = Some line
    /\ String.get c line
       = Some (if inkAt (pixels_data p) (Z.of_nat r) (Z.of_nat c)
               then "1"%char else "0"%char).
Proof.
  intros Hall Hr Hc. unfold printPixels.
  rewrite (printLines_lookup _ 0 r row Hr). eexists. split; [reflexivity |].
  assert (Hrow : Forall (fun w => - 2 ^ 31 <= w < 2 ^ 31) row).
  { unfold int32Grid in Hall. rewrite Forall_lookup in Hall. eapply Hall, Hr. }
  rewrite get_app, printRow_length by exact Hrow.
  destruct (Nat.ltb_spec c (32 * length row)) as [_ | Hge]; [| lia].
  destruct (printRow_get row c Hrow Hc) as (w & Hw & ->).
  unfold inkAt, wordAt. rewrite getZ_nat, Hr, Hw. reflexivity.
Qed.

Lemma printPixels_cells_witness :
  exists line,
    printPixels (Some (mkPixels 128 8 [[2147483647]; [0]])) !! 0%nat = Some line
    /\ String.get 1 line
       = Some (if inkAt (pixels_data (mkPixels 128 8 [[2147483647]; [0]]))
                    (Z.of_nat 0) (Z.of_nat 1)
               then "1"%char else "0"%char).
Proof.
  apply (printPixels_cells (mkPixels 128 8 [[2147483647]; [0]]) 0 1
           [2147483647]).
  - repeat constructor; discriminate.
  - reflexivity.
  - simpl. lia.
Defined.

(** ** Places stay taken, and a mask without ink takes none *)

Lemma gridLe_cellOr out d d' r c :
  gridLe d d' -> cellOr out d r c = true -> cellOr out d' r c = true.
Proof.
  intros Hle. unfold cellOr. specialize (Hle r (c / 32)).
  pose proof (Z.mod_pos_bound c 32 ltac:(lia)) as Hc.
  destruct (wordAt d r (c / 32)) as [w |],
    (wordAt d' r (c / 32)) as [w' |]; try contradiction; [| auto].
  apply Hle. lia.
Qed.

(** X22. A place that [tryPlaceTag] refuses stays refused on every grid
    with at least the same cells occupied: until [clear], the search never
    needs to come back to a place. *)
Theorem refusal_persists o grid grid' mask x y :
  gridLe (pixels_data grid) (pixels_data grid') ->
  fst (tryPlaceTag o grid mask x y) = false ->
  fst (tryPlaceTag o grid' mask x y) = false.
Proof.
  intros Hle. unfold tryPlaceTag.
  destruct (collides _ _ _ _ _ (pixels_data grid) _ _) eqn:Hc;
    [| discriminate].
  intros _. apply firstPass_inv in Hc as (i & c & Hink & Hcell).
  rewrite (firstPass_hit _ _ _ _ _ i c Hink
             (gridLe_cellOr _ _ _ _ _ Hle Hcell)).
  reflexivity.
Qed.

Lemma refusal_persists_witness :
  fst (tryPlaceTag (exOptions false) (mkPixels 128 8 [[-1]; [-1]]) exMask 0 0)
  = false.
Proof.
  apply (refusal_persists (exOptions false) (mkPixels 128 8 [[-1]; [0]])
           (mkPixels 128 8 [[-1]; [-1]]) exMask 0 0).
  - intros r w. unfold wordAt, getZ. simpl.
    destruct (r <? 0); [exact I |].
    destruct (Z.to_nat r) as [| [| n]]; simpl; try exact I;
      (destruct (w <? 0); [exact I |]);
      (destruct (Z.to_nat w) as [| m]; simpl; [| exact I]).
    + apply leBits_refl.
    + intros k Hk Hb. rewrite Z.bits_0 in Hb. discriminate.
  - reflexivity.
Defined.

(** X23. A mask without ink is accepted at the start of the search on any
    grid, even a full one, whatever the fuel, and occupies no cell: the tag
    is reported at the centre and the cells of the grid are as before. *)
Theorem blank_mask_placed o whScale fuel xDir yDir grid mask :
  (forall i c, inkAt (pixels_data mask) i c = false) ->
  exists grid',
    placeTag o whScale fuel xDir yDir grid mask
    = Some (Some (Int32.sar0 (Z.quot (width o - pixels_width mask) 2),
                  Int32.sar0 (Z.quot (height o - pixels_height mask) 2)),
            grid')
    /\ forall r c,
         (stored (pixels_data grid') r c <-> stored (pixels_data grid) r c)
         /\ inkAt (pixels_data grid') r c = inkAt (pixels_data grid) r c.
Proof.
  intros Hblank. unfold placeTag.
  destruct (tryPlaceTag o grid mask _ _) as [[|] grid1] eqn:Ht.
  - exists grid1. split; [reflexivity |]. intros r c.
    pose proof (tryPlaceTag_cellAt _ _ _ _ _ _ r c Ht) as Hc.
    rewrite Hblank in Hc. rewrite !stored_cellAt, !inkAt_cellAt, Hc.
    destruct (cellAt (pixels_data grid) r c) as [b |]; simpl.
    + rewrite Bool.orb_false_r. split; [split; eauto | reflexivity].
    + split; [tauto | reflexivity].
  - exfalso. unfold tryPlaceTag in Ht.
    destruct (collides _ _ _ _ _ _ _ _) eqn:Hc; [| discriminate].
    apply firstPass_inv in Hc as (i & c & Hink & _).
    rewrite Hblank in Hink. discriminate.
Qed.

Lemma blank_mask_placed_witness :
  exists grid',
    placeTag (exOptions false) exScale 0 1 1 (mkPixels 128 8 [[-1]; [-1]])
      exBlank
    = Some (Some (Int32.sar0 (Z.quot (width (exOptions false)
                                      - pixels_width exBlank) 2),
                  Int32.sar0 (Z.quot (height (exOptions false)
                                      - pixels_height exBlank) 2)),
            grid')
    /\ forall r c,
         (stored (pixels_data grid') r c
          <-> stored (pixels_data (mkPixels 128 8 [[-1]; [-1]])) r c)
         /\ inkAt (pixels_data grid') r c
            = inkAt (pixels_data (mkPixels 128 8 [[-1]; [-1]])) r c.
Proof.
  apply (blank_mask_placed (exOptions false) exScale 0 1 1
           (mkPixels 128 8 [[-1]; [-1]]) exBlank).
  intros i c. unfold inkAt, wordAt, getZ. simpl.
  destruct (i <? 0); [reflexivity |].
  destruct (Z.to_nat i) as [| n]; simpl; [| reflexivity].
  destruct (c / 32 <? 0); [reflexivity |].
  destruct (Z.to_nat (c / 32)) as [| m]; simpl; [| reflexivity].
  apply Z.bits_0.
Defined.

(** ** Rendered tags lie on the canvas *)

Lemma placed_inside o grid mask x y grid' :
  cut o = false ->
  canvasGrid o (pixels_data grid) ->
  tryPlaceTag o grid mask x y = (true, grid') ->
  inkInside o mask x y.
Proof.
  intros Hcut [Hrows Htail] Htry i c Hink.
  destruct (placed_on_stored _ _ _ _ _ _ _ _ Hcut Htry Hink) as [Hst Hfree].
  destruct (stored_row _ _ _ Hst) as [Hr Hc].
  split; [rewrite Hrows in Hr; lia |].
  split; [exact Hc |].
  destruct (Z.lt_ge_cases (x / pixelRatio o + c)
              (ceilDiv (width o) (pixelRatio o))) as [Hlt | Hge];
    [exact Hlt |].
  rewrite (Htail _ _ Hge Hst) in Hfree. discriminate.
Qed.

(** What [handleTag] asks of [getTagPixels] depends on the cloud through
    the weight range only. *)
Lemma tagSpec_range o rnd c1 c2 tag :
  maxTagWeight c1 = maxTagWeight c2 -> minTagWeight c1 = minTagWeight c2 ->
  tagSpec o rnd c1 tag = tagSpec o rnd c2 tag.
Proof. intros Hmax Hmin. unfold tagSpec. rewrite Hmax, Hmin. reflexivity. Qed.

Lemma handleTags_inside o whScale measureBox rasterize fuel rnd sorted :
  cut o = false ->
  forall i c result c',
    canvasGrid o (pixels_data (pixels c)) ->
    handleTags o whScale measureBox rasterize fuel rnd i c sorted
    = Some (result, c') ->
    forall (k : nat) tag td,
      sorted !! k = Some tag -> result !! k = Some td ->
      td_rendered td = true ->
      exists mask, shownInside o (pixels c) (pixels c') mask td
        /\ getTagPixels o measureBox rasterize
             (tagSpec o (rnd (i + k)%nat) c tag)
           = Some (Some mask).
Proof.
  intros Hcut. induction sorted as [| tag0 rest IH];
    intros i c result c' Hgrid H k tag td Htag Htd Hrendered;
    [discriminate |].
  cbn [handleTags] in H.
  destruct (handleTag o whScale measureBox rasterize fuel (rnd i) c tag0)
    as [[td0 c1] |] eqn:Ht; [| discriminate].
  destruct (handleTags o whScale measureBox rasterize fuel rnd (S i) c1 rest)
    as [[res c2] |] eqn:Hr; [| discriminate].
  injection H as <- <-.
  pose proof (handleTag_gridAfter _ _ _ _ _ _ _ _ _ _ Ht) as Hfirst.
  pose proof (handleTags_gridAfter _ _ _ _ _ _ _ _ _ _ _ Hr) as Hrest.
  destruct k as [| k].
  - injection Htag as ->. injection Htd as ->.
    apply handleTag_cases in Ht. rewrite Hrendered in Ht.
    destruct Ht as (mask & x & y & Hmask & Htry & Hx & Hy).
    exists mask. rewrite Nat.add_0_r. split; [| exact Hmask].
    exists x, y, (pixels c), (pixels c1).
    split; [apply gridAfter_refl |]. split; [exact Htry |].
    split; [exact Hrest |]. split; [exact Hx |]. split; [exact Hy |].
    eapply placed_inside; eassumption.
  - destruct Hfirst as (HLe & Hw & Hh & Hkeep).
    destruct (IH (S i) c1 res c2 (Hkeep Hgrid) Hr k tag td Htag Htd Hrendered)
      as (mask & (x & y & g & g' & Hg & Htry & Hg' & Hx & Hy & Hin) & Hmask).
    exists mask. split.
    + exists x, y, g, g'. split; [| auto].
      eapply gridAfter_trans; [| exact Hg].
      exact (conj HLe (conj Hw (conj Hh Hkeep))).
    + destruct (handleTag_result _ _ _ _ _ _ _ _ _ _ Ht)
        as (_ & _ & Hmax & Hmin).
      rewrite <- (tagSpec_range o _ c1 c tag Hmax Hmin).
      replace (i + S k)%nat with (S i + k)%nat by lia. exact Hmask.
Qed.

(** X24. With [cut = false], on a canvas grid (one row per cell row, the
    cells beyond the width occupied), every rendered result of a [draw] that
    ends shows the mask of its tag on cells of the canvas. The result at
    index [i] belongs to the tag at index [i] of the sorted batch; when it
    is rendered, [getTagPixels] returned a mask for that tag, with the font
    size of the weight range that the draw leaves and the angle and colour
    of the [i]-th random draw, and [tryPlaceTag] accepted that mask at a
    place [(x, y)] on a grid between the one before the draw and the one
    after it; [x] and [y] of the result are the centre of the mask at that
    place, and no ink cell of the mask there lies outside the canvas. *)
Theorem draw_contained o whScale measureBox rasterize fuel rnd c
    (heap : gmap positive (list Tag)) tags contents result c' heap' :
  cut o = false ->
  canvasGrid o (pixels_data (pixels c)) ->
  heap !! tags = Some contents ->
  draw o whScale measureBox rasterize fuel rnd c heap tags
  = Some (result, c', heap') ->
  forall (i : nat) tag td,
    sortTags contents !! i = Some tag -> result !! i = Some td ->
    td_rendered td = true ->
    exists mask x y g g',
      getTagPixels o measureBox rasterize (tagSpec o (rnd i) c' tag)
      = Some (Some mask)
      /\ gridAfter o (pixels c) g
      /\ tryPlaceTag o g mask x y = (true, g')
      /\ gridAfter o g' (pixels c')
      /\ td_x td = Some (Int32.sar0 (Z.quot (2 * x + pixels_width mask) 2))
      /\ td_y td = Some (Int32.sar0 (Z.quot (2 * y + pixels_height mask) 2))
      /\ inkInside o mask x y.
Proof.
  intros Hcut Hgrid Hheap Hdraw i tag td Htag Htd Hrendered.
  destruct contents as [| t rest].
  { unfold draw in Hdraw. rewrite Hheap in Hdraw. simpl in Hdraw.
    injection Hdraw as <- <- <-. discriminate. }
  rewrite (draw_unfold _ _ _ _ _ _ _ _ _ _ Hheap ltac:(discriminate))
    in Hdraw.
  destruct (handleTags _ _ _ _ _ _ _ _ _) as [[res c1] |] eqn:Hr;
    [| discriminate].
  injection Hdraw as <- <- <-.
  destruct (handleTags_range _ _ _ _ _ _ _ _ _ _ _ Hr) as (Hmax & Hmin & _).
  destruct (handleTags_inside o whScale measureBox rasterize fuel rnd
              (sortTags (t :: rest)) Hcut 0%nat _ _ _
              ltac:(rewrite observeAll_pixels; exact Hgrid) Hr i tag td Htag
              Htd Hrendered)
    as (mask & (x & y & g & g' & Hg & Htry & Hg' & Hx & Hy & Hin) & Hmask).
  rewrite observeAll_pixels in Hg.
  rewrite <- (tagSpec_range o _ c1 _ tag Hmax Hmin) in Hmask.
  exists mask, x, y, g, g'. auto 10.
Qed.

Lemma draw_contained_witness :
  match exDraw exCloud exTags with
  | Some (result, c', _) =>
      forall (i : nat) tag td,
        sortTags exTags !! i = Some tag -> result !! i = Some td ->
        td_rendered td = true ->
        exists mask x y g g',
          getTagPixels (exOptions false) exMeasure exRaster
            (tagSpec (exOptions false) (exDraws i) c' tag)
          = Some (Some mask)
          /\ gridAfter (exOptions false) (pixels exCloud) g
          /\ tryPlaceTag (exOptions false) g mask x y = (true, g')
          /\ gridAfter (exOptions false) g' (pixels c')
          /\ td_x td
             = Some (Int32.sar0 (Z.quot (2 * x + pixels_width mask) 2))
          /\ td_y td
             = Some (Int32.sar0 (Z.quot (2 * y + pixels_height mask) 2))
          /\ inkInside (exOptions false) mask x y
  | None => False
  end.
Proof.
  destruct (exDraw exCloud exTags) as [[[result c'] heap'] |] eqn:Hdraw.
  - apply (draw_contained (exOptions false) exScale exMeasure exRaster 66
             exDraws exCloud {[ 1%positive := exTags ]} 1%positive exTags
             result c' heap').
    + reflexivity.
    + apply canvasGrid_generatePixels; [reflexivity | reflexivity | discriminate].
    + reflexivity.
    + exact Hdraw.
  - vm_compute in Hdraw. discriminate.
Defined.

(** ** The search tries its places in order *)

Lemma firstAccepted_split o grid mask places :
  match firstAccepted o grid mask places with
  | (Some p, grid') =>
      exists before after,
        places = before ++ p :: after
        /\ Forall (refused o grid mask) before
        /\ tryPlaceTag o grid mask (fst p) (snd p) = (true, grid')
  | (None, grid') => Forall (refused o grid mask) places /\ grid' = grid
  end.
Proof.
  induction places as [| [x y] rest IH]; simpl; [split; constructor |].
  destruct (tryPlaceTag o grid mask x y) as [[|] grid1] eqn:Ht.
  - exists [], rest. split; [reflexivity |]. split; [constructor | exact Ht].
  - assert (Href : refused o grid mask (x, y)).
    { unfold refused. simpl. rewrite Ht. reflexivity. }
    destruct (firstAccepted o grid mask rest) as [[p |] grid'].
    + destruct IH as (before & after & -> & Hb & Hp).
      exists ((x, y) :: before), after. split; [reflexivity |].
      split; [constructor; assumption | exact Hp].
    + destruct IH as [Hall ->]. split; [constructor; assumption | reflexivity].
Qed.

(** X25. When the search ends, the place that [placeTag] returns is the
    first place of its search order that [tryPlaceTag] accepts on the grid
    before the call: every place tried before it was refused; and it
    returns [NaN] only when every place of the search was refused, the grid
    being left as it was. *)
Theorem placeTag_first_accepted o whScale grid mask fuel xDir yDir :
  (forall step, 0 < step -> 0 <= whScale step) ->
  searchBound o mask < 2 ^ 30 ->
  (Z.to_nat (2 * searchBound o mask) <= fuel)%nat ->
  exists r grid',
    placeTag o whScale fuel xDir yDir grid mask = Some (r, grid')
    /\ match r with
       | Some p =>
           exists before after,
             placeProbes o whScale fuel xDir yDir mask = before ++ p :: after
             /\ Forall (refused o grid mask) before
             /\ tryPlaceTag o grid mask (fst p) (snd p) = (true, grid')
       | None =>
           Forall (refused o grid mask)
             (placeProbes o whScale fuel xDir yDir mask)
           /\ grid' = grid
       end.
Proof.
  intros Hscale Hbound Hfuel.
  rewrite (placeTag_probes o whScale grid mask Hscale fuel xDir yDir Hbound
             Hfuel).
  pose proof (firstAccepted_split o grid mask
                (placeProbes o whScale fuel xDir yDir mask)) as Hsplit.
  destruct (firstAccepted o grid mask _) as [r grid'].
  exists r, grid'. split; [reflexivity | exact Hsplit].
Qed.

Lemma placeTag_first_accepted_witness :
  exists r grid',
    placeTag (exOptions false) exScale 66 1 1 (mkPixels 128 8 [[-1]; [0]])
      exMask = Some (r, grid')
    /\ match r with
       | Some p =>
           exists before after,
             placeProbes (exOptions false) exScale 66 1 1 exMask
             = before ++ p :: after
             /\ Forall (refused (exOptions false) (mkPixels 128 8 [[-1]; [0]])
                          exMask) before
             /\ tryPlaceTag (exOptions false) (mkPixels 128 8 [[-1]; [0]])
                  exMask (fst p) (snd p) = (true, grid')
       | None =>
           Forall (refused (exOptions false) (mkPixels 128 8 [[-1]; [0]])
                     exMask)
             (placeProbes (exOptions false) exScale 66 1 1 exMask)
           /\ grid' = mkPixels 128 8 [[-1]; [0]]
       end.
Proof.
  apply (placeTag_first_accepted (exOptions false) exScale
           (mkPixels 128 8 [[-1]; [0]]) exMask 66 1 1).
  - exact exScale_nonneg.
  - reflexivity.
  - vm_compute. lia.
Defined.
